(** * invoice_auditor: a shallow embedding of [src/invoice_auditor.py]

    The development follows the layout of the program:
    - [Py]: Python strings as sequences of Unicode code points, and the
      [str] methods the program calls ([strip], [find], [rfind], slices,
      [replace]);
    - [Re]: the fragment of Python's [re] module that the program's
      patterns use, as a backtracking matcher with [search] and [sub];
    - [Float], [Obj], [Ops]: floats (IEEE 754 binary64), the values and
      exceptions the program handles, and the operators it applies to
      them, with their dynamic type checks;
    - [Json]: [json.loads];
    - [World]: the console, the network and the clock, and the monad of
      the computations that act on them;
    - [TextCleaner], [GigaChatAuth], [InvoiceAuditor]: the classes of
      the program, one module each, method by method;
    - [Globals], [Dependencies], [PDFProcessor], [Construction]: the
      names of the module, [check_dependencies], [extract_text] and the
      constructor of the broker;
    - [Pipeline]: the method [audit] as a whole, [extract_text] and then
      the loop;
    - the properties of the specification, proved or refuted on these
      definitions, and further properties of the code.

    The libraries that read a document (PyPDF2, PyMuPDF, pdf2image,
    Tesseract) stand as what they return on it, page by page; the image
    processing of [preprocess_image] is part of that.
    [InvoiceAuditor.audit] starts from the text that [extract_text]
    returns; [Pipeline.audit] is the method from its first statement. *)

From Stdlib Require Import List ZArith NArith Bool Lia Ascii String SpecFloat.
Import ListNotations.

Set Implicit Arguments.
Set Warnings "-register-all".

(* ===================================================================== *)
(** * Python strings                                                      *)
(* ===================================================================== *)

Module Py.

(** A Python [str] is a sequence of Unicode code points. *)
Definition char := N.
Definition str := list char.

Definition chr_eqb (a b : char) : bool := N.eqb a b.

Fixpoint str_eqb (a b : str) : bool :=
  match a, b with
  | [], [] => true
  | x :: a', y :: b' => chr_eqb x y && str_eqb a' b'
  | _, _ => false
  end.

(** ** Literals

    String literals of this file are UTF-8, as the source file is; [u]
    decodes them to code points, so that [u"руб"] has three characters. *)

Definition byte_val (a : ascii) : N := N_of_ascii a.

Fixpoint bytes_of (s : string) : list N :=
  match s with
  | EmptyString => []
  | String a s' => byte_val a :: bytes_of s'
  end.

(** Low six bits of a continuation byte. *)
Definition cont (b : N) : N := N.land b 63.

Fixpoint utf8_decode (fuel : nat) (bs : list N) : str :=
  match fuel with
  | O => []
  | S fuel' =>
    match bs with
    | [] => []
    | b0 :: t0 =>
      if N.ltb b0 128 then b0 :: utf8_decode fuel' t0
      else if N.ltb b0 224 then
        match t0 with
        | b1 :: t1 =>
            (N.land b0 31 * 64 + cont b1)%N :: utf8_decode fuel' t1
        | _ => []
        end
      else if N.ltb b0 240 then
        match t0 with
        | b1 :: b2 :: t2 =>
            (N.land b0 15 * 4096 + cont b1 * 64 + cont b2)%N
              :: utf8_decode fuel' t2
        | _ => []
        end
      else
        match t0 with
        | b1 :: b2 :: b3 :: t3 =>
            (N.land b0 7 * 262144 + cont b1 * 4096 + cont b2 * 64 + cont b3)%N
              :: utf8_decode fuel' t3
        | _ => []
        end
    end
  end.

Definition u (s : string) : str :=
  let bs := bytes_of s in utf8_decode (List.length bs) bs.

(** One-character literal. *)
Definition ch (s : string) : char := hd 0%N (u s).

(** The double quote and the line feed. *)
Definition dq : char := 34%N.
Definition nl : char := 10%N.

(** ** Whitespace

    [str.strip()] and the class [\s] of a [str] pattern both use the
    interpreter's Unicode whitespace test. *)
Definition isspace (c : char) : bool :=
  (N.leb 9 c && N.leb c 13) || (N.leb 28 c && N.leb c 32)
  || N.eqb c 133 || N.eqb c 160 || N.eqb c 5760
  || (N.leb 8192 c && N.leb c 8202)
  || N.eqb c 8232 || N.eqb c 8233 || N.eqb c 8239 || N.eqb c 8287
  || N.eqb c 12288.

Fixpoint lstrip (s : str) : str :=
  match s with
  | c :: s' => if isspace c then lstrip s' else s
  | [] => []
  end.

Definition rstrip (s : str) : str := rev (lstrip (rev s)).

(** [s.strip()] *)
Definition strip (s : str) : str := rstrip (lstrip s).

(** [s.find(c)] for a one-character needle: the lowest index, or [-1]. *)
Fixpoint find_from (c : char) (s : str) (i : Z) : Z :=
  match s with
  | [] => (-1)%Z
  | x :: s' => if chr_eqb x c then i else find_from c s' (i + 1)%Z
  end.

Definition find (s : str) (c : char) : Z := find_from c s 0%Z.

(** [s.rfind(c)]: the highest index, or [-1]. *)
Fixpoint rfind_from (c : char) (s : str) (i : Z) (last : Z) : Z :=
  match s with
  | [] => last
  | x :: s' =>
      rfind_from c s' (i + 1)%Z (if chr_eqb x c then i else last)
  end.

Definition rfind (s : str) (c : char) : Z := rfind_from c s 0%Z (-1)%Z.

(** [s[a:b]] for indices [0 <= a], [0 <= b] (the only slices the program
    takes have non-negative bounds). *)
Definition slice (s : str) (a b : Z) : str :=
  firstn (Z.to_nat (b - a)) (skipn (Z.to_nat a) s).

(** [s.replace(a, b)] for one-character [a] and [b]. *)
Definition replace (s : str) (a b : char) : str :=
  map (fun x => if chr_eqb x a then b else x) s.

End Py.

(* ===================================================================== *)
(** * The [re] module                                                     *)
(* ===================================================================== *)

Module Re.
Import Py.

(** Items of a bracketed character class. *)
Inductive item :=
| One (c : char)            (** a single character *)
| Range (lo hi : char)      (** [lo-hi] *)
| Space.                    (** [\s] *)

Definition item_mem (c : char) (i : item) : bool :=
  match i with
  | One x => chr_eqb c x
  | Range lo hi => N.leb lo c && N.leb c hi
  | Space => isspace c
  end.

(** The pattern language: what the program's patterns are written in. *)
Inductive regex :=
| Lit (c : char)                 (** a literal character *)
| Cls (items : list item)        (** [[...]] *)
| NCls (items : list item)       (** [[^...]] *)
| Seq (r1 r2 : regex)            (** concatenation *)
| Alt (r1 r2 : regex)            (** [r1|r2] *)
| Star (r : regex)               (** [r*], greedy *)
| Opt (r : regex)                (** [r?], greedy *)
| Group (n : nat) (r : regex)    (** capturing group number [n] *)
| NotBehind (items : list item)  (** [(?<![...])] *)
| NotAhead (items : list item)   (** [(?![...])] *)
| Eps.

(** [r+] *)
Definition Plus (r : regex) : regex := Seq r (Star r).

(** A literal string. *)
Fixpoint Str (s : str) : regex :=
  match s with
  | [] => Eps
  | [c] => Lit c
  | c :: s' => Seq (Lit c) (Str s')
  end.

Definition in_class (items : list item) (c : char) : bool :=
  existsb (item_mem c) items.

(** Matcher state: the text before the cursor (nearest character first),
    the text from the cursor on, and the groups captured so far. *)
Record state := mkState {
  before : str;
  rest   : str;
  caps   : list (nat * str)
}.

Definition step (st : state) : option (char * state) :=
  match rest st with
  | [] => None
  | c :: s' => Some (c, mkState (c :: before st) s' (caps st))
  end.

Fixpoint set_cap (n : nat) (v : str) (cs : list (nat * str)) : list (nat * str) :=
  match cs with
  | [] => [(n, v)]
  | (m, w) :: cs' =>
      if Nat.eqb m n then (n, v) :: cs' else (m, w) :: set_cap n v cs'
  end.

Fixpoint get_cap (n : nat) (cs : list (nat * str)) : option str :=
  match cs with
  | [] => None
  | (m, w) :: cs' => if Nat.eqb m n then Some w else get_cap n cs'
  end.

(** Text consumed between two states of one match. *)
Definition consumed (st st' : state) : str :=
  firstn (List.length (rest st) - List.length (rest st')) (rest st).

(** Backtracking matcher in continuation-passing style: [run r st k]
    tries the ways [r] matches at [st] in the order of the [re] module
    (left alternative first, greedy repetition longest first) and returns
    the first one that the continuation [k] accepts.  A repetition stops
    iterating when an iteration consumes nothing, so the length of the
    remaining text bounds the number of iterations. *)
Fixpoint run (A : Type) (r : regex) (st : state)
    (k : state -> option A) {struct r} : option A :=
  match r with
  | Eps => k st
  | Lit c =>
      match step st with
      | Some (x, st') => if chr_eqb x c then k st' else None
      | None => None
      end
  | Cls items =>
      match step st with
      | Some (x, st') => if in_class items x then k st' else None
      | None => None
      end
  | NCls items =>
      match step st with
      | Some (x, st') => if in_class items x then None else k st'
      | None => None
      end
  | Seq r1 r2 => run r1 st (fun st' => run r2 st' k)
  | Alt r1 r2 =>
      match run r1 st k with
      | Some a => Some a
      | None => run r2 st k
      end
  | Opt r1 =>
      match run r1 st k with
      | Some a => Some a
      | None => k st
      end
  | Star r1 =>
      (fix loop (n : nat) (st0 : state) {struct n} : option A :=
         match n with
         | O => k st0
         | S n' =>
             match run r1 st0 (fun st' =>
                     if Nat.ltb (List.length (rest st')) (List.length (rest st0))
                     then loop n' st' else None) with
             | Some a => Some a
             | None => k st0
             end
         end) (List.length (rest st)) st
  | Group n r1 =>
      run r1 st (fun st' =>
        k (mkState (before st') (rest st') (set_cap n (consumed st st') (caps st'))))
  | NotBehind items =>
      match before st with
      | x :: _ => if in_class items x then None else k st
      | [] => k st
      end
  | NotAhead items =>
      match rest st with
      | x :: _ => if in_class items x then None else k st
      | [] => k st
      end
  end.

(** A match: how many characters it spans and what its groups hold. *)
Record mtch := mkMatch {
  span   : nat;
  groups : list (nat * str)
}.

(** [group(n)]: [None] when the group took no part in the match. *)
Definition group (m : mtch) (n : nat) : option str := get_cap n (groups m).

(** Match [r] with the cursor after [bef] and before [s].  With
    [must_advance] an empty match is refused and the matcher backtracks. *)
Definition match_at (r : regex) (bef s : str) (must_advance : bool)
  : option mtch :=
  run r (mkState bef s []) (fun st' =>
    let n := List.length s - List.length (rest st') in
    if must_advance && Nat.eqb n 0 then None
    else Some (mkMatch n (caps st'))).

(** [re.search(r, s)]: the leftmost match, with the index it starts at. *)
Fixpoint search_from (r : regex) (bef s : str) (i : nat)
  : option (nat * mtch) :=
  match match_at r bef s false with
  | Some m => Some (i, m)
  | None =>
      match s with
      | [] => None
      | c :: s' => search_from r (c :: bef) s' (S i)
      end
  end.

Definition search (r : regex) (s : str) : option (nat * mtch) :=
  search_from r [] s 0.

(** Replacement templates: literal text and group references [\n]. *)
Inductive titem :=
| TLit (s : str)
| TRef (n : nat).

Definition expand (tpl : list titem) (m : mtch) : str :=
  flat_map (fun t =>
    match t with
    | TLit s => s
    | TRef n => match group m n with Some v => v | None => [] end
    end) tpl.

(** [re.sub(r, tpl, s)]: the non-overlapping matches of [r] in [s], found
    left to right, are replaced by the expansion of [tpl].  [skip] counts
    the characters of [s] that still belong to the last match.  After an
    empty match the search resumes at the same place but must advance. *)
Fixpoint sub_from (r : regex) (tpl : list titem) (bef s : str) (skip : nat)
  : str :=
  match s with
  | [] =>
      match match_at r bef [] false with
      | Some m => expand tpl m
      | None => []
      end
  | c :: s' =>
      match skip with
      | S n => sub_from r tpl (c :: bef) s' n
      | O =>
          match match_at r bef s false with
          | Some m =>
              match span m with
              | S n => expand tpl m ++ sub_from r tpl (c :: bef) s' n
              | O =>
                  expand tpl m ++
                  match match_at r bef s true with
                  | Some m' =>
                      expand tpl m' ++ sub_from r tpl (c :: bef) s' (span m' - 1)
                  | None => c :: sub_from r tpl (c :: bef) s' 0
                  end
              end
          | None => c :: sub_from r tpl (c :: bef) s' 0
          end
      end
  end.

Definition sub (r : regex) (tpl : list titem) (s : str) : str :=
  sub_from r tpl [] s 0.

(** Shorthands used by the program's patterns. *)
Definition ws : regex := Cls [Space].          (* \s *)
Definition ws_star : regex := Star ws.         (* \s* *)
Definition ws_plus : regex := Plus ws.         (* \s+ *)

End Re.

(* ===================================================================== *)
(** * class TextCleaner                                                   *)
(* ===================================================================== *)

Module TextCleaner.
Import Py Re.

(** [[а-яА-ЯЁё]] *)
Definition cyr : list item :=
  [Range (ch "а") (ch "я"); Range (ch "А") (ch "Я"); One (ch "Ё"); One (ch "ё")].

Definition digit : list item := [Range (ch "0") (ch "9")].

(** [clean_pdf_text], statement by statement. *)
Definition clean_pdf_text (text : str) : str :=
  (* re.sub(r'([а-яА-ЯЁё])\s+([а-яА-ЯЁё])', r'\1\2', text) *)
  let text := sub (Seq (Group 1 (Cls cyr)) (Seq ws_plus (Group 2 (Cls cyr))))
                  [TRef 1; TRef 2] text in
  (* re.sub(r'\s+([,.;:])', r'\1', text) *)
  let text := sub (Seq ws_plus
                       (Group 1 (Cls [One (ch ","); One (ch "."); One (ch ";"); One (ch ":")])))
                  [TRef 1] text in
  (* re.sub(r'(?<![0-9])о т(?![0-9])', 'от', text) *)
  let text := sub (Seq (NotBehind digit) (Seq (Str (u "о т")) (NotAhead digit)))
                  [TLit (u "от")] text in
  (* re.sub(r'р уб', 'руб', text) *)
  let text := sub (Str (u "р уб")) [TLit (u "руб")] text in
  (* re.sub(r'э лектр', 'электр', text) *)
  let text := sub (Str (u "э лектр")) [TLit (u "электр")] text in
  (* re.sub(r'э нерг', 'энерг', text) *)
  let text := sub (Str (u "э нерг")) [TLit (u "энерг")] text in
  (* re.sub(r'сч ё т', 'счёт', text) *)
  let text := sub (Str (u "сч ё т")) [TLit (u "счёт")] text in
  (* re.sub(r'о снаб', 'оснаб', text) *)
  let text := sub (Str (u "о снаб")) [TLit (u "оснаб")] text in
  (* re.sub(r'  +', ' ', text) *)
  let text := sub (Seq (Lit (ch " ")) (Plus (Lit (ch " ")))) [TLit (u " ")] text in
  strip text.

End TextCleaner.

(* ===================================================================== *)
(** * Python floats                                                       *)
(* ===================================================================== *)

Module Float.

(** A Python [float] is an IEEE 754 binary64 number. *)
Definition prec : Z := 53.
Definition emax : Z := 1024.
Definition float := spec_float.

Definition mul : float -> float -> float := SFmul prec emax.
Definition div : float -> float -> float := SFdiv prec emax.
Definition sub : float -> float -> float := SFsub prec emax.
Definition abs : float -> float := SFabs.
Definition ltb : float -> float -> bool := SFltb.

Definition is_zero (x : float) : bool :=
  match x with S754_zero _ => true | _ => false end.

Definition is_inf (x : float) : bool :=
  match x with S754_infinity _ => true | _ => false end.

(** The float nearest to [num / den] (ties to even), with sign [neg]. *)
Definition of_ratio (neg : bool) (num den : positive) : float :=
  let '(q, e, l) := SFdiv_core_binary prec emax (Zpos num) 0 (Zpos den) 0 in
  binary_round_aux prec emax neg q e l.

(** The float nearest to an integer. *)
Definition of_Z (z : Z) : float := binary_normalize prec emax z 0 false.

(** The float nearest to [m * 10^e10], with sign [neg]: what [float(s)]
    returns for a decimal literal [s]. *)
Definition of_decimal (neg : bool) (m : N) (e10 : Z) : float :=
  match m with
  | N0 => S754_zero neg
  | Npos p =>
      if (0 <=? e10)%Z
      then binary_round prec emax neg (p * Z.to_pos (10 ^ e10)) 0
      else of_ratio neg p (Z.to_pos (10 ^ (- e10)))
  end.

(** [a / b] rounded to the nearest integer, ties to even ([0 < b]). *)
Definition div_half_even (a b : Z) : Z :=
  let q := (a / b)%Z in
  let r := (a mod b)%Z in
  match (2 * r ?= b)%Z with
  | Lt => q
  | Gt => (q + 1)%Z
  | Eq => if Z.even q then q else (q + 1)%Z
  end.

(** [round(x, 2)]: the exact value of [x] is rounded to two decimals
    (ties to even) and the result is rounded to the nearest float;
    infinities and NaN round to themselves. *)
Definition round2 (x : float) : float :=
  match x with
  | S754_finite s m e =>
      if (0 <=? e)%Z then x
      else
        match div_half_even (Zpos m * 100) (2 ^ (- e)) with
        | Zpos n => of_ratio s n 100
        | _ => S754_zero s
        end
  | _ => x
  end.

End Float.

(* ===================================================================== *)
(** * Python values, exceptions and outcomes                              *)
(* ===================================================================== *)

Module Obj.
Import Py.

(** The values the program handles: what [json.loads] can return, and
    the records built from them. A [dict] keeps its keys in insertion
    order. *)
Inductive value :=
| VNone
| VBool (b : bool)
| VInt (z : Z)
| VFloat (f : Float.float)
| VStr (s : str)
| VList (l : list value)
| VDict (d : list (str * value)).

(** The exception classes the program meets, all subclasses of
    [Exception]. [JSONDecodeError] is a subclass of [ValueError];
    [Timeout] is [requests.exceptions.Timeout] and [ConnectionError]
    stands for the other transport failures of [requests]; [HTTPError]
    is what [raise_for_status] raises; the last two are the plain
    [Exception]s the program raises itself, told apart by their message:
    a refused credential exchange, and no answer after three attempts. *)
Inductive exn :=
| JSONDecodeError
| ValueError
| TypeError
| OverflowError
| ZeroDivisionError
| AttributeError
| KeyError
| IndexError
| Timeout
| ConnectionError
| HTTPError (status : Z)
| AuthorizationFailed (status : Z)
| NoAnswerAfter3Attempts.

(** [isinstance(e, ValueError)] *)
Definition is_ValueError (e : exn) : bool :=
  match e with JSONDecodeError | ValueError => true | _ => false end.

(** [isinstance(e, json.JSONDecodeError)] *)
Definition is_JSONDecodeError (e : exn) : bool :=
  match e with JSONDecodeError => true | _ => false end.

(** [isinstance(e, requests.exceptions.Timeout)] *)
Definition is_Timeout (e : exn) : bool :=
  match e with Timeout => true | _ => false end.

(** What evaluating a piece of code gives: a value, a raised exception,
    or no answer because the evaluator of this file ran out of fuel. *)
Inductive outcome (A : Type) :=
| Ok (a : A)
| Raise (e : exn)
| Unfinished.
Arguments Ok {A} a.
Arguments Raise {A} e.
Arguments Unfinished {A}.

Definition bind {A B} (m : outcome A) (f : A -> outcome B) : outcome B :=
  match m with
  | Ok a => f a
  | Raise e => Raise e
  | Unfinished => Unfinished
  end.

(** ** dict *)

Fixpoint dict_get (d : list (str * value)) (k : str) : option value :=
  match d with
  | [] => None
  | (k', v) :: d' => if str_eqb k' k then Some v else dict_get d' k
  end.

(** [d[k] = v] *)
Fixpoint dict_set (d : list (str * value)) (k : str) (v : value)
  : list (str * value) :=
  match d with
  | [] => [(k, v)]
  | (k', v') :: d' =>
      if str_eqb k' k then (k', v) :: d' else (k', v') :: dict_set d' k v
  end.

(** [k in d] *)
Definition dict_has (d : list (str * value)) (k : str) : bool :=
  match dict_get d k with Some _ => true | None => false end.

(** [d.get(k, default)] *)
Definition dict_get_default (d : list (str * value)) (k : str) (dflt : value)
  : value :=
  match dict_get d k with Some v => v | None => dflt end.

(** ** Truth value *)
Definition truthy (v : value) : bool :=
  match v with
  | VNone => false
  | VBool b => b
  | VInt z => negb (Z.eqb z 0)
  | VFloat f => negb (Float.is_zero f)
  | VStr s => match s with [] => false | _ => true end
  | VList l => match l with [] => false | _ => true end
  | VDict d => match d with [] => false | _ => true end
  end.

Definition is_none (v : value) : bool :=
  match v with VNone => true | _ => false end.

End Obj.

Notation "x <- m ;; k" := (Obj.bind m (fun x => k))
  (at level 61, m at next level, right associativity).

(* ===================================================================== *)
(** * The [json] module: [json.loads]                                     *)
(* ===================================================================== *)

Module Json.
Import Py Obj.

(** The decoder is the one of the standard library with its defaults:
    strict strings, [NaN] and the infinities accepted, the last of two
    equal keys kept. Stack depth and memory are taken as unbounded (no
    [RecursionError], no [MemoryError]); the limit of the interpreter on
    the digits of an integer literal is part of the model. *)

(** What a scanning function gives: a value and the text after it, the
    scanner's [StopIteration] (no value starts here), an exception, or
    no answer for lack of fuel. *)
Inductive scan (A : Type) :=
| Scanned (a : A) (rest : str)
| Stop
| Fail (e : exn)
| NoFuel.
Arguments Scanned {A} a rest.
Arguments Stop {A}.
Arguments Fail {A} e.
Arguments NoFuel {A}.

(** JSON whitespace: space, tab, line feed, carriage return. *)
Definition is_ws (c : char) : bool :=
  N.eqb c 32 || N.eqb c 9 || N.eqb c 10 || N.eqb c 13.

Fixpoint skip_ws (s : str) : str :=
  match s with
  | c :: s' => if is_ws c then skip_ws s' else s
  | [] => []
  end.

Definition is_digit (c : char) : bool := N.leb 48 c && N.leb c 57.

Fixpoint take_digits (s : str) : str * str :=
  match s with
  | c :: s' =>
      if is_digit c then let '(ds, r) := take_digits s' in (c :: ds, r)
      else ([], s)
  | [] => ([], [])
  end.

(** The number a string of decimal digits denotes. *)
Definition digits_val (ds : str) : N :=
  fold_left (fun acc c => (acc * 10 + (c - 48))%N) ds 0%N.

Fixpoint strip_prefix (p s : str) : option str :=
  match p, s with
  | [], _ => Some s
  | a :: p', b :: s' => if chr_eqb a b then strip_prefix p' s' else None
  | _ :: _, [] => None
  end.

Definition hexval (c : char) : option N :=
  if N.leb 48 c && N.leb c 57 then Some (c - 48)%N
  else if N.leb 97 c && N.leb c 102 then Some (c - 87)%N
  else if N.leb 65 c && N.leb c 70 then Some (c - 55)%N
  else None.

Definition hex4 (a b c d : char) : option N :=
  match hexval a, hexval b, hexval c, hexval d with
  | Some x, Some y, Some z, Some w => Some (((x * 16 + y) * 16 + z) * 16 + w)%N
  | _, _, _, _ => None
  end.

Definition is_high_surrogate (c : N) : bool := N.leb 55296 c && N.leb c 56319.
Definition is_low_surrogate (c : N) : bool := N.leb 56320 c && N.leb c 57343.
Definition join_surrogates (hi lo : N) : N :=
  (65536 + (hi - 55296) * 1024 + (lo - 56320))%N.

(** The character a one-letter escape stands for. *)
Definition unescape (c : char) : option char :=
  if chr_eqb c dq then Some dq
  else if chr_eqb c (ch "\") then Some (ch "\")
  else if chr_eqb c (ch "/") then Some (ch "/")
  else if chr_eqb c (ch "b") then Some 8%N
  else if chr_eqb c (ch "f") then Some 12%N
  else if chr_eqb c (ch "n") then Some 10%N
  else if chr_eqb c (ch "r") then Some 13%N
  else if chr_eqb c (ch "t") then Some 9%N
  else None.

(** [scanstring], in strict mode, from just after the opening quote:
    the decoded string and the text after the closing quote; [None] is
    a [JSONDecodeError] (unterminated string, control character, bad
    escape). [acc] holds the decoded characters, last first. *)
Fixpoint scanstring (s : str) (acc : str) : option (str * str) :=
  match s with
  | [] => None
  | c :: r =>
      if chr_eqb c dq then Some (rev acc, r)
      else if chr_eqb c (ch "\") then
        match r with
        | [] => None
        | e :: r1 =>
            if chr_eqb e (ch "u") then
              match r1 with
              | a :: b :: c1 :: d :: r2 =>
                  match hex4 a b c1 d with
                  | None => None
                  | Some uni =>
                      match r2 with
                      | b1 :: b2 :: a' :: b' :: c' :: d' :: r3 =>
                          if is_high_surrogate uni
                             && chr_eqb b1 (ch "\") && chr_eqb b2 (ch "u")
                             && negb (Nat.eqb (List.length r3) 0)
                          then
                            match hex4 a' b' c' d' with
                            | None => None
                            | Some uni2 =>
                                if is_low_surrogate uni2
                                then scanstring r3
                                       (join_surrogates uni uni2 :: acc)
                                else scanstring r2 (uni :: acc)
                            end
                          else scanstring r2 (uni :: acc)
                      | _ => scanstring r2 (uni :: acc)
                      end
                  end
              | _ => None
              end
            else
              match unescape e with
              | Some x => scanstring r1 (x :: acc)
              | None => None
              end
        end
      else if N.ltb c 32 then None
      else scanstring r (c :: acc)
  end.

(** The limit on the number of digits of an integer literal that the
    interpreter converts ([sys.int_info.default_max_str_digits]): beyond
    it, [int] raises [ValueError], and so does [json.loads]. *)
Definition int_max_str_digits : nat := 4300.

(** An optional sign of an exponent. *)
Definition exp_sign (s : str) : bool * str :=
  match s with
  | c :: t =>
      if chr_eqb c (ch "-") then (true, t)
      else if chr_eqb c (ch "+") then (false, t)
      else (false, s)
  | [] => (false, s)
  end.

(** The parts of a number literal, each with the text after it: an
    optional minus sign; the integer part, a single 0 or a digit from 1
    to 9 followed by digits; the fraction, a dot followed by one digit
    or more; the exponent, e or E, an optional sign and one digit or
    more. *)
Definition opt_minus (s : str) : bool * str :=
  match s with
  | c :: t => if chr_eqb c (ch "-") then (true, t) else (false, s)
  | [] => (false, s)
  end.

Definition int_part (s : str) : option (str * str) :=
  match s with
  | [] => None
  | c :: t =>
      if chr_eqb c (ch "0") then Some ([c], t)
      else if is_digit c then
        let '(ds, r) := take_digits t in Some (c :: ds, r)
      else None
  end.

Definition frac_part (s : str) : str * str :=
  match s with
  | p :: d :: t =>
      if chr_eqb p (ch ".") && is_digit d
      then let '(ds, r) := take_digits t in (d :: ds, r)
      else ([], s)
  | _ => ([], s)
  end.

Definition exp_part (s : str) : option (bool * str) * str :=
  match s with
  | e :: t =>
      if chr_eqb e (ch "e") || chr_eqb e (ch "E") then
        let '(eneg, t') := exp_sign t in
        let '(ds, r) := take_digits t' in
        match ds with
        | [] => (None, s)
        | _ :: _ => (Some (eneg, ds), r)
        end
      else (None, s)
  | [] => (None, s)
  end.

(** The number literal at the head of [s]. Without fraction and
    exponent it is an [int], and a [float] otherwise. *)
Definition match_number (s : str) : scan value :=
  let '(neg, s1) := opt_minus s in
  match int_part s1 with
  | None => Stop
  | Some (intpart, s2) =>
      let '(frac, s3) := frac_part s2 in
      let '(ex, s4) := exp_part s3 in
      match frac, ex with
      | [], None =>
          if Nat.ltb int_max_str_digits (List.length intpart)
          then Fail ValueError
          else
            let n := Z.of_N (digits_val intpart) in
            Scanned (VInt (if neg then (- n)%Z else n)) s4
      | _, _ =>
          let e10 :=
            match ex with
            | Some (eneg, ds) =>
                let e := Z.of_N (digits_val ds) in
                if eneg then (- e)%Z else e
            | None => 0%Z
            end in
          Scanned
            (VFloat (Float.of_decimal neg (digits_val (intpart ++ frac))
                       (e10 - Z.of_nat (List.length frac))))
            s4
      end
  end.

(** The named constants. *)
Definition match_constant (s : str) : option (value * str) :=
  match strip_prefix (u "null") s with
  | Some r => Some (VNone, r)
  | None =>
  match strip_prefix (u "true") s with
  | Some r => Some (VBool true, r)
  | None =>
  match strip_prefix (u "false") s with
  | Some r => Some (VBool false, r)
  | None =>
  match strip_prefix (u "NaN") s with
  | Some r => Some (VFloat S754_nan, r)
  | None =>
  match strip_prefix (u "Infinity") s with
  | Some r => Some (VFloat (S754_infinity false), r)
  | None =>
  match strip_prefix (u "-Infinity") s with
  | Some r => Some (VFloat (S754_infinity true), r)
  | None => None
  end end end end end end.

(** The scanner: [scan_once] reads one JSON value at the head of [s];
    [array_items] and [object_items] are the loops over the elements of
    an array and the members of an object, entered after the opening
    bracket when the container is not empty. *)
Fixpoint scan_once (fuel : nat) (s : str) {struct fuel} : scan value :=
  match fuel with
  | O => NoFuel
  | S f =>
      match s with
      | [] => Stop
      | c :: t =>
          if chr_eqb c dq then
            match scanstring t [] with
            | Some (v, r) => Scanned (VStr v) r
            | None => Fail JSONDecodeError
            end
          else if chr_eqb c (ch "{") then
            match skip_ws t with
            | x :: r =>
                if chr_eqb x (ch "}") then Scanned (VDict []) r
                else object_items f (x :: r) []
            | [] => object_items f [] []
            end
          else if chr_eqb c (ch "[") then
            match skip_ws t with
            | x :: r =>
                if chr_eqb x (ch "]") then Scanned (VList []) r
                else array_items f (x :: r) []
            | [] => array_items f [] []
            end
          else
            match match_constant s with
            | Some (v, r) => Scanned v r
            | None => match_number s
            end
      end
  end

with array_items (fuel : nat) (s : str) (acc : list value) {struct fuel}
  : scan value :=
  match fuel with
  | O => NoFuel
  | S f =>
      match scan_once f s with
      | Scanned v r =>
          match skip_ws r with
          | x :: r' =>
              if chr_eqb x (ch "]") then Scanned (VList (rev (v :: acc))) r'
              else if chr_eqb x (ch ",") then array_items f (skip_ws r') (v :: acc)
              else Fail JSONDecodeError
          | [] => Fail JSONDecodeError
          end
      | Stop => Stop
      | Fail e => Fail e
      | NoFuel => NoFuel
      end
  end

with object_items (fuel : nat) (s : str) (acc : list (str * value))
  {struct fuel} : scan value :=
  match fuel with
  | O => NoFuel
  | S f =>
      match s with
      | q :: t =>
          if chr_eqb q dq then
            match scanstring t [] with
            | None => Fail JSONDecodeError
            | Some (key, r) =>
                match skip_ws r with
                | c :: r1 =>
                    if chr_eqb c (ch ":") then
                      match scan_once f (skip_ws r1) with
                      | Scanned v r2 =>
                          let acc' := dict_set acc key v in
                          match skip_ws r2 with
                          | x :: r3 =>
                              if chr_eqb x (ch "}") then Scanned (VDict acc') r3
                              else if chr_eqb x (ch ",")
                              then object_items f (skip_ws r3) acc'
                              else Fail JSONDecodeError
                          | [] => Fail JSONDecodeError
                          end
                      | Stop => Stop
                      | Fail e => Fail e
                      | NoFuel => NoFuel
                      end
                    else Fail JSONDecodeError
                | [] => Fail JSONDecodeError
                end
            end
          else Fail JSONDecodeError
      | [] => Fail JSONDecodeError
      end
  end.

(** Fuel that suffices for a text: no call chain of the scanner is
    longer than twice the text (see [scanner_fuel]). *)
Definition fuel_for (s : str) : nat := 2 * List.length s + 1.

(** [json.loads(s)]: leading whitespace, one value, trailing whitespace
    and nothing more. A [StopIteration] of the scanner and trailing data
    are reported as [JSONDecodeError].

    The depth of nesting has no bound here. On arrays or objects nested
    deeper than its stack allows, at a depth that depends on the
    interpreter and on the calls under way, [json.loads] raises
    [RecursionError], which is no [JSONDecodeError]. What is stated
    below of the callers of [loads] either takes the outcome of [loads]
    as it comes, whatever it is, or is about a text without nesting, or
    holds as well when [loads] raises another exception. *)
Definition loads (s : str) : outcome value :=
  let s0 := skip_ws s in
  match scan_once (fuel_for s0) s0 with
  | Scanned v r =>
      match skip_ws r with
      | [] => Ok v
      | _ :: _ => Raise JSONDecodeError
      end
  | Stop => Raise JSONDecodeError
  | Fail e => Raise e
  | NoFuel => Unfinished
  end.

End Json.

(* ===================================================================== *)
(** * Operators on Python values                                          *)
(* ===================================================================== *)

Module Ops.
Import Py Obj.

(** [bool] is a subclass of [int]. *)
Definition as_int (v : value) : option Z :=
  match v with
  | VInt z => Some z
  | VBool b => Some (if b then 1 else 0)%Z
  | _ => None
  end.

(** [float(z)] for an [int]: [OverflowError] beyond the range of floats. *)
Definition int_to_float (z : Z) : outcome Float.float :=
  let f := Float.of_Z z in
  if Float.is_inf f then Raise OverflowError else Ok f.

(** [sys.maxsize] *)
Definition maxsize : Z := 2 ^ 63 - 1.

Fixpoint repeat_list (A : Type) (n : nat) (l : list A) : list A :=
  match n with
  | O => []
  | S n' => l ++ repeat_list n' l
  end.

(** [seq * n] for a [str] or a [list]. The count must fit an index
    ([OverflowError] otherwise), and so must the length of a repeated
    [str]. The memory of the machine has no bound here: where the
    result cannot be allocated CPython raises [MemoryError], as it does
    at once for a [list] whose repetition is longer than [sys.maxsize];
    what is stated below of [validate_result] on every record leaves
    the repetitions out. *)
Definition seq_repeat (sq : value) (n : Z) : outcome value :=
  if (maxsize <? n)%Z || (n <? - maxsize - 1)%Z then Raise OverflowError
  else
    match sq with
    | VStr s =>
        if (maxsize <? Z.of_nat (List.length s) * n)%Z then Raise OverflowError
        else Ok (VStr (repeat_list (Z.to_nat n) s))
    | VList l => Ok (VList (repeat_list (Z.to_nat n) l))
    | _ => Raise TypeError
    end.

(** [a * b] *)
Definition py_mul (a b : value) : outcome value :=
  match as_int a, as_int b with
  | Some x, Some y => Ok (VInt (x * y))
  | Some x, None =>
      match b with
      | VFloat g => f <- int_to_float x ;; Ok (VFloat (Float.mul f g))
      | VStr _ | VList _ => seq_repeat b x
      | _ => Raise TypeError
      end
  | None, Some y =>
      match a with
      | VFloat f => g <- int_to_float y ;; Ok (VFloat (Float.mul f g))
      | VStr _ | VList _ => seq_repeat a y
      | _ => Raise TypeError
      end
  | None, None =>
      match a, b with
      | VFloat f, VFloat g => Ok (VFloat (Float.mul f g))
      | _, _ => Raise TypeError
      end
  end.

(** [a / n] for a positive [int] literal [n]: the true division of two
    [int]s is rounded once, from the exact quotient. *)
Definition py_truediv_int (a : value) (n : positive) : outcome value :=
  match as_int a with
  | Some x =>
      let f :=
        match x with
        | Z0 => S754_zero false
        | Zpos p => Float.of_ratio false p n
        | Zneg p => Float.of_ratio true p n
        end in
      if Float.is_inf f then Raise OverflowError else Ok (VFloat f)
  | None =>
      match a with
      | VFloat f => Ok (VFloat (Float.div f (Float.of_Z (Zpos n))))
      | _ => Raise TypeError
      end
  end.

(** [a - b] *)
Definition py_sub (a b : value) : outcome value :=
  match as_int a, as_int b with
  | Some x, Some y => Ok (VInt (x - y))
  | Some x, None =>
      match b with
      | VFloat g => f <- int_to_float x ;; Ok (VFloat (Float.sub f g))
      | _ => Raise TypeError
      end
  | None, Some y =>
      match a with
      | VFloat f => g <- int_to_float y ;; Ok (VFloat (Float.sub f g))
      | _ => Raise TypeError
      end
  | None, None =>
      match a, b with
      | VFloat f, VFloat g => Ok (VFloat (Float.sub f g))
      | _, _ => Raise TypeError
      end
  end.

(** [round(a, 2)] *)
Definition py_round2 (a : value) : outcome value :=
  match as_int a with
  | Some x => Ok (VInt x)
  | None =>
      match a with
      | VFloat f => Ok (VFloat (Float.round2 f))
      | _ => Raise TypeError
      end
  end.

(** [abs(a)] *)
Definition py_abs (a : value) : outcome value :=
  match as_int a with
  | Some x => Ok (VInt (Z.abs x))
  | None =>
      match a with
      | VFloat f => Ok (VFloat (Float.abs f))
      | _ => Raise TypeError
      end
  end.

(** Exact comparison [x > f] of an [int] with a [float]. *)
Definition int_gt_float (x : Z) (f : Float.float) : bool :=
  match f with
  | S754_nan => false
  | S754_infinity neg => neg
  | S754_zero _ => (0 <? x)%Z
  | S754_finite neg m e =>
      let sm := if neg then Zneg m else Zpos m in
      if (0 <=? e)%Z then (sm * 2 ^ e <? x)%Z
      else (sm <? x * 2 ^ (- e))%Z
  end.

(** [a > c] for a [float] literal [c]. *)
Definition py_gt_float (a : value) (c : Float.float) : outcome bool :=
  match as_int a with
  | Some x => Ok (int_gt_float x c)
  | None =>
      match a with
      | VFloat f => Ok (Float.ltb c f)
      | _ => Raise TypeError
      end
  end.

(** [float(s)] for a string [s] of ASCII digits and dots, which is all
    that the class of digits and dots of the patterns lets through:
    [ValueError] unless [s] has a digit and at most one dot. *)
Definition py_float (s : str) : outcome Float.float :=
  let '(ip, r) := Json.take_digits s in
  let '(frac, r') :=
    match r with
    | c :: t => if chr_eqb c (ch ".") then Json.take_digits t else ([], r)
    | [] => ([], r)
    end in
  match r', ip ++ frac with
  | [], _ :: _ =>
      Ok (Float.of_decimal false (Json.digits_val (ip ++ frac))
            (- Z.of_nat (List.length frac)))
  | _, _ => Raise ValueError
  end.

End Ops.

(* ===================================================================== *)
(** * The world: console, network, clock                                  *)
(* ===================================================================== *)

Module World.
Import Py Obj.

(** The lines the program prints, by the statement that prints them. *)
Inductive line :=
| RefreshingToken                       (** [_fetch_token], on entry *)
| TokenValidUntil (expires_at : Z)      (** [_fetch_token], on success *)
| JsonDecodeErrorLine                   (** [parse_json_robust], tier 1 failed *)
| MissingField (field : str)            (** [validate_result] *)
| VatMismatch (vat expected : value)    (** [validate_result] *)
| TokenExpired                          (** [audit], on 401 *)
| ReplyReceived                         (** [audit], reply text extracted *)
| ParseFailed (attempt : nat)           (** [audit], inner handler *)
| RawReply                              (** [audit], inner handler, last attempt *)
| TimeoutLine (attempt : nat)           (** [audit], timeout handler *)
| ErrorLine.                            (** [audit], last handler *)

Inductive endpoint := AuthUrl | ApiUrl.

(** What the program does to the outside, in order. *)
Inductive event :=
| Printed (l : line)
| Slept (seconds : Z)                   (** [time.sleep] *)
| Requested (to : endpoint).            (** [requests.post] *)

(** What a call of [requests.post] comes back with: an exception of the
    transport, or a response with its status code and its body, [None]
    when the body is not JSON. *)
Inductive response :=
| Broken (e : exn)
| Reply (status : Z) (body : option value).

(** The state the program runs in. The network is given by the answer
    to each request in turn, the clock by the value of each reading in
    turn (milliseconds since the epoch); [token] and [token_expires_at]
    are the two fields of the one [GigaChatAuth] object. *)
Record world := mkWorld {
  net : nat -> response;
  sent : nat;
  clock : nat -> Z;
  reads : nat;
  events : list event;
  token : value;
  token_expires_at : option Z
}.

(** Computations that act on the world. *)
Definition M (A : Type) : Type := world -> outcome A * world.

Definition ret {A} (a : A) : M A := fun w => (Ok a, w).

Definition raise {A} (e : exn) : M A := fun w => (Raise e, w).

Definition mbind {A B} (m : M A) (f : A -> M B) : M B :=
  fun w =>
    match m w with
    | (Ok a, w') => f a w'
    | (Raise e, w') => (Raise e, w')
    | (Unfinished, w') => (Unfinished, w')
    end.

(** [try: m except Exception as e: handler e] *)
Definition try_except {A} (m : M A) (handler : exn -> M A) : M A :=
  fun w =>
    match m w with
    | (Raise e, w') => handler e w'
    | r => r
    end.

Definition lift {A} (o : outcome A) : M A := fun w => (o, w).

(** The world after the events [es]. *)
Definition after (w : world) (es : list event) : world :=
  mkWorld (net w) (sent w) (clock w) (reads w)
    (events w ++ es) (token w) (token_expires_at w).

Definition emit (e : event) : M unit := fun w => (Ok tt, after w [e]).

Definition print (l : line) : M unit := emit (Printed l).

(** [time.sleep(seconds)] *)
Definition sleep (seconds : Z) : M unit := emit (Slept seconds).

(** [datetime.now()] *)
Definition now : M Z :=
  fun w => (Ok (clock w (reads w)),
            mkWorld (net w) (sent w) (clock w) (S (reads w))
              (events w) (token w) (token_expires_at w)).

(** [requests.post(url, ...)] *)
Definition post (to : endpoint) : M (Z * option value) :=
  fun w =>
    let w' := mkWorld (net w) (S (sent w)) (clock w) (reads w)
                (events w ++ [Requested to]) (token w) (token_expires_at w) in
    match net w (sent w) with
    | Broken e => (Raise e, w')
    | Reply status body => (Ok (status, body), w')
    end.

Definition get_token : M value := fun w => (Ok (token w), w).

Definition get_expires_at : M (option Z) :=
  fun w => (Ok (token_expires_at w), w).

Definition set_token (v : value) : M unit :=
  fun w => (Ok tt, mkWorld (net w) (sent w) (clock w) (reads w)
                     (events w) v (token_expires_at w)).

Definition set_expires_at (t : option Z) : M unit :=
  fun w => (Ok tt, mkWorld (net w) (sent w) (clock w) (reads w)
                     (events w) (token w) t).

End World.

Notation "x <~ m ;; k" := (World.mbind m (fun x => k))
  (at level 61, m at next level, right associativity).
Notation "m ;;; k" := (World.mbind m (fun _ => k))
  (at level 61, right associativity).

(* ===================================================================== *)
(** * class Config                                                        *)
(* ===================================================================== *)

Module Config.

Definition TOKEN_REFRESH_BUFFER_MINUTES : Z := 5.

End Config.

(* ===================================================================== *)
(** * class GigaChatAuth                                                  *)
(* ===================================================================== *)

Module GigaChatAuth.
Import Py Obj World.

(** [timedelta(minutes=n)], in milliseconds. *)
Definition minutes (n : Z) : Z := n * 60000.

(** [response.json()] *)
Definition json_of (body : option value) : outcome value :=
  match body with
  | Some v => Ok v
  | None => Raise JSONDecodeError
  end.

(** [data[key]] for a string key. *)
Definition getitem (data : value) (key : str) : outcome value :=
  match data with
  | VDict d =>
      match dict_get d key with
      | Some v => Ok v
      | None => Raise KeyError
      end
  | _ => Raise TypeError
  end.

(** The integer nearest to a finite float. *)
Definition float_to_Z (f : Float.float) : outcome Z :=
  match f with
  | S754_zero _ => Ok 0%Z
  | S754_finite neg m e =>
      let a := if (0 <=? e)%Z then (Zpos m * 2 ^ e)%Z
               else Float.div_half_even (Zpos m) (2 ^ (- e)) in
      Ok (if neg then (- a)%Z else a)
  | S754_infinity _ => Raise OverflowError
  | S754_nan => Raise ValueError
  end.

(** The range of [datetime]: years 1 to 9999. *)
Definition datetime_min : Z := -62135596800000.
Definition datetime_max : Z := 253402300800000.

(** [datetime.fromtimestamp(v / 1000)] for [v] in milliseconds; the
    model keeps time stamps in milliseconds. [ValueError] stands for the
    error of a time stamp out of range, whose class depends on the
    platform. *)
Definition fromtimestamp_ms (v : value) : outcome Z :=
  ms <- match Ops.as_int v with
        | Some z => Ok z
        | None =>
            match v with
            | VFloat f => float_to_Z f
            | _ => Raise TypeError
            end
        end ;;
  if (datetime_min <=? ms)%Z && (ms <? datetime_max)%Z then Ok ms
  else Raise ValueError.

(** [_fetch_token] *)
Definition _fetch_token : M unit :=
  _ <~ now ;;
  print RefreshingToken ;;;
  resp <~ post AuthUrl ;;
  let '(status, body) := resp in
  if negb (status =? 200)%Z then raise (AuthorizationFailed status)
  else
    data <~ lift (json_of body) ;;
    tok <~ lift (getitem data (u "access_token")) ;;
    set_token tok ;;;
    expires <~
      match data with
      | VDict d =>
          if dict_has d (u "expires_at") then
            lift (v <- getitem data (u "expires_at") ;; fromtimestamp_ms v)
          else
            t <~ now ;; ret (t + minutes 30)%Z
      | _ => raise TypeError
      end ;;
    set_expires_at (Some expires) ;;;
    print (TokenValidUntil expires).

(** The property [token]. *)
Definition token : M value :=
  let buffer := minutes Config.TOKEN_REFRESH_BUFFER_MINUTES in
  tok <~ get_token ;;
  exp <~ get_expires_at ;;
  match truthy tok, exp with
  | true, Some expires_at =>
      t <~ now ;;
      if (expires_at - buffer <=? t)%Z then _fetch_token else ret tt
  | _, _ => _fetch_token
  end ;;;
  get_token.

End GigaChatAuth.

(* ===================================================================== *)
(** * class InvoiceAuditor                                                *)
(* ===================================================================== *)

Module InvoiceAuditor.
Import Py Re Obj World.

Definition quoted (s : string) : regex :=
  Seq (Lit dq) (Seq (Str (u s)) (Lit dq)).

(** The fence of a markdown block: three backticks, an optional
    [json], white space. *)
Definition fence : regex :=
  Seq (Str (u "```")) (Seq (Opt (Str (u "json"))) ws_star).

(** A quoted value broken by a line feed: a quote, white space, a colon,
    white space, a quote, group 1 of characters other than quotes, a
    line feed, group 2 of characters other than quotes, a quote. *)
Definition broken_value : regex :=
  Seq (Lit dq) (Seq ws_star (Seq (Lit (ch ":")) (Seq ws_star (Seq (Lit dq)
    (Seq (Group 1 (Star (NCls [One dq]))) (Seq (Lit nl)
      (Seq (Group 2 (Star (NCls [One dq]))) (Lit dq)))))))).

(** The repairs [extract_json_from_text] makes between the braces. *)
Definition collapse (json_str : str) : str :=
  (* a line feed inside a quoted value becomes a space *)
  let json_str :=
    sub broken_value
        [TLit [dq]; TLit (u ": "); TLit [dq]; TRef 1; TLit (u " "); TRef 2; TLit [dq]]
        json_str in
  (* a comma, white space, a line feed, white space *)
  let json_str :=
    sub (Seq (Lit (ch ",")) (Seq ws_star (Seq (Lit nl) ws_star)))
        [TLit (u ", ")] json_str in
  (* an opening brace, white space, a line feed, white space *)
  let json_str :=
    sub (Seq (Lit (ch "{")) (Seq ws_star (Seq (Lit nl) ws_star)))
        [TLit (u "{ ")] json_str in
  (* white space, a line feed, white space, a closing brace *)
  let json_str :=
    sub (Seq ws_star (Seq (Lit nl) (Seq ws_star (Lit (ch "}")))))
        [TLit (u " }")] json_str in
  (* runs of white space *)
  sub ws_plus [TLit (u " ")] json_str.

(** The text without its fences and outer white space, the first two
    statements of [extract_json_from_text]. *)
Definition unfenced (text : str) : str := strip (sub fence [] text).

(** [extract_json_from_text] *)
Definition extract_json_from_text (text : str) : str :=
  let text := unfenced text in
  let start_idx := find text (ch "{") in
  let end_idx := rfind text (ch "}") in
  if (0 <=? start_idx)%Z && (start_idx <? end_idx)%Z then
    let json_str := slice text start_idx (end_idx + 1) in
    collapse json_str
  else text.

(** The record with every field unset, tier 3 starts from. *)
Definition empty_result : list (str * value) :=
  [ (u "invoice_number", VNone); (u "date", VNone); (u "supplier", VNone);
    (u "buyer", VNone); (u "amount", VNone); (u "vat", VNone);
    (u "vat_rate", VNone); (u "contract_number", VNone);
    (u "payment_date", VNone); (u "meter_number", VNone) ].

(** The three shapes of the patterns of tier 3: after the quoted key,
    white space, a colon and white space, either a quoted string whose
    content is group 1, or a run of digits and dots that is group 1, or
    a quoted string whose content is group 1 or the word [null]. *)
Definition after_key (key : string) (r : regex) : regex :=
  Seq (quoted key) (Seq ws_star (Seq (Lit (ch ":")) (Seq ws_star r))).

Definition string_value : regex :=
  Seq (Lit dq) (Seq (Group 1 (Star (NCls [One dq]))) (Lit dq)).

Definition number_value : regex :=
  Group 1 (Plus (Cls [Range (ch "0") (ch "9"); One (ch ".")])).

Definition string_or_null : regex :=
  Alt string_value (Str (u "null")).

Definition patterns : list (str * regex) :=
  [ (u "invoice_number", after_key "invoice_number" string_value);
    (u "date", after_key "date" string_value);
    (u "supplier", after_key "supplier" string_value);
    (u "buyer", after_key "buyer" string_value);
    (u "amount", after_key "amount" number_value);
    (u "vat", after_key "vat" number_value);
    (u "vat_rate", after_key "vat_rate" number_value);
    (u "contract_number", after_key "contract_number" string_or_null);
    (u "payment_date", after_key "payment_date" string_or_null);
    (u "meter_number", after_key "meter_number" string_or_null) ].

Definition is_numeric_key (key : str) : bool :=
  existsb (str_eqb key) [u "amount"; u "vat"; u "vat_rate"].

(** One turn of the loop of tier 3. *)
Definition salvage (json_str : str) (result : list (str * value))
    (kp : str * regex) : outcome (list (str * value)) :=
  let '(key, pattern) := kp in
  match search pattern json_str with
  | Some (_, m) =>
      (* value = match.group(1) if match.group(1) else None *)
      let value :=
        match group m 1 with
        | Some (c :: v) => Some (c :: v)
        | _ => None
        end in
      match value with
      | Some v =>
          if is_numeric_key key then
            match Ops.py_float v with
            | Ok f => Ok (dict_set result key (VFloat f))
            | Raise e =>
                if is_ValueError e then Ok (dict_set result key VNone)
                else Raise e
            | Unfinished => Unfinished
            end
          else Ok (dict_set result key (VStr v))
      | None => Ok (dict_set result key VNone)
      end
  | None => Ok result
  end.

Fixpoint salvage_all (json_str : str) (result : list (str * value))
    (ps : list (str * regex)) : outcome (list (str * value)) :=
  match ps with
  | [] => Ok result
  | kp :: ps' =>
      result' <- salvage json_str result kp ;;
      salvage_all json_str result' ps'
  end.

(** The repairs of tier 2: a comma before a closing brace or bracket is
    dropped, single quotes become double quotes. *)
Definition repair (json_str : str) : str :=
  let json_str :=
    sub (Seq (Lit (ch ",")) (Seq ws_star (Lit (ch "}")))) [TLit (u "}")] json_str in
  let json_str :=
    sub (Seq (Lit (ch ",")) (Seq ws_star (Lit (ch "]")))) [TLit (u "]")] json_str in
  replace json_str (ch "'") dq.

(** [try: m except json.JSONDecodeError: handler] *)
Definition try_json {A} (m : M A) (handler : M A) : M A :=
  try_except m (fun e => if is_JSONDecodeError e then handler else raise e).

(** [parse_json_robust] *)
Definition parse_json_robust (text : str) : M value :=
  let json_str := extract_json_from_text text in
  try_json (lift (Json.loads json_str))
    (print JsonDecodeErrorLine ;;;
     let json_str := repair json_str in
     try_json (lift (Json.loads json_str))
       (result <~ lift (salvage_all json_str empty_result patterns) ;;
        ret (VDict result))).

Definition required_fields : list str :=
  [u "invoice_number"; u "date"; u "supplier"; u "buyer"; u "amount"; u "vat"].

Fixpoint report_missing (data : list (str * value)) (fields : list str)
  : M unit :=
  match fields with
  | [] => ret tt
  | field :: fields' =>
      (if negb (dict_has data field)
          || is_none (dict_get_default data field VNone)
       then print (MissingField field) else ret tt) ;;;
      report_missing data fields'
  end.

Definition cent : Float.float := Float.of_decimal false 1 (-2).

(** [validate_result] *)
Definition validate_result (data : list (str * value)) : M value :=
  report_missing data required_fields ;;;
  let amount := dict_get_default data (u "amount") (VInt 0) in
  let vat := dict_get_default data (u "vat") (VInt 0) in
  let vat_rate := dict_get_default data (u "vat_rate") (VInt 0) in
  (if truthy amount && truthy vat && truthy vat_rate then
     expected_vat <~ lift (p <- Ops.py_mul amount vat_rate ;;
                           q <- Ops.py_truediv_int p 100 ;;
                           Ops.py_round2 q) ;;
     off <~ lift (d <- Ops.py_sub vat expected_vat ;;
                  a <- Ops.py_abs d ;;
                  Ops.py_gt_float a cent) ;;
     if off then print (VatMismatch vat expected_vat) else ret tt
   else ret tt) ;;;
  ret (VDict data).

(** [response.raise_for_status()] *)
Definition raise_for_status (status : Z) : M unit :=
  if (400 <=? status)%Z && (status <? 600)%Z then raise (HTTPError status)
  else ret tt.

(** [v[0]] *)
Definition getitem0 (v : value) : outcome value :=
  match v with
  | VList (x :: _) => Ok x
  | VList [] => Raise IndexError
  | VStr (c :: _) => Ok (VStr [c])
  | VStr [] => Raise IndexError
  | VDict _ => Raise KeyError
  | _ => Raise TypeError
  end.

(** [response.json()["choices"][0]["message"]["content"]] *)
Definition content_of (body : option value) : outcome value :=
  data <- GigaChatAuth.json_of body ;;
  choices <- GigaChatAuth.getitem data (u "choices") ;;
  choice <- getitem0 choices ;;
  message <- GigaChatAuth.getitem choice (u "message") ;;
  GigaChatAuth.getitem message (u "content").

(** [len(v)], for its exception only. *)
Definition check_len (v : value) : outcome unit :=
  match v with
  | VStr _ | VList _ | VDict _ => Ok tt
  | _ => Raise TypeError
  end.

(** [v[:500]], for its exception only: a [dict] cannot be sliced
    ([TypeError], the slice being unhashable; [KeyError] from Python
    3.12 on). *)
Definition check_slice (v : value) : outcome unit :=
  match v with
  | VStr _ | VList _ => Ok tt
  | _ => Raise TypeError
  end.

(** [not result or all(v is None for v in result.values())] *)
Definition is_empty_result (result : value) : outcome bool :=
  if negb (truthy result) then Ok true
  else
    match result with
    | VDict d => Ok (forallb (fun kv => is_none (snd kv)) d)
    | _ => Raise AttributeError
    end.

(** The record returned when the reply cannot be parsed on the last
    attempt. *)
Definition diagnostic (result_text : value) (text : str) : value :=
  VDict [ (u "error", VStr (u "JSON parse failed"));
          (u "raw_response", result_text);
          (u "extracted_text", VStr (firstn 1000 text)) ].

(** How one turn of the loop of [audit] ends: with [return], or by
    going on to the next turn ([continue], or the end of the body). *)
Inductive flow :=
| Return (v : value)
| Next.

(** What the inner [try] of [audit] does with the reply. *)
Definition parse_reply (result_text : value) : M flow :=
  result <~ match result_text with
            | VStr s => parse_json_robust s
            | _ => raise TypeError
            end ;;
  empty <~ lift (is_empty_result result) ;;
  if empty then raise ValueError
  else
    match result with
    | VDict d => result' <~ validate_result d ;; ret (Return result')
    | _ => raise AttributeError
    end.

(** The [try] block of the loop of [audit]. *)
Definition attempt_try (text : str) (attempt : nat) : M flow :=
  _ <~ GigaChatAuth.token ;;
  resp <~ post ApiUrl ;;
  let '(status, body) := resp in
  if (status =? 401)%Z then
    print TokenExpired ;;;
    set_token VNone ;;;
    ret Next
  else
    raise_for_status status ;;;
    result_text <~ lift (content_of body) ;;
    lift (check_len result_text) ;;;
    print ReplyReceived ;;;
    try_except (parse_reply result_text)
      (fun _ =>
         print (ParseFailed (attempt + 1)) ;;;
         if Nat.eqb attempt 2 then
           lift (check_slice result_text) ;;;
           print RawReply ;;;
           ret (Return (diagnostic result_text text))
         else
           sleep 1 ;;; ret Next).

(** Its two handlers: [except requests.exceptions.Timeout], then
    [except Exception as e]. *)
Definition attempt_except (attempt : nat) (e : exn) : M flow :=
  if is_Timeout e then
    print (TimeoutLine (attempt + 1)) ;;;
    sleep 2 ;;;
    ret Next
  else
    print ErrorLine ;;;
    if Nat.eqb attempt 2 then raise e
    else sleep 1 ;;; ret Next.

(** The body of the loop of [audit], for one value of [attempt]. *)
Definition attempt_body (text : str) (attempt : nat) : M flow :=
  try_except (attempt_try text attempt) (attempt_except attempt).

(** [for attempt in attempts: ...], then the final [raise]. *)
Fixpoint attempts_loop (text : str) (attempts : list nat) : M value :=
  match attempts with
  | [] => raise NoAnswerAfter3Attempts
  | attempt :: attempts' =>
      r <~ attempt_body text attempt ;;
      match r with
      | Return v => ret v
      | Next => attempts_loop text attempts'
      end
  end.

(** [audit], from the text that [extract_text] got out of the document:
    the text is cleaned, and the prompt built from its first 4000
    characters is sent, three times at most ([range(3)]). The answers of
    the service are those of the world, whatever the prompt. The call
    of [extract_text] itself, what it raises, and the two lines printed
    before the loop are in [Pipeline.audit] below. *)
Definition audit (extracted : str) : M value :=
  let text := TextCleaner.clean_pdf_text extracted in
  attempts_loop text (seq 0 3).

End InvoiceAuditor.


(* ===================================================================== *)
(** * The names of the module                                             *)
(* ===================================================================== *)

Module Globals.
Import Py.

(** What the functions read and assign outside themselves:
    [HAVE_PYMUPDF], set when the module is loaded; the global
    [convert_from_path], [None] until [check_dependencies] imports it;
    [pytesseract.pytesseract.tesseract_cmd]; and the directories added to
    [os.environ['PATH']]. *)
Record globals := mkGlobals {
  HAVE_PYMUPDF : bool;
  convert_from_path : bool;             (** is not [None] *)
  tesseract_cmd : str;
  PATH_added : list str
}.

(** The names as they are once the module is loaded. *)
Definition loaded (have_pymupdf : bool) : globals :=
  mkGlobals have_pymupdf false (u "tesseract") [].

(** [not s], [s] a string. *)
Definition empty (s : str) : bool :=
  match s with [] => true | _ => false end.

End Globals.

(* ===================================================================== *)
(** * check_dependencies                                                  *)
(* ===================================================================== *)

Module Dependencies.
Import Py Globals.

(** [Config.TESSERACT_PATHS] *)
Definition TESSERACT_PATHS : list str :=
  [ u "C:\Program Files\Tesseract-OCR\tesseract.exe";
    u "C:\Program Files (x86)\Tesseract-OCR\tesseract.exe";
    u "/usr/bin/tesseract";
    u "/usr/local/bin/tesseract";
    u "/opt/homebrew/bin/tesseract" ].

Definition poppler_paths : list str :=
  [ u "C:\Program Files\poppler\Library\bin";
    u "C:\poppler\Library\bin";
    u "C:\Program Files\poppler\bin" ].

(** What the function asks of the machine it runs on. *)
Record system := mkSystem {
  path_exists : str -> bool;            (** [os.path.exists] *)
  which_tesseract : bool;               (** [shutil.which('tesseract')] finds it *)
  win32 : bool;                         (** [sys.platform == 'win32'] *)
  pdf2image : bool;                     (** the import of [pdf2image] succeeds *)
  get_languages : option (list str);    (** [None]: the call raises *)
  GIGACHAT_AUTH_KEY : option str        (** [os.getenv('GIGACHAT_AUTH_KEY')] *)
}.

(** The lines it prints. *)
Inductive line :=
| Checking
| TesseractAt (path : str)
| TesseractInPath
| TesseractNotFound
| PopplerAt (path : str)
| Pdf2imageOk
| Pdf2imageReplaced                     (** PyMuPDF is used instead *)
| Pdf2imageNotFound
| RussianNotInstalled
| LanguagesOk
| LanguagesFailed
| KeyNotFound
| KeyFound.

(** [for path in paths: if os.path.exists(path): ... break] *)
Definition first_existing (sys : system) (paths : list str) : option str :=
  List.find (path_exists sys) paths.

(** ['rus' in langs] *)
Definition has_russian (langs : list str) : bool :=
  existsb (str_eqb (u "rus")) langs.

(** [not os.getenv('GIGACHAT_AUTH_KEY')] *)
Definition key_unset (sys : system) : bool :=
  match GIGACHAT_AUTH_KEY sys with
  | Some key => empty key
  | None => true
  end.

(** The check of the API key, the last one. *)
Definition check_key (sys : system) (g : globals) (out : list line)
  : list line * (bool * globals) :=
  if key_unset sys then (out ++ [KeyNotFound], (false, g))
  else (out ++ [KeyFound], (true, g)).

(** The check of the languages of Tesseract, and what follows it. *)
Definition check_languages (sys : system) (g : globals) (out : list line)
  : list line * (bool * globals) :=
  match get_languages sys with
  | Some langs =>
      if negb (has_russian langs) then
        (out ++ [RussianNotInstalled], (false, g))
      else check_key sys g (out ++ [LanguagesOk])
  | None => (out ++ [LanguagesFailed], (false, g))
  end.

(** The import of [pdf2image], and what follows it. *)
Definition check_pdf2image (sys : system) (g : globals) (out : list line)
  : list line * (bool * globals) :=
  if negb (convert_from_path g) then
    if pdf2image sys then
      check_languages sys
        (mkGlobals (HAVE_PYMUPDF g) true (tesseract_cmd g) (PATH_added g))
        (out ++ [Pdf2imageOk])
    else if HAVE_PYMUPDF g then
      check_languages sys g (out ++ [Pdf2imageReplaced])
    else (out ++ [Pdf2imageNotFound], (false, g))
  else check_languages sys g out.

(** The search for Poppler, and what follows it. *)
Definition check_poppler (sys : system) (g : globals) (out : list line)
  : list line * (bool * globals) :=
  if win32 sys then
    match first_existing sys poppler_paths with
    | Some path =>
        check_pdf2image sys
          (mkGlobals (HAVE_PYMUPDF g) (convert_from_path g) (tesseract_cmd g)
             (PATH_added g ++ [path]))
          (out ++ [PopplerAt path])
    | None => check_pdf2image sys g out
    end
  else check_pdf2image sys g out.

(** [check_dependencies]: the lines printed, the value returned, and
    the names of the module as it leaves them. *)
Definition check_dependencies (sys : system) (g : globals)
  : list line * (bool * globals) :=
  let out := [Checking] in
  match first_existing sys TESSERACT_PATHS with
  | Some path =>
      check_poppler sys
        (mkGlobals (HAVE_PYMUPDF g) (convert_from_path g) path (PATH_added g))
        (out ++ [TesseractAt path])
  | None =>
      if which_tesseract sys then
        check_poppler sys g (out ++ [TesseractInPath])
      else (out ++ [TesseractNotFound], (false, g))
  end.

End Dependencies.

(* ===================================================================== *)
(** * class PDFProcessor                                                  *)
(* ===================================================================== *)

Module PDFProcessor.
Import Py Globals.

(** How [extract_text] ends when it does not return. *)
Inductive failure :=
| FileNotFoundError                     (** the file is not there *)
| ValueError                            (** no text could be extracted *)
| TypeError                             (** [convert_from_path] is [None] *)
| LibraryError.                         (** raised by pdf2image, by the
                                            image processing or by Tesseract *)

Inductive result (A : Type) :=
| Returned (a : A)
| Raised (e : failure).

(** The pages a library hands out one by one: the sequence may break
    off with an exception at any point. *)
Inductive pages (A : Type) :=
| Done
| Broken
| Page (a : A) (more : pages A).

(** What the libraries find in a document. [embedded] is the result of
    [page.extract_text()] on each page of the [PdfReader], [Broken]
    where opening or reading raises. [mupdf] is what Tesseract reads on
    each page that PyMuPDF renders, [None] for a page whose rendering,
    preprocessing or recognition raises. [rendered] is the same for the
    images of [convert_from_path], [None] when that call raises. *)
Record document := mkDocument {
  present : bool;                       (** [pdf_path.exists()] *)
  embedded : pages str;
  mupdf : pages (option str);
  rendered : option (list (option str))
}.

(** The lines it prints. Page numbers count from 1. *)
Inductive line :=
| Processing
| ReadingEmbedded
| EmbeddedFound (page : nat)
| EmbeddedNotFound (page : nat)
| ReaderFailed
| UsingOcr
| MuPdfPage (page : nat)
| MuPdfFailed
| RenderedPage (page : nat)
| Extracted (characters : nat).

(** The loop over [reader.pages], inside its [try]: the lines printed
    and the text gathered, from page [i] on (counted from 0). *)
Fixpoint read_embedded (ps : pages str) (i : nat) (text : str)
  : list line * str :=
  match ps with
  | Done _ => ([], text)
  | Broken _ => ([ReaderFailed], text)
  | Page page_text more =>
      if negb (empty page_text) && negb (empty (strip page_text)) then
        let '(out, text') :=
          read_embedded more (S i) (text ++ page_text ++ [nl]) in
        (EmbeddedFound (i + 1) :: out, text')
      else
        let '(out, text') := read_embedded more (S i) text in
        (EmbeddedNotFound (i + 1) :: out, text')
  end.

(** The loop over the pages of PyMuPDF, inside its [try]. *)
Fixpoint ocr_mupdf (ps : pages (option str)) (i : nat) (text : str)
  : list line * str :=
  match ps with
  | Done _ => ([], text)
  | Broken _ => ([MuPdfFailed], text)
  | Page None _ => ([MuPdfPage (i + 1); MuPdfFailed], text)
  | Page (Some page_text) more =>
      let '(out, text') := ocr_mupdf more (S i) (text ++ page_text ++ [nl]) in
      (MuPdfPage (i + 1) :: out, text')
  end.

(** The loop over the images of pdf2image; nothing catches what it
    raises. *)
Fixpoint ocr_rendered (images : list (option str)) (i : nat) (text : str)
  : list line * result str :=
  match images with
  | [] => ([], Returned text)
  | None :: _ => ([RenderedPage (i + 1)], Raised _ LibraryError)
  | Some page_text :: more =>
      let '(out, r) := ocr_rendered more (S i) (text ++ page_text ++ [nl]) in
      (RenderedPage (i + 1) :: out, r)
  end.

(** The last statements: the text must not be blank. *)
Definition finish (out : list line) (text : str) : list line * result str :=
  if empty (strip text) then (out, Raised _ ValueError)
  else (out ++ [Extracted (List.length text)], Returned text).

(** [extract_text]: the lines printed and how the call ends. *)
Definition extract_text (g : globals) (doc : document)
  : list line * result str :=
  if negb (present doc) then ([], Raised _ FileNotFoundError)
  else
    let '(out, text) := read_embedded (embedded doc) 0 [] in
    let out := Processing :: ReadingEmbedded :: out in
    if empty (strip text) then
      let out := out ++ [UsingOcr] in
      if HAVE_PYMUPDF g then
        let '(out', text) := ocr_mupdf (mupdf doc) 0 text in
        finish (out ++ out') text
      else if convert_from_path g then
        match rendered doc with
        | Some images =>
            let '(out', r) := ocr_rendered images 0 text in
            match r with
            | Returned text => finish (out ++ out') text
            | Raised _ e => (out ++ out', Raised _ e)
            end
        | None => (out, Raised _ LibraryError)
        end
      else (out, Raised _ TypeError)
    else finish out text.

End PDFProcessor.

(* ===================================================================== *)
(** * Construction of the broker                                          *)
(* ===================================================================== *)

Module Construction.
Import Py Obj World.

(** [GigaChatAuth.__init__]: no token and no expiry, and the key of the
    environment, which must be set. [net] and [clock] are the network
    and the clock the object will meet. *)
Definition GigaChatAuth__init__ (key : option str) (net : nat -> response)
    (clock : nat -> Z) : outcome world :=
  match key with
  | Some (_ :: _) => Ok (mkWorld net 0 clock 0 [] VNone None)
  | _ => Raise ValueError
  end.

End Construction.

(* ===================================================================== *)
(** * The method [audit], whole                                           *)
(* ===================================================================== *)

Module Pipeline.
Import Py Obj World.

(** What is printed up to the loop: the lines of [extract_text], then
    the two lines of [audit] itself. *)
Inductive line :=
| Extraction (l : PDFProcessor.line)
| CleaningText
| AuditingWithGigaChat.

(** How a call of [audit] ends. No statement of [audit] handles what
    [extract_text] raises. *)
Inductive ending :=
| Returned (result : value)
| ExtractionFailed (e : PDFProcessor.failure)
| Raised (e : exn)                       (** in the loop or after it *)
| Unfinished.

(** [InvoiceAuditor.audit], from the call of [extract_text] on:
    the lines printed up to the loop, how the call ends, and the world
    it leaves. [InvoiceAuditor.audit] above is the rest of the method,
    once [extract_text] has returned. *)
Definition audit (g : Globals.globals) (doc : PDFProcessor.document)
    (w : world) : list line * (ending * world) :=
  match PDFProcessor.extract_text g doc with
  | (out, PDFProcessor.Raised _ e) =>
      (map Extraction out, (ExtractionFailed e, w))
  | (out, PDFProcessor.Returned text) =>
      let out := map Extraction out ++ [CleaningText; AuditingWithGigaChat] in
      match InvoiceAuditor.audit text w with
      | (Ok result, w') => (out, (Returned result, w'))
      | (Raise e, w') => (out, (Raised e, w'))
      | (Obj.Unfinished, w') => (out, (Unfinished, w'))
      end
  end.

End Pipeline.

(* ===================================================================== *)
(** * Scenarios                                                           *)
(* ===================================================================== *)

(** Worlds and inputs the statements below are evaluated at. *)
Module Scenario.
Import Py Obj World.

(** A fresh [GigaChatAuth]: no token, no expiry. [net] answers the
    requests, the clock stands at [t]. *)
Definition fresh (net : nat -> response) (t : Z) : world :=
  mkWorld net 0 (fun _ => t) 0 [] VNone None.

(** A credential exchange that succeeds, with token [tok] and, when
    given, the expiry [expires_at]. *)
Definition granted (tok : string) (expires_at : option Z) : response :=
  Reply 200 (Some (VDict
    ((u "access_token", VStr (u tok)) ::
     match expires_at with
     | Some t => [(u "expires_at", VInt t)]
     | None => []
     end))).

(** Every request times out. *)
Definition all_timeouts : nat -> response := fun _ => Broken Timeout.

(** The exchange succeeds, the first completion call is answered with
    401, the second exchange succeeds, and every later request times
    out. *)
Definition unauthorized_then_timeouts : nat -> response :=
  fun n =>
    match n with
    | 0 => granted "t" None
    | 1 => Reply 401 None
    | 2 => granted "t" None
    | _ => Broken Timeout
    end.

(** The exchange succeeds and every completion call times out. *)
Definition granted_then_timeouts : nat -> response :=
  fun n =>
    match n with
    | 0 => granted "t" None
    | _ => Broken Timeout
    end.

(** Noon, 1 January 2024 (UTC), in milliseconds. *)
Definition noon : Z := 1704110400000.

(** The exchange hands out a token that expired long ago. *)
Definition stale_grant : nat -> response :=
  fun _ => granted "t" (Some 0%Z).

(** A literal in which the single quotes stand for double quotes. *)
Definition dquoted (s : string) : str := replace (u s) (ch "'") dq.

(** A world to evaluate in: nothing stored, every request times out. *)
Definition idle : world := fresh (fun _ => Broken Timeout) 0.

(** A reply that is one integer literal of 4301 digits. *)
Definition long_integer : str := repeat (ch "1") 4301.

(** Number of events that satisfy [p]. *)
Definition count (p : event -> bool) (es : list event) : nat :=
  List.length (filter p es).

Definition is_timeout_line (e : event) : bool :=
  match e with Printed (TimeoutLine _) => true | _ => false end.

Definition is_api_request (e : event) : bool :=
  match e with Requested ApiUrl => true | _ => false end.

End Scenario.


(* ===================================================================== *)
(** * Vocabulary of the properties                                        *)
(* ===================================================================== *)

Import Py Obj World.

(** [emits P m]: whatever the world, [m] only appends events, and each
    event it appends satisfies [P]. *)
Definition emits {A} (P : event -> bool) (m : M A) : Prop :=
  forall w, exists es,
    events (snd (m w)) = events w ++ es /\ forallb P es = true.

(** Events other than the line of the timeout handler. *)
Definition not_timeout_line (e : event) : bool :=
  negb (Scenario.is_timeout_line e).

(** A number equal to 0: [0], [0.0], [-0.0], and [False]. *)
Definition is_zero_number (v : value) : bool :=
  match v with
  | VInt z => Z.eqb z 0
  | VBool b => negb b
  | VFloat f => Float.is_zero f
  | _ => false
  end.

(** A number the arithmetic of the validator can handle: a float, a
    boolean, or an [int] below 2^64 in absolute value. *)
Definition is_number (v : value) : bool :=
  match v with
  | VFloat _ | VBool _ => true
  | VInt z => (Z.abs z <? 2 ^ 64)%Z
  | _ => false
  end.

(** The lines of the validator. *)
Definition is_validator_line (e : event) : bool :=
  match e with
  | Printed (MissingField _) | Printed (VatMismatch _ _) => true
  | _ => false
  end.


(** What the scanner may answer on a text [s]: a value and a strictly
    shorter rest, [StopIteration], or one of two exceptions; never a
    lack of fuel. *)
Definition well_scanned (s : str) (x : Json.scan value) : Prop :=
  match x with
  | Json.Scanned _ r => List.length r < List.length s
  | Json.Stop => True
  | Json.Fail e => e = JSONDecodeError \/ e = ValueError
  | Json.NoFuel => False
  end.

(* ===================================================================== *)
(** * Vocabulary of the further properties                                *)
(* ===================================================================== *)

(** [at_most p n m]: whatever the world, [m] only appends events, and
    at most [n] of them satisfy [p]. *)
Definition at_most {A} (p : event -> bool) (n : nat) (m : M A) : Prop :=
  forall w, exists es,
    events (snd (m w)) = events w ++ es /\ Scenario.count p es <= n.

Definition is_auth_request (e : event) : bool :=
  match e with Requested AuthUrl => true | _ => false end.

(** [returns Q m]: whenever [m] returns a value, the value satisfies
    [Q]. *)
Definition returns {A} (Q : A -> Prop) (m : M A) : Prop :=
  forall w a w', m w = (Ok a, w') -> Q a.

(** A record worth returning: a mapping with a value that is not
    unset. *)
Definition has_value (v : value) : Prop :=
  exists d, v = VDict d /\ existsb (fun kv => negb (is_none (snd kv))) d = true.

(** What a turn of the loop may hand back as the result of [audit]. *)
Definition turn_result (text : str) (r : InvoiceAuditor.flow) : Prop :=
  match r with
  | InvoiceAuditor.Return v =>
      has_value v \/ exists raw, v = InvoiceAuditor.diagnostic raw text
  | InvoiceAuditor.Next => True
  end.

(** The outcomes of the arithmetic of the validator: a value, or one of
    two exceptions. *)
(** A text or a list: what [*] repeats. *)
Definition is_sequence (v : value) : bool :=
  match v with VStr _ | VList _ => true | _ => false end.

Definition arith_outcome {A} (o : outcome A) : Prop :=
  match o with
  | Ok _ => True
  | Raise e => e = TypeError \/ e = OverflowError
  | Unfinished => False
  end.

(** The condition under which the validator reports a field. *)
Definition is_missing (data : list (str * value)) (field : str) : bool :=
  negb (dict_has data field) || is_none (dict_get_default data field VNone).

Definition missing_line (field : str) : event := Printed (MissingField field).

(** Further worlds to evaluate in. *)
Module Case.

(** A reply of the completion service whose message has the content
    [content]. *)
Definition answered (content : str) : response :=
  Reply 200 (Some (VDict
    [ (u "choices",
       VList [ VDict [ (u "message",
                        VDict [ (u "content", VStr content) ]) ] ]) ])).

(** The exchange succeeds and every completion call is answered with
    the same content. *)
Definition granted_then_answered (content : str) : nat -> response :=
  fun n =>
    match n with
    | 0 => Scenario.granted "t" None
    | _ => answered content
    end.

End Case.

(** What tier 3 may store under a key: nothing, a float under one of
    the three numeric keys, a non-empty string under the others. *)
Definition tier3_value (kv : str * value) : bool :=
  match snd kv with
  | VNone => true
  | VFloat _ => InvoiceAuditor.is_numeric_key (fst kv)
  | VStr (_ :: _) => negb (InvoiceAuditor.is_numeric_key (fst kv))
  | _ => false
  end.


Module Grant.
Import Py Obj World.

(** An exchange answered with a token and an expiry that is text. *)
Definition with_text_expiry : nat -> response :=
  fun _ => Reply 200 (Some (VDict [ (u "access_token", VStr (u "new"));
                                    (u "expires_at", VStr (u "soon")) ])).

(** A broker that holds the token [old], to expire at [expires_at],
    when the clock stands at [t]. *)
Definition holding (net : nat -> response) (t : Z) (old : string)
    (expires_at : Z) : world :=
  mkWorld net 0 (fun _ => t) 0 [] (VStr (u old)) (Some expires_at).

End Grant.

(** The computation [m] comes to an end in every world. *)
Definition finishes {A} (m : M A) : Prop :=
  forall w, fst (m w) <> Unfinished.

(** What may be said of an exception [e] that escapes from the loop of
    [audit] after the events [es]: it is no timeout, and it is the error
    of the end of the loop unless the last handler has just reported
    it. *)
Definition escapes (e : exn) (es : list event) : Prop :=
  is_Timeout e = false
  /\ (e = NoAnswerAfter3Attempts
      \/ exists es', es = es' ++ [Printed ErrorLine]).

(** [m] only adds events, comes to an end, and raises only as [escapes]
    allows. *)
Definition ends {A} (m : M A) : Prop :=
  forall w, exists es,
    events (snd (m w)) = events w ++ es
    /\ match fst (m w) with
       | Ok _ => True
       | Raise e => escapes e es
       | Unfinished => False
       end.

(** Length of the run of characters that satisfy [p] at the start of a
    text. *)
Fixpoint lead (p : char -> bool) (s : str) : nat :=
  match s with
  | x :: s' => if p x then S (lead p s') else 0
  | [] => 0
  end.

(** Every character of the text that satisfies [p] is [c], and the one
    after it does not satisfy [p]. *)
Fixpoint single (p : char -> bool) (c : char) (s : str) : Prop :=
  match s with
  | [] => True
  | x :: s' => (p x = true -> x = c /\ lead p s' = 0) /\ single p c s'
  end.

Definition is_space (x : char) : bool := chr_eqb x (ch " ").

(** A text of white space only. *)
Definition blank (s : str) : bool := forallb isspace s.

(** The items a sequence of pages hands out before it ends or breaks
    off. *)
Fixpoint before_break {A} (ps : PDFProcessor.pages A) : list A :=
  match ps with
  | PDFProcessor.Page a more => a :: before_break more
  | _ => []
  end.

(** The texts of the pages, a line feed after each. *)
Definition joined (texts : list str) : str :=
  flat_map (fun t => t ++ [nl]) texts.

(** The pages read without failure, up to the first that fails. *)
Fixpoint recognised (ps : list (option str)) : list str :=
  match ps with
  | Some t :: ps' => t :: recognised ps'
  | _ => []
  end.

Definition has_text (t : str) : bool := negb (blank t).

(** A text that is empty or ends with a line feed. *)
Definition closed (s : str) : Prop := s = [] \/ exists t, s = t ++ [nl].

(** The condition under which [check_dependencies] returns [True]:
    Tesseract is at one of the configured paths or on the search path;
    [convert_from_path] is set already, or pdf2image can be imported, or
    PyMuPDF is loaded; Tesseract lists its languages and Russian is one
    of them; and the key is set. *)
Definition ready (sys : Dependencies.system) (g : Globals.globals) : bool :=
  (existsb (Dependencies.path_exists sys) Dependencies.TESSERACT_PATHS
   || Dependencies.which_tesseract sys)
  && (Globals.convert_from_path g || Dependencies.pdf2image sys
      || Globals.HAVE_PYMUPDF g)
  && match Dependencies.get_languages sys with
     | Some langs => existsb (str_eqb (u "rus")) langs
     | None => false
     end
  && match Dependencies.GIGACHAT_AUTH_KEY sys with
     | Some (_ :: _) => true
     | _ => false
     end.

Module Machine.
Import Py Dependencies.

(** A Linux machine with Tesseract in [/usr/bin], Russian installed,
    pdf2image importable and the key set. *)
Definition linux : system :=
  mkSystem (fun path => str_eqb path (u "/usr/bin/tesseract")) false false
    true (Some [u "eng"; u "rus"]) (Some (u "key")).

End Machine.

Module Paper.
Import Py PDFProcessor.

(** A scan: no embedded text on its one page; each renderer reads
    [seen] on it. *)
Definition scan (seen : str) : document :=
  mkDocument true (Page [] (Done _)) (Page (Some seen) (Done _))
    (Some [Some seen]).

(** A document of two pages with embedded text on the second only, and
    whose renderers fail. *)
Definition born_digital (second : str) : document :=
  mkDocument true (Page (u "  ") (Page second (Done _))) (Broken _) None.

End Paper.

(** The words a pattern can take: what a match of the pattern spans,
    whatever stands around it. *)
Fixpoint shape (r : Re.regex) (w : str) : Prop :=
  match r with
  | Re.Eps => w = []
  | Re.Lit c => w = [c]
  | Re.Cls items => exists x, w = [x] /\ Re.in_class items x = true
  | Re.NCls items => exists x, w = [x] /\ Re.in_class items x = false
  | Re.Seq r1 r2 => exists w1 w2, w = w1 ++ w2 /\ shape r1 w1 /\ shape r2 w2
  | Re.Alt r1 r2 => shape r1 w \/ shape r2 w
  | Re.Star r1 => exists ws, w = List.concat ws /\ Forall (shape r1) ws
  | Re.Opt r1 => w = [] \/ shape r1 w
  | Re.Group _ r1 => shape r1 w
  | Re.NotBehind _ => w = []
  | Re.NotAhead _ => w = []
  end.

(** The text is not empty and its last character satisfies [q]. *)
Definition last_is (q : char -> bool) (w : str) : Prop :=
  exists w0 x, w = w0 ++ [x] /\ q x = true.

(** The seconds slept during the events [es]. *)
Fixpoint slept (es : list event) : Z :=
  match es with
  | [] => 0
  | Slept seconds :: es' => seconds + slept es'
  | _ :: es' => slept es'
  end.

Definition no_sleep (e : event) : bool :=
  match e with Slept _ => false | _ => true end.

(** [m] sleeps [n] seconds at most. *)
Definition pauses {A} (n : Z) (m : M A) : Prop :=
  forall w, exists es,
    events (snd (m w)) = events w ++ es /\ (0 <= slept es <= n)%Z.

(** [m] sleeps [n] seconds at most, and does not raise once it has
    slept. *)
Definition calm {A} (n : Z) (m : M A) : Prop :=
  forall w, exists es,
    events (snd (m w)) = events w ++ es
    /\ (0 <= slept es <= n)%Z
    /\ (forall e, fst (m w) = Raise e -> slept es = 0%Z).

(* ===================================================================== *)
(** * Properties                                                          *)
(* ===================================================================== *)

(** Literals stay as they are written when goals are simplified. *)
Arguments u : simpl never.
Arguments ch : simpl never.
Arguments GigaChatAuth.minutes : simpl never.

(** ** The model at work

    The examples of the specification, evaluated. *)

Example tier1_parses_a_record :
  fst (InvoiceAuditor.parse_json_robust
         (Scenario.dquoted
            "  {'invoice_number': '123', 'date': '2024-01-01', 'amount': 100, 'vat': 20, 'vat_rate': 20, 'supplier': 'A', 'buyer': 'B'}")
         Scenario.idle)
  = Ok (VDict [ (u "invoice_number", VStr (u "123"));
                (u "date", VStr (u "2024-01-01"));
                (u "amount", VInt 100); (u "vat", VInt 20);
                (u "vat_rate", VInt 20);
                (u "supplier", VStr (u "A")); (u "buyer", VStr (u "B")) ]).
Proof. vm_compute. reflexivity. Qed.

Example tier2_drops_a_trailing_comma :
  let text := Scenario.dquoted "```json {'invoice_number': 'X', 'amount': 5,} ```" in
  Json.loads (InvoiceAuditor.extract_json_from_text text) = Raise JSONDecodeError
  /\ fst (InvoiceAuditor.parse_json_robust text Scenario.idle)
     = Ok (VDict [ (u "invoice_number", VStr (u "X")); (u "amount", VInt 5) ]).
Proof. split; vm_compute; reflexivity. Qed.

Example tier0_joins_a_broken_value :
  fst (InvoiceAuditor.parse_json_robust
         (Scenario.dquoted "{'supplier': 'ООО" ++ [nl] ++ Scenario.dquoted "Рога'}")
         Scenario.idle)
  = Ok (VDict [ (u "supplier", VStr (u "ООО Рога")) ]).
Proof. vm_compute. reflexivity. Qed.

Example tier3_salvages_the_amount :
  fst (InvoiceAuditor.parse_json_robust
         (Scenario.dquoted "the total is 'amount': 500 roubles") Scenario.idle)
  = Ok (VDict [ (u "invoice_number", VNone); (u "date", VNone);
                (u "supplier", VNone); (u "buyer", VNone);
                (u "amount", VFloat (Float.of_Z 500)); (u "vat", VNone);
                (u "vat_rate", VNone); (u "contract_number", VNone);
                (u "payment_date", VNone); (u "meter_number", VNone) ]).
Proof. vm_compute. reflexivity. Qed.

Example validator_accepts_consistent_vat :
  let data := [ (u "invoice_number", VStr (u "1")); (u "date", VStr (u "d"));
                (u "supplier", VStr (u "A")); (u "buyer", VStr (u "B"));
                (u "amount", VInt 100); (u "vat", VInt 20);
                (u "vat_rate", VInt 20) ] in
  InvoiceAuditor.validate_result data Scenario.idle
  = (Ok (VDict data), Scenario.idle).
Proof. vm_compute. reflexivity. Qed.

Example validator_reports_a_mismatch :
  let data := [ (u "invoice_number", VStr (u "1")); (u "date", VStr (u "d"));
                (u "supplier", VStr (u "A")); (u "buyer", VStr (u "B"));
                (u "amount", VInt 100); (u "vat", VInt 25);
                (u "vat_rate", VInt 20) ] in
  InvoiceAuditor.validate_result data Scenario.idle
  = (Ok (VDict data),
     after Scenario.idle
       [Printed (VatMismatch (VInt 25) (VFloat (Float.of_Z 20)))]).
Proof. vm_compute. reflexivity. Qed.

Example normalizer_repairs_a_line :
  TextCleaner.clean_pdf_text (u "  Счёт   № 5 ,  к оплате :  12 р уб .  ")
  = u "Счёт № 5, коплате: 12 руб.".
Proof. vm_compute. reflexivity. Qed.

Example loads_reads_json :
  Json.loads (Scenario.dquoted " {'a': [1, -2, 'x\n', null, true], 'b': {}, 'a': 0.5} ")
  = Ok (VDict [ (u "a", VFloat (Float.of_decimal false 5 (-1)));
                (u "b", VDict []) ])
  /\ Json.loads (u "[1,]") = Raise JSONDecodeError
  /\ Json.loads (u "01") = Raise JSONDecodeError
  /\ Json.loads (u "1e2") = Ok (VFloat (Float.of_Z 100)).
Proof. repeat split; vm_compute; reflexivity. Qed.

(** ** The text normalizer *)

(** C3. The normalizer is not idempotent: the first rule joins two
    Cyrillic letters across white space, and its matches do not overlap,
    so of three letters set apart by spaces the first pass joins the
    first two only and a second pass joins the third. *)
Theorem clean_pdf_text_second_pass_differs :
  TextCleaner.clean_pdf_text (u "а б в") = u "аб в"
  /\ TextCleaner.clean_pdf_text (TextCleaner.clean_pdf_text (u "а б в")) = u "абв"
  /\ TextCleaner.clean_pdf_text (TextCleaner.clean_pdf_text (u "а б в"))
     <> TextCleaner.clean_pdf_text (u "а б в").
Proof.
  repeat split; try (vm_compute; reflexivity).
  vm_compute. discriminate.
Qed.

(** ** Tier 0 of the recovery *)

(** C7, as stated, fails: a text without braces is returned with its
    line feeds, while the repairs made between braces would turn them
    into one space. *)
Lemma extract_json_without_braces_keeps_newlines :
  InvoiceAuditor.extract_json_from_text (u "a" ++ [nl; nl] ++ u "b")
    = u "a" ++ [nl; nl] ++ u "b"
  /\ InvoiceAuditor.collapse (u "a" ++ [nl; nl] ++ u "b") = u "a b"
  /\ InvoiceAuditor.extract_json_from_text (u "a" ++ [nl; nl] ++ u "b")
     <> InvoiceAuditor.collapse
          (InvoiceAuditor.unfenced (u "a" ++ [nl; nl] ++ u "b")).
Proof.
  repeat split; try (vm_compute; reflexivity).
  vm_compute. discriminate.
Qed.

(** C7, amended: when the text, once its fences and outer white space
    are removed, has no opening brace followed by a closing brace, that
    text is the candidate as it is, with no repair made inside it. *)
Theorem extract_json_without_braces (text : str) :
  let t := InvoiceAuditor.unfenced text in
  (find t (ch "{") < 0 \/ rfind t (ch "}") <= find t (ch "{"))%Z ->
  InvoiceAuditor.extract_json_from_text text = t.
Proof.
  intros t H. unfold InvoiceAuditor.extract_json_from_text. fold t.
  destruct (0 <=? find t (ch "{"))%Z eqn:E1; simpl; [|reflexivity].
  destruct (find t (ch "{") <? rfind t (ch "}"))%Z eqn:E2; [|reflexivity].
  apply Z.leb_le in E1. apply Z.ltb_lt in E2. lia.
Qed.

Lemma extract_json_without_braces_witness :
  InvoiceAuditor.extract_json_from_text (u "``` a" ++ [nl] ++ u "b } { ")
    = u "a" ++ [nl] ++ u "b } {".
Proof.
  apply (extract_json_without_braces (u "``` a" ++ [nl] ++ u "b } { ")).
  right. vm_compute. discriminate.
Defined.

(** ** The world monad *)

Lemma after_after (w : world) (es es' : list event) :
  after (after w es) es' = after w (es ++ es').
Proof.
  unfold after; simpl. now rewrite <- app_assoc.
Qed.

Lemma mbind_ok {A B} (m : M A) (f : A -> M B) (w w' : world) (a : A) :
  m w = (Ok a, w') -> mbind m f w = f a w'.
Proof.
  intros H. unfold mbind. now rewrite H.
Qed.

Lemma mbind_raise {A B} (m : M A) (f : A -> M B) (w w' : world) (e : exn) :
  m w = (Raise e, w') -> mbind m f w = (Raise e, w').
Proof.
  intros H. unfold mbind. now rewrite H.
Qed.

Lemma try_except_raise {A} (m : M A) (h : exn -> M A) (w w' : world) (e : exn) :
  m w = (Raise e, w') -> try_except m h w = h e w'.
Proof.
  intros H. unfold try_except. now rewrite H.
Qed.

(** ** The retry loop of [audit] *)

(** The handler of a timeout: one line, two seconds of sleep, and on to
    the next turn, whatever the attempt. *)
Lemma attempt_body_timeout (text : str) (attempt : nat) (w w1 : world) :
  InvoiceAuditor.attempt_try text attempt w = (Raise Timeout, w1) ->
  InvoiceAuditor.attempt_body text attempt w
    = (Ok InvoiceAuditor.Next,
       after w1 [Printed (TimeoutLine (attempt + 1)); Slept 2]).
Proof.
  intros H. unfold InvoiceAuditor.attempt_body.
  rewrite (try_except_raise _ _ _ H).
  unfold InvoiceAuditor.attempt_except; simpl.
  unfold mbind, print, sleep, emit, ret; simpl.
  now rewrite after_after.
Qed.

(** C5, as stated, fails: after a timeout on the first attempt the
    program sleeps two seconds, not one. *)
Lemma first_timeout_sleeps_two_seconds :
  let w := Scenario.fresh Scenario.granted_then_timeouts Scenario.noon in
  fst (InvoiceAuditor.attempt_try (u "x") 0 w) = Raise Timeout
  /\ events (snd (InvoiceAuditor.attempt_body (u "x") 0 w))
     = [ Printed RefreshingToken; Requested AuthUrl;
         Printed (TokenValidUntil (Scenario.noon + 1800000));
         Requested ApiUrl; Printed (TimeoutLine 1); Slept 2 ]
  /\ ~ In (Slept 1) (events (snd (InvoiceAuditor.attempt_body (u "x") 0 w))).
Proof.
  repeat split; try (vm_compute; reflexivity).
  vm_compute. intros H.
  repeat (destruct H as [H | H]; [discriminate H |]). exact H.
Qed.

(** C5, amended: a request timeout is followed by a wait of two
    seconds, on the first attempt as on the second and the third; the
    loop then goes on to its next turn. *)
Theorem timeout_sleeps_two_seconds (text : str) (attempt : nat) (w w1 : world) :
  InvoiceAuditor.attempt_try text attempt w = (Raise Timeout, w1) ->
  exists w2,
    InvoiceAuditor.attempt_body text attempt w = (Ok InvoiceAuditor.Next, w2)
    /\ events w2 = events w1 ++ [Printed (TimeoutLine (attempt + 1)); Slept 2].
Proof.
  intros H. eexists. split.
  - apply (attempt_body_timeout _ _ _ H).
  - reflexivity.
Qed.

Lemma timeout_sleeps_two_seconds_witness :
  exists w2,
    InvoiceAuditor.attempt_body (u "x") 1
      (Scenario.fresh Scenario.all_timeouts Scenario.noon)
    = (Ok InvoiceAuditor.Next, w2)
    /\ events w2
       = [Printed RefreshingToken; Requested AuthUrl]
         ++ [Printed (TimeoutLine (1 + 1)); Slept 2].
Proof.
  apply (timeout_sleeps_two_seconds (u "x") 1
           (Scenario.fresh Scenario.all_timeouts Scenario.noon)
           (w1 := snd (InvoiceAuditor.attempt_try (u "x") 1
                         (Scenario.fresh Scenario.all_timeouts Scenario.noon)))).
  vm_compute. reflexivity.
Defined.

(** *** What a computation may add to the events *)

Lemma emits_ret {A} P (a : A) : emits P (ret a).
Proof. intros w. exists []. simpl. now rewrite app_nil_r. Qed.

Lemma emits_raise {A} P (e : exn) : emits P (@raise A e).
Proof. intros w. exists []. simpl. now rewrite app_nil_r. Qed.

Lemma emits_lift {A} P (o : outcome A) : emits P (lift o).
Proof. intros w. exists []. simpl. now rewrite app_nil_r. Qed.

Lemma emits_emit P (e : event) : P e = true -> emits P (emit e).
Proof. intros H w. exists [e]. simpl. now rewrite H. Qed.

Lemma emits_now P : emits P now.
Proof. intros w. exists []. simpl. now rewrite app_nil_r. Qed.

Lemma emits_post P to : P (Requested to) = true -> emits P (post to).
Proof.
  intros H w. exists [Requested to]. unfold post.
  destruct (net w (sent w)); simpl; now rewrite H.
Qed.

Lemma emits_get_token P : emits P get_token.
Proof. intros w. exists []. simpl. now rewrite app_nil_r. Qed.

Lemma emits_get_expires_at P : emits P get_expires_at.
Proof. intros w. exists []. simpl. now rewrite app_nil_r. Qed.

Lemma emits_set_token P v : emits P (set_token v).
Proof. intros w. exists []. simpl. now rewrite app_nil_r. Qed.

Lemma emits_set_expires_at P t : emits P (set_expires_at t).
Proof. intros w. exists []. simpl. now rewrite app_nil_r. Qed.

Lemma emits_bind {A B} P (m : M A) (f : A -> M B) :
  emits P m -> (forall a, emits P (f a)) -> emits P (mbind m f).
Proof.
  intros Hm Hf w. unfold mbind.
  destruct (Hm w) as [es1 [E1 F1]].
  destruct (m w) as [[a | e |] w1] eqn:Em; simpl in E1.
  - destruct (Hf a w1) as [es2 [E2 F2]].
    exists (es1 ++ es2). rewrite E2, E1, <- app_assoc. split; [reflexivity|].
    rewrite forallb_app. now rewrite F1, F2.
  - exists es1. now split.
  - exists es1. now split.
Qed.

Lemma emits_try_except {A} P (m : M A) (h : exn -> M A) :
  emits P m -> (forall e, emits P (h e)) -> emits P (try_except m h).
Proof.
  intros Hm Hh w. unfold try_except.
  destruct (Hm w) as [es1 [E1 F1]].
  destruct (m w) as [[a | e |] w1] eqn:Em; simpl in E1.
  - exists es1. now split.
  - destruct (Hh e w1) as [es2 [E2 F2]].
    exists (es1 ++ es2). rewrite E2, E1, <- app_assoc. split; [reflexivity|].
    rewrite forallb_app. now rewrite F1, F2.
  - exists es1. now split.
Qed.

(** Goals [emits P m] are solved by following the structure of [m]. *)
Ltac emits_step :=
  match goal with
  | |- emits _ (mbind _ _) => apply emits_bind; [| intros ?]
  | |- emits _ (try_except _ _) => apply emits_try_except; [| intros ?]
  | |- emits _ (ret _) => apply emits_ret
  | |- emits _ (raise _) => apply emits_raise
  | |- emits _ (lift _) => apply emits_lift
  | |- emits _ (print _) => apply emits_emit; reflexivity
  | |- emits _ (sleep _) => apply emits_emit; reflexivity
  | |- emits _ (emit _) => apply emits_emit; reflexivity
  | |- emits _ now => apply emits_now
  | |- emits _ (post _) => apply emits_post; reflexivity
  | |- emits _ get_token => apply emits_get_token
  | |- emits _ get_expires_at => apply emits_get_expires_at
  | |- emits _ (set_token _) => apply emits_set_token
  | |- emits _ (set_expires_at _) => apply emits_set_expires_at
  | |- emits _ (if ?c then _ else _) => destruct c
  | |- emits _ (match ?x with _ => _ end) => destruct x
  | |- emits _ (let '(_, _) := ?x in _) => destruct x
  end.

Ltac emits_auto := repeat emits_step.

Lemma fetch_token_emits : emits not_timeout_line GigaChatAuth._fetch_token.
Proof. unfold GigaChatAuth._fetch_token. emits_auto. Qed.

Lemma token_emits : emits not_timeout_line GigaChatAuth.token.
Proof.
  unfold GigaChatAuth.token. emits_auto; apply fetch_token_emits.
Qed.

Lemma report_missing_emits data fields :
  emits not_timeout_line (InvoiceAuditor.report_missing data fields).
Proof.
  induction fields as [| f fs IH]; simpl.
  - apply emits_ret.
  - emits_auto. exact IH.
Qed.

Lemma validate_result_emits data :
  emits not_timeout_line (InvoiceAuditor.validate_result data).
Proof.
  unfold InvoiceAuditor.validate_result.
  apply emits_bind; [apply report_missing_emits | intros ?].
  emits_auto.
Qed.

Lemma parse_json_robust_emits text :
  emits not_timeout_line (InvoiceAuditor.parse_json_robust text).
Proof.
  unfold InvoiceAuditor.parse_json_robust, InvoiceAuditor.try_json.
  emits_auto.
Qed.

Lemma parse_reply_emits v :
  emits not_timeout_line (InvoiceAuditor.parse_reply v).
Proof.
  unfold InvoiceAuditor.parse_reply.
  apply emits_bind.
  - destruct v; try apply emits_raise. apply parse_json_robust_emits.
  - intros r. emits_auto; apply validate_result_emits.
Qed.

Lemma attempt_try_emits text attempt :
  emits not_timeout_line (InvoiceAuditor.attempt_try text attempt).
Proof.
  unfold InvoiceAuditor.attempt_try, InvoiceAuditor.raise_for_status.
  apply emits_bind; [apply token_emits | intros ?].
  apply emits_bind; [apply emits_post; reflexivity | intros [status body]].
  destruct (status =? 401)%Z.
  - emits_auto.
  - apply emits_bind; [emits_auto | intros ?].
    apply emits_bind; [emits_auto | intros ?].
    apply emits_bind; [emits_auto | intros ?].
    apply emits_bind; [emits_auto | intros ?].
    apply emits_try_except; [apply parse_reply_emits | intros ?].
    emits_auto.
Qed.

Lemma count_app p (es es' : list event) :
  Scenario.count p (es ++ es') = Scenario.count p es + Scenario.count p es'.
Proof.
  unfold Scenario.count. now rewrite filter_app, length_app.
Qed.

Lemma count_none (es : list event) :
  forallb not_timeout_line es = true ->
  Scenario.count Scenario.is_timeout_line es = 0.
Proof.
  unfold Scenario.count, not_timeout_line.
  induction es as [| e es IH]; simpl; [reflexivity|].
  intros H. apply andb_true_iff in H. destruct H as [He Hes].
  destruct (Scenario.is_timeout_line e); [discriminate He|]. auto.
Qed.

(** A turn whose [try] block times out prints exactly one timeout line. *)
Lemma attempt_body_timeout_count (text : str) (attempt : nat) (w : world) :
  fst (InvoiceAuditor.attempt_try text attempt w) = Raise Timeout ->
  InvoiceAuditor.attempt_body text attempt w
    = (Ok InvoiceAuditor.Next, snd (InvoiceAuditor.attempt_body text attempt w))
  /\ Scenario.count Scenario.is_timeout_line
       (events (snd (InvoiceAuditor.attempt_body text attempt w)))
     = Scenario.count Scenario.is_timeout_line (events w) + 1.
Proof.
  intros H.
  destruct (attempt_try_emits text attempt w) as [es [E F]].
  destruct (InvoiceAuditor.attempt_try text attempt w) as [r w1] eqn:Et.
  simpl in H, E. subst r.
  rewrite (attempt_body_timeout _ _ _ Et). split; [reflexivity|].
  cbn [snd events after]. rewrite E, !count_app, (count_none _ F).
  replace (attempt + 1) with (S attempt) by lia.
  cbn. lia.
Qed.

(** C6. If each of the three attempts ends in a request timeout, the
    loop makes exactly three attempts (it prints three timeout lines,
    numbered 1, 2, 3 by the handler) and [audit] then fails with the
    exception raised after the loop; no record is returned. *)
Theorem audit_three_timeouts (extracted : str) (w : world) :
  let text := TextCleaner.clean_pdf_text extracted in
  let w1 := snd (InvoiceAuditor.attempt_body text 0 w) in
  let w2 := snd (InvoiceAuditor.attempt_body text 1 w1) in
  let w3 := snd (InvoiceAuditor.attempt_body text 2 w2) in
  fst (InvoiceAuditor.attempt_try text 0 w) = Raise Timeout ->
  fst (InvoiceAuditor.attempt_try text 1 w1) = Raise Timeout ->
  fst (InvoiceAuditor.attempt_try text 2 w2) = Raise Timeout ->
  InvoiceAuditor.audit extracted w = (Raise NoAnswerAfter3Attempts, w3)
  /\ Scenario.count Scenario.is_timeout_line (events w3)
     = Scenario.count Scenario.is_timeout_line (events w) + 3.
Proof.
  intros text w1 w2 w3 H0 H1 H2.
  destruct (attempt_body_timeout_count text 0 w H0) as [B0 C0].
  destruct (attempt_body_timeout_count text 1 w1 H1) as [B1 C1].
  destruct (attempt_body_timeout_count text 2 w2 H2) as [B2 C2].
  fold w1 in B0, C0. fold w2 in B1, C1. fold w3 in B2, C2.
  split.
  - unfold InvoiceAuditor.audit. fold text. simpl.
    rewrite (mbind_ok _ _ _ B0). rewrite (mbind_ok _ _ _ B1).
    rewrite (mbind_ok _ _ _ B2). reflexivity.
  - lia.
Qed.

Lemma audit_three_timeouts_witness :
  let w := Scenario.fresh Scenario.granted_then_timeouts Scenario.noon in
  let text := TextCleaner.clean_pdf_text (u "счет") in
  let w1 := snd (InvoiceAuditor.attempt_body text 0 w) in
  let w2 := snd (InvoiceAuditor.attempt_body text 1 w1) in
  let w3 := snd (InvoiceAuditor.attempt_body text 2 w2) in
  InvoiceAuditor.audit (u "счет") w = (Raise NoAnswerAfter3Attempts, w3)
  /\ Scenario.count Scenario.is_timeout_line (events w3)
     = Scenario.count Scenario.is_timeout_line (events w) + 3.
Proof.
  refine (audit_three_timeouts (u "счет")
            (Scenario.fresh Scenario.granted_then_timeouts Scenario.noon)
            _ _ _);
    vm_compute; reflexivity.
Defined.

(** C4, as stated, fails: when the first completion call is answered
    with 401 and every completion call after it times out, only two
    timeouts take place before [audit] gives up, the 401 having used the
    first of the three attempts. *)
Lemma unauthorized_then_two_timeouts :
  let w := Scenario.fresh Scenario.unauthorized_then_timeouts Scenario.noon in
  let w' := snd (InvoiceAuditor.audit (u "x") w) in
  fst (InvoiceAuditor.attempt_body (u "x") 0 w) = Ok InvoiceAuditor.Next
  /\ events (snd (InvoiceAuditor.attempt_body (u "x") 0 w))
     = [ Printed RefreshingToken; Requested AuthUrl;
         Printed (TokenValidUntil (Scenario.noon + 1800000));
         Requested ApiUrl; Printed TokenExpired ]
  /\ fst (InvoiceAuditor.audit (u "x") w) = Raise NoAnswerAfter3Attempts
  /\ Scenario.count Scenario.is_timeout_line (events w') = 2
  /\ Scenario.count Scenario.is_api_request (events w') = 3
  /\ Scenario.count Scenario.is_timeout_line (events w') <> 3.
Proof.
  repeat split; try (vm_compute; reflexivity).
  vm_compute. discriminate.
Qed.

(** C4, amended: when the completion call is answered with 401, the
    stored token is dropped and the loop goes on to its next turn at
    once, without sleeping; the turn is one of the three of the loop,
    which goes on with the attempts that are left. *)
Theorem unauthorized_uses_attempt (text : str) (attempt : nat)
    (attempts : list nat) (w w1 : world) (tok : value) (body : option value) :
  GigaChatAuth.token w = (Ok tok, w1) ->
  net w1 (sent w1) = Reply 401 body ->
  let w2 := mkWorld (net w1) (S (sent w1)) (clock w1) (reads w1)
              (events w1 ++ [Requested ApiUrl; Printed TokenExpired])
              VNone (token_expires_at w1) in
  InvoiceAuditor.attempt_body text attempt w = (Ok InvoiceAuditor.Next, w2)
  /\ InvoiceAuditor.attempts_loop text (attempt :: attempts) w
     = InvoiceAuditor.attempts_loop text attempts w2.
Proof.
  intros Ht Hn w2.
  assert (B : InvoiceAuditor.attempt_body text attempt w
              = (Ok InvoiceAuditor.Next, w2)).
  { unfold InvoiceAuditor.attempt_body, try_except, InvoiceAuditor.attempt_try.
    rewrite (mbind_ok _ _ _ Ht).
    unfold mbind at 1. unfold post. rewrite Hn. simpl.
    unfold mbind, print, emit, set_token, ret, after; simpl.
    unfold w2. now rewrite <- app_assoc. }
  split; [exact B|].
  simpl. now rewrite (mbind_ok _ _ _ B).
Qed.

Lemma unauthorized_uses_attempt_witness :
  let w := Scenario.fresh Scenario.unauthorized_then_timeouts Scenario.noon in
  let w1 := snd (GigaChatAuth.token w) in
  let w2 := mkWorld (net w1) (S (sent w1)) (clock w1) (reads w1)
              (events w1 ++ [Requested ApiUrl; Printed TokenExpired])
              VNone (token_expires_at w1) in
  InvoiceAuditor.attempt_body (u "x") 0 w = (Ok InvoiceAuditor.Next, w2)
  /\ InvoiceAuditor.attempts_loop (u "x") [0; 1; 2] w
     = InvoiceAuditor.attempts_loop (u "x") [1; 2] w2.
Proof.
  refine (@unauthorized_uses_attempt (u "x") 0 [1; 2]
            (Scenario.fresh Scenario.unauthorized_then_timeouts Scenario.noon)
            (snd (GigaChatAuth.token
                    (Scenario.fresh Scenario.unauthorized_then_timeouts
                       Scenario.noon)))
            (VStr (u "t")) None _ _);
    vm_compute; reflexivity.
Defined.

(** ** The consistency validator *)

Lemma after_nil (w : world) : after w [] = w.
Proof.
  destruct w; unfold after; simpl. now rewrite app_nil_r.
Qed.

(** The presence checks raise nothing and print, for some of the fields
    that are absent or unset, a line each, and nothing else. *)
Lemma report_missing_spec (data : list (str * value)) (fields : list str)
    (w : world) :
  exists es,
    InvoiceAuditor.report_missing data fields w = (Ok tt, after w es)
    /\ forall e, In e es ->
         exists f, e = Printed (MissingField f)
                   /\ (dict_has data f = false
                       \/ is_none (dict_get_default data f VNone) = true).
Proof.
  revert w. induction fields as [| f fs IH]; intros w; simpl.
  - exists []. rewrite after_nil. split; [reflexivity | intros e []].
  - destruct (negb (dict_has data f)
              || is_none (dict_get_default data f VNone)) eqn:E.
    + destruct (IH (after w [Printed (MissingField f)])) as [es [R H]].
      exists (Printed (MissingField f) :: es). split.
      * unfold mbind, print, emit. rewrite R, after_after. reflexivity.
      * intros e [<- | He]; [| now apply H].
        exists f. split; [reflexivity|].
        apply orb_true_iff in E. destruct E as [E | E]; [left | now right].
        now apply negb_true_iff in E.
    + destruct (IH w) as [es [R H]].
      exists es. split; [| exact H].
      unfold mbind, ret. exact R.
Qed.

Lemma zero_number_falsy (v : value) : is_zero_number v = true -> truthy v = false.
Proof.
  destruct v as [| b | z | f | | |]; simpl; try discriminate; intros H.
  - now destruct b.
  - now rewrite H.
  - now rewrite H.
Qed.

Lemma zero_number_not_none (v : value) : is_zero_number v = true -> is_none v = false.
Proof.
  destruct v; simpl; try discriminate; reflexivity.
Qed.

(** When one of the three values is falsy, the arithmetic is skipped. *)
Lemma validate_result_skips (data : list (str * value)) (w : world) :
  truthy (dict_get_default data (u "amount") (VInt 0))
  && truthy (dict_get_default data (u "vat") (VInt 0))
  && truthy (dict_get_default data (u "vat_rate") (VInt 0)) = false ->
  InvoiceAuditor.validate_result data w
  = (Ok (VDict data),
     snd (InvoiceAuditor.report_missing data InvoiceAuditor.required_fields w)).
Proof.
  intros H. unfold InvoiceAuditor.validate_result.
  destruct (report_missing_spec data InvoiceAuditor.required_fields w)
    as [es [R _]].
  rewrite (mbind_ok _ _ _ R). rewrite R. simpl snd.
  rewrite H. reflexivity.
Qed.

(** C10. When amount, vat or vat_rate is present in the record and
    equal to 0, the validator skips the arithmetic check: it returns the
    record and raises nothing, and the lines it prints are lines about
    missing fields only, none of them about the field that is 0; so no
    mismatch is reported, although the field counts as present. *)
Theorem zero_field_skips_vat_check (data : list (str * value)) (w : world)
    (key : str) (z : value) :
  In key [u "amount"; u "vat"; u "vat_rate"] ->
  dict_get data key = Some z ->
  is_zero_number z = true ->
  exists es,
    InvoiceAuditor.validate_result data w = (Ok (VDict data), after w es)
    /\ forall e, In e es ->
         exists f, e = Printed (MissingField f) /\ f <> key.
Proof.
  intros Hk Hg Hz.
  assert (Hd : dict_get_default data key (VInt 0) = z)
    by (unfold dict_get_default; now rewrite Hg).
  assert (Hf : truthy (dict_get_default data (u "amount") (VInt 0))
               && truthy (dict_get_default data (u "vat") (VInt 0))
               && truthy (dict_get_default data (u "vat_rate") (VInt 0))
               = false).
  { pose proof (zero_number_falsy _ Hz) as T.
    destruct Hk as [<- | [<- | [<- | []]]]; rewrite Hd, T;
      rewrite ?andb_false_r; reflexivity. }
  rewrite (validate_result_skips _ _ Hf).
  destruct (report_missing_spec data InvoiceAuditor.required_fields w)
    as [es [R H]].
  exists es. rewrite R. split; [reflexivity|].
  intros e He. destruct (H e He) as [f [-> Hm]].
  exists f. split; [reflexivity|].
  intros ->. unfold dict_has, dict_get_default in Hm. rewrite Hg in Hm.
  rewrite (zero_number_not_none _ Hz) in Hm.
  destruct Hm; discriminate.
Qed.

Lemma zero_field_skips_vat_check_witness :
  exists es,
    InvoiceAuditor.validate_result
      [ (u "amount", VInt 100); (u "vat", VInt 25); (u "vat_rate", VInt 0) ]
      (Scenario.fresh Scenario.all_timeouts Scenario.noon)
    = (Ok (VDict [ (u "amount", VInt 100); (u "vat", VInt 25);
                   (u "vat_rate", VInt 0) ]),
       after (Scenario.fresh Scenario.all_timeouts Scenario.noon) es)
    /\ forall e, In e es ->
         exists f, e = Printed (MissingField f) /\ f <> u "vat_rate".
Proof.
  apply (zero_field_skips_vat_check
           [ (u "amount", VInt 100); (u "vat", VInt 25); (u "vat_rate", VInt 0) ]
           (Scenario.fresh Scenario.all_timeouts Scenario.noon)
           (key := u "vat_rate") (z := VInt 0)).
  - right; right; left; reflexivity.
  - vm_compute; reflexivity.
  - reflexivity.
Defined.

(** C8 does not hold of the code, by a defect of the validator: it
    guards its arithmetic against absent, unset and zero values, not
    against text. On a record whose amount, VAT and rate are strings, as
    a reply with quoted numbers gives, the validator raises [TypeError]
    where it is to return the record. *)
Lemma validate_result_raises_on_strings :
  fst (InvoiceAuditor.validate_result
         [ (u "amount", VStr (u "100")); (u "vat", VStr (u "20"));
           (u "vat_rate", VStr (u "20")) ]
         (Scenario.fresh Scenario.all_timeouts Scenario.noon))
  = Raise TypeError.
Proof. vm_compute. reflexivity. Qed.

(** What follows in [audit]: a reply with quoted numbers is valid JSON,
    tier 1 parses it, the validator raises on each of the three
    attempts, and the call returns the record of a reply that could not
    be parsed. *)
Example audit_discards_quoted_numbers :
  let reply :=
    Scenario.dquoted "{'invoice_number': '7', 'amount': '100', 'vat': '20', 'vat_rate': '20'}" in
  fst (InvoiceAuditor.parse_json_robust reply Scenario.idle)
  = Ok (VDict [ (u "invoice_number", VStr (u "7"));
                (u "amount", VStr (u "100")); (u "vat", VStr (u "20"));
                (u "vat_rate", VStr (u "20")) ])
  /\ fst (InvoiceAuditor.audit (u "x")
            (Scenario.fresh (Case.granted_then_answered reply) Scenario.noon))
     = Ok (InvoiceAuditor.diagnostic (VStr reply)
             (TextCleaner.clean_pdf_text (u "x"))).
Proof. split; vm_compute; reflexivity. Qed.

(** ** Conversions to float that do not overflow *)

Lemma digits2_pos_size (p : positive) : digits2_pos p = Pos.size p.
Proof. induction p; simpl; congruence. Qed.

Lemma Zdigits2_log2 (p : positive) :
  Zdigits2 (Zpos p) = (Z.log2 (Zpos p) + 1)%Z.
Proof.
  unfold Zdigits2. rewrite digits2_pos_size.
  destruct p; simpl; lia.
Qed.

Lemma Zdigits2_nonneg (m : Z) : (0 <= Zdigits2 m)%Z.
Proof. destruct m; simpl; lia. Qed.

Lemma Zdigits2_mono (a b : Z) :
  (0 <= a <= b)%Z -> (Zdigits2 a <= Zdigits2 b)%Z.
Proof.
  intros [Ha Hab].
  destruct a as [| p |]; [apply Zdigits2_nonneg | | lia].
  destruct b as [| q |]; try lia.
  rewrite !Zdigits2_log2.
  pose proof (Z.log2_le_mono (Zpos p) (Zpos q) Hab). lia.
Qed.

Lemma Zdigits2_bound (m k : Z) :
  (0 <= k)%Z -> (0 <= m < 2 ^ k)%Z -> (Zdigits2 m <= k)%Z.
Proof.
  intros Hk [H0 H]. destruct m as [| p |]; [simpl; lia | | lia].
  rewrite Zdigits2_log2.
  apply Z.log2_lt_pow2 in H; lia.
Qed.

Lemma Zdigits2_shiftl (p : positive) (n : Z) :
  (0 <= n)%Z -> Zdigits2 (Z.shiftl (Zpos p) n) = (Zdigits2 (Zpos p) + n)%Z.
Proof.
  intros Hn.
  assert (P : (0 < Z.shiftl (Zpos p) n)%Z).
  { rewrite Z.shiftl_mul_pow2 by lia.
    pose proof (Z.pow_pos_nonneg 2 n). lia. }
  destruct (Z.shiftl (Zpos p) n) as [| q |] eqn:E; try lia.
  rewrite !Zdigits2_log2, <- E.
  rewrite Z.log2_shiftl; lia.
Qed.

Lemma Zdigits2_succ (m : Z) :
  (0 <= m)%Z -> (Zdigits2 (m + 1) <= Zdigits2 m + 1)%Z.
Proof.
  intros H. destruct m as [| p |]; [simpl; lia | | lia].
  replace (Zpos p + 1)%Z with (Zpos (Pos.succ p)) by lia.
  unfold Zdigits2.
  assert (S : forall q, (Zpos (digits2_pos (Pos.succ q))
                         <= Zpos (digits2_pos q) + 1)%Z).
  { induction q; simpl; lia. }
  apply S.
Qed.

Lemma shr_1_digits (s : shr_record) :
  Zdigits2 (shr_m (shr_1 s)) = Z.max 0 (Zdigits2 (shr_m s) - 1).
Proof.
  destruct s as [m r st].
  destruct m as [| [p | p |] | [p | p |]];
    cbn [shr_1 shr_m Zdigits2 digits2_pos]; lia.
Qed.

Lemma shr_digits (p : positive) :
  forall s,
    Zdigits2 (shr_m (iter_pos shr_1 p s))
    = Z.max 0 (Zdigits2 (shr_m s) - Zpos p).
Proof.
  induction p as [p IH | p IH |]; intros s; cbn [iter_pos].
  - rewrite !IH, shr_1_digits. pose proof (Zdigits2_nonneg (shr_m s)). lia.
  - rewrite !IH. pose proof (Zdigits2_nonneg (shr_m s)). lia.
  - apply shr_1_digits.
Qed.

Lemma shr_1_nonneg (s : shr_record) :
  (0 <= shr_m s)%Z -> (0 <= shr_m (shr_1 s))%Z.
Proof.
  destruct s as [m r st]. destruct m as [| p | p]; simpl; try lia;
    destruct p; simpl; lia.
Qed.

Lemma shr_nonneg (p : positive) :
  forall s, (0 <= shr_m s)%Z -> (0 <= shr_m (iter_pos shr_1 p s))%Z.
Proof.
  induction p as [p IH | p IH |]; intros s H; cbn [iter_pos].
  - apply IH, IH. now apply shr_1_nonneg.
  - auto.
  - now apply shr_1_nonneg.
Qed.

Lemma round_nearest_even_bounds (m : Z) (l : location) :
  (m <= round_nearest_even m l <= m + 1)%Z.
Proof.
  unfold round_nearest_even.
  destruct l as [| []]; try lia. destruct (Z.even m); lia.
Qed.

Lemma shr_m_of_loc (m : Z) (l : location) :
  shr_m (shr_record_of_loc m l) = m.
Proof. destruct l as [| []]; reflexivity. Qed.

(** Rounding a mantissa and an exponent whose value is below 2^1023
    gives no infinity. *)
Lemma binary_round_aux_finite (s : bool) (m e : Z) (l : location) :
  (0 <= m)%Z -> (e <= 971)%Z -> (Zdigits2 m + e <= 1023)%Z ->
  Float.is_inf (binary_round_aux Float.prec Float.emax s m e l) = false.
Proof.
  intros Hm He Hd.
  unfold binary_round_aux.
  destruct (shr_fexp Float.prec Float.emax m e l) as [mrs1 e1] eqn:E1.
  assert (B1 : (0 <= shr_m mrs1)%Z /\ (e1 <= 971)%Z
               /\ (Zdigits2 (shr_m mrs1) + e1 <= 1023)%Z).
  { unfold shr_fexp, shr in E1.
    pose proof (Zdigits2_nonneg m) as Dm.
    destruct (fexp Float.prec Float.emax (Zdigits2 m + e) - e)%Z
      as [| p | p] eqn:En;
      inversion E1; subst; clear E1; rewrite ?shr_m_of_loc;
      try (repeat split; lia).
    unfold fexp, emin, Float.prec, Float.emax in *.
    rewrite shr_digits, shr_m_of_loc.
    repeat split; [apply shr_nonneg; rewrite shr_m_of_loc; lia | lia | lia]. }
  destruct B1 as [N1 [X1 D1]].
  set (m2 := round_nearest_even (shr_m mrs1) (loc_of_shr_record mrs1)).
  pose proof (round_nearest_even_bounds (shr_m mrs1) (loc_of_shr_record mrs1))
    as R. fold m2 in R.
  assert (D2 : (Zdigits2 m2 <= Zdigits2 (shr_m mrs1) + 1)%Z).
  { etransitivity; [apply Zdigits2_mono with (b := (shr_m mrs1 + 1)%Z); lia|].
    now apply Zdigits2_succ. }
  destruct (shr_fexp Float.prec Float.emax m2 e1 loc_Exact) as [mrs2 e2] eqn:E2.
  assert (X2 : (e2 <= 971)%Z).
  { unfold shr_fexp, shr in E2.
    destruct (fexp Float.prec Float.emax (Zdigits2 m2 + e1) - e1)%Z
      as [| p | p] eqn:En;
      inversion E2; subst; clear E2; try lia.
    unfold fexp, emin, Float.prec, Float.emax in *. lia. }
  destruct (shr_m mrs2); try reflexivity.
  unfold Float.emax, Float.prec.
  destruct (e2 <=? 1024 - 53)%Z eqn:L; [reflexivity|].
  apply Z.leb_gt in L. lia.
Qed.

Lemma iter_xO_digits (d p : positive) :
  Zpos (digits2_pos (Pos.iter xO p d)) = (Zpos (digits2_pos p) + Zpos d)%Z.
Proof.
  induction d as [| d IH] using Pos.peano_ind.
  - simpl. lia.
  - rewrite Pos.iter_succ. cbn [digits2_pos]. lia.
Qed.

(** An [int] below 2^64 in absolute value converts to a float. *)
Lemma of_Z_finite (z : Z) :
  (Z.abs z < 2 ^ 64)%Z -> Float.is_inf (Float.of_Z z) = false.
Proof.
  intros H. unfold Float.of_Z, binary_normalize.
  assert (R : forall s p, (Zpos p < 2 ^ 64)%Z ->
            Float.is_inf (binary_round Float.prec Float.emax s p 0) = false).
  { intros s p Hp. unfold binary_round, shl_align.
    assert (D : (Zdigits2 (Zpos p) <= 64)%Z)
      by (apply Zdigits2_bound; lia).
    cbn [Zdigits2] in D.
    destruct (fexp Float.prec Float.emax (Zpos (digits2_pos p) + 0) - 0)%Z
      as [| q | q] eqn:E;
      try (apply binary_round_aux_finite; cbn [Zdigits2]; lia).
    apply binary_round_aux_finite; [lia | | ].
    - unfold fexp, emin, Float.prec, Float.emax in *. lia.
    - cbn [Zdigits2]. rewrite iter_xO_digits.
      unfold fexp, emin, Float.prec, Float.emax in *. lia. }
  destruct z as [| p | p]; [reflexivity | apply R; lia | apply R; lia].
Qed.

(** The quotient of a positive [int] below 2^128 by 100 is a float. *)
Lemma of_ratio_finite (s : bool) (p : positive) :
  (Zpos p < 2 ^ 128)%Z -> Float.is_inf (Float.of_ratio s p 100) = false.
Proof.
  intros H. unfold Float.of_ratio, SFdiv_core_binary.
  assert (D : (Zdigits2 (Zpos p) <= 128)%Z) by (apply Zdigits2_bound; lia).
  pose proof (Zdigits2_nonneg (Zpos p)) as D0.
  set (e' := Z.min (fexp Float.prec Float.emax
                      (Zdigits2 (Zpos p) + 0 - (Zdigits2 100 + 0))) (0 - 0)).
  assert (Ee : (-1074 <= e' <= 0)%Z).
  { unfold e', fexp, emin, Float.prec, Float.emax. lia. }
  set (m' := match (0 - 0 - e')%Z with
             | Zpos _ => Z.shiftl (Zpos p) (0 - 0 - e')
             | Z0 => Zpos p
             | Zneg _ => 0%Z
             end).
  assert (M : (0 <= m')%Z /\ (Zdigits2 m' + e' <= 128)%Z).
  { unfold m'. destruct (0 - 0 - e')%Z as [| q | q] eqn:E.
    - split; lia.
    - rewrite <- E. rewrite Zdigits2_shiftl by lia.
      split; [apply Z.shiftl_nonneg; lia | lia].
    - lia. }
  destruct M as [M0 Md].
  pose proof (Z.div_eucl_eq m' 100 ltac:(lia)) as Q.
  pose proof (Z.mod_pos_bound m' 100 ltac:(lia)) as Rb.
  unfold Z.modulo in Rb.
  destruct (Z.div_eucl m' 100) as [q r].
  apply binary_round_aux_finite; [nia | lia |].
  assert (Dq : (Zdigits2 q <= Zdigits2 m')%Z)
    by (apply Zdigits2_mono; nia).
  lia.
Qed.

(** *** The arithmetic of the validator on numbers *)

Lemma int_to_float_ok (z : Z) :
  (Z.abs z < 2 ^ 64)%Z -> exists f, Ops.int_to_float z = Ok f.
Proof.
  intros H. unfold Ops.int_to_float. rewrite (of_Z_finite _ H).
  eexists; reflexivity.
Qed.

(** A number is a float, or an [int] (or a [bool]) below 2^64. *)
Lemma number_cases (v : value) :
  is_number v = true ->
  (exists f, v = VFloat f)
  \/ (exists z, Ops.as_int v = Some z /\ (Z.abs z < 2 ^ 64)%Z
               /\ (v = VInt z \/ exists b, v = VBool b)).
Proof.
  destruct v as [| b | z | f | | |]; simpl; try discriminate; intros H.
  - right. exists (if b then 1 else 0)%Z.
    repeat split; [destruct b; lia | right; now exists b].
  - right. exists z. apply Z.ltb_lt in H. repeat split; [exact H | now left].
  - left. now exists f.
Qed.

Lemma py_mul_number (a r : value) :
  is_number a = true -> is_number r = true ->
  exists p, Ops.py_mul a r = Ok p
    /\ ((exists f, p = VFloat f)
        \/ (exists z, p = VInt z /\ (Z.abs z < 2 ^ 128)%Z)).
Proof.
  intros Ha Hr.
  destruct (number_cases _ Ha) as [[f ->] | [x [Ax [Bx Sx]]]];
  destruct (number_cases _ Hr) as [[g ->] | [y [Ay [By Sy]]]].
  - eexists; split; [reflexivity | left; eauto].
  - unfold Ops.py_mul. rewrite Ay. cbn [Ops.as_int].
    destruct (int_to_float_ok _ By) as [g ->].
    eexists; split; [reflexivity | left; eauto].
  - unfold Ops.py_mul. rewrite Ax. cbn [Ops.as_int].
    destruct (int_to_float_ok _ Bx) as [f ->].
    eexists; split; [reflexivity | left; eauto].
  - unfold Ops.py_mul. rewrite Ax, Ay.
    eexists; split; [reflexivity | right].
    exists (x * y)%Z. split; [reflexivity|].
    rewrite Z.abs_mul.
    replace (2 ^ 128)%Z with (2 ^ 64 * 2 ^ 64)%Z by reflexivity.
    pose proof (Z.abs_nonneg x). pose proof (Z.abs_nonneg y). nia.
Qed.

Lemma py_truediv_number (p : value) :
  (exists f, p = VFloat f)
  \/ (exists z, p = VInt z /\ (Z.abs z < 2 ^ 128)%Z) ->
  exists q, Ops.py_truediv_int p 100 = Ok (VFloat q).
Proof.
  intros [[f ->] | [z [-> B]]].
  - eexists; reflexivity.
  - unfold Ops.py_truediv_int. cbn [Ops.as_int].
    destruct z as [| n | n].
    + eexists; reflexivity.
    + rewrite of_ratio_finite by lia. eexists; reflexivity.
    + rewrite of_ratio_finite by lia. eexists; reflexivity.
Qed.

Lemma py_sub_number (v : value) (e : Float.float) :
  is_number v = true -> exists d, Ops.py_sub v (VFloat e) = Ok (VFloat d).
Proof.
  intros Hv.
  destruct (number_cases _ Hv) as [[f ->] | [x [Ax [Bx Sx]]]].
  - eexists; reflexivity.
  - unfold Ops.py_sub. rewrite Ax. cbn [Ops.as_int].
    destruct (int_to_float_ok _ Bx) as [f ->]. eexists; reflexivity.
Qed.

(** On three numbers the comparison of the validator raises nothing. *)
Lemma vat_check_number (amount vat vat_rate : value) :
  is_number amount = true -> is_number vat = true ->
  is_number vat_rate = true ->
  exists expected off,
    (p <- Ops.py_mul amount vat_rate ;;
     q <- Ops.py_truediv_int p 100 ;;
     Ops.py_round2 q) = Ok expected
    /\ (d <- Ops.py_sub vat expected ;;
        a <- Ops.py_abs d ;;
        Ops.py_gt_float a InvoiceAuditor.cent) = Ok off.
Proof.
  intros Ha Hv Hr.
  destruct (py_mul_number _ _ Ha Hr) as [p [-> Hp]].
  destruct (py_truediv_number Hp) as [q Hq].
  cbn [bind]. rewrite Hq. cbn [bind Ops.py_round2 Ops.as_int].
  destruct (@py_sub_number vat (Float.round2 q) Hv) as [d Hd].
  exists (VFloat (Float.round2 q)). eexists. split; [reflexivity|].
  rewrite Hd. reflexivity.
Qed.

(** Where the validator does return: for every record whose amount,
    VAT and rate are not all three truthy, or are all three numbers
    (floats, booleans, or ints below 2^64 in absolute value, a bound
    that keeps every conversion to float finite), it raises nothing and
    returns exactly the record it was given; all it does besides is
    print lines about missing fields and, at most, one line about a VAT
    mismatch. *)
Theorem validate_result_returns_record (data : list (str * value)) (w : world) :
  let amount := dict_get_default data (u "amount") (VInt 0) in
  let vat := dict_get_default data (u "vat") (VInt 0) in
  let vat_rate := dict_get_default data (u "vat_rate") (VInt 0) in
  truthy amount && truthy vat && truthy vat_rate = false
  \/ is_number amount && is_number vat && is_number vat_rate = true ->
  exists es,
    InvoiceAuditor.validate_result data w = (Ok (VDict data), after w es)
    /\ forallb is_validator_line es = true.
Proof.
  intros amount vat vat_rate H.
  destruct (report_missing_spec data InvoiceAuditor.required_fields w)
    as [es [R Hes]].
  assert (Fes : forallb is_validator_line es = true).
  { apply forallb_forall. intros e He.
    destruct (Hes e He) as [f [-> _]]. reflexivity. }
  destruct (truthy amount && truthy vat && truthy vat_rate) eqn:T.
  - destruct H as [H | H]; [discriminate H|].
    apply andb_true_iff in H. destruct H as [H Hr].
    apply andb_true_iff in H. destruct H as [Ha Hv].
    destruct (vat_check_number _ _ _ Ha Hv Hr) as [expected [off [E O]]].
    unfold InvoiceAuditor.validate_result.
    rewrite (mbind_ok _ _ _ R).
    fold amount vat vat_rate. rewrite T.
    unfold mbind at 1. unfold mbind at 1. unfold lift at 1. rewrite E.
    unfold mbind at 1. unfold lift at 1. rewrite O.
    destruct off.
    + exists (es ++ [Printed (VatMismatch vat expected)]).
      unfold print, emit, ret. rewrite after_after. split; [reflexivity|].
      rewrite forallb_app, Fes. reflexivity.
    + exists es. now split.
  - exists es. rewrite (validate_result_skips _ _ T), R. now split.
Qed.

Lemma validate_result_returns_record_witness :
  exists es,
    InvoiceAuditor.validate_result
      [ (u "amount", VInt 100); (u "vat", VFloat (Float.of_Z 25));
        (u "vat_rate", VInt 20) ]
      (Scenario.fresh Scenario.all_timeouts Scenario.noon)
    = (Ok (VDict [ (u "amount", VInt 100); (u "vat", VFloat (Float.of_Z 25));
                   (u "vat_rate", VInt 20) ]),
       after (Scenario.fresh Scenario.all_timeouts Scenario.noon) es)
    /\ forallb is_validator_line es = true.
Proof.
  apply (validate_result_returns_record
           [ (u "amount", VInt 100); (u "vat", VFloat (Float.of_Z 25));
             (u "vat_rate", VInt 20) ]
           (Scenario.fresh Scenario.all_timeouts Scenario.noon)).
  right. vm_compute. reflexivity.
Defined.

(** ** The credential broker *)





(** ** [json.loads] always answers *)

Lemma skip_ws_length (s : str) :
  List.length (Json.skip_ws s) <= List.length s.
Proof.
  induction s as [| c s IH]; simpl; [lia|].
  destruct (Json.is_ws c); simpl; lia.
Qed.

Lemma skip_ws_cons_length (s r : str) (x : char) :
  Json.skip_ws s = x :: r -> List.length r < List.length s.
Proof.
  intros H. pose proof (skip_ws_length s) as L. rewrite H in L. simpl in L. lia.
Qed.

Lemma take_digits_length (s ds r : str) :
  Json.take_digits s = (ds, r) -> List.length r <= List.length s.
Proof.
  revert ds r. induction s as [| c s IH]; simpl; intros ds r H.
  - inversion H; subst; simpl; lia.
  - destruct (Json.is_digit c).
    + destruct (Json.take_digits s) as [ds' r'] eqn:E.
      inversion H; subst. specialize (IH _ _ eq_refl). lia.
    + inversion H; subst; simpl; lia.
Qed.

Lemma strip_prefix_length (p s r : str) :
  Json.strip_prefix p s = Some r ->
  List.length r + List.length p = List.length s.
Proof.
  revert s. induction p as [| a p IH]; intros s H; simpl in *.
  - inversion H; subst; lia.
  - destruct s as [| b s]; [discriminate|].
    destruct (chr_eqb a b); [| discriminate].
    specialize (IH _ H). simpl. lia.
Qed.

Lemma match_constant_length (s r : str) (v : value) :
  Json.match_constant s = Some (v, r) -> List.length r < List.length s.
Proof.
  unfold Json.match_constant. intros H.
  repeat match type of H with
  | match Json.strip_prefix ?p s with _ => _ end = _ =>
      let E := fresh "E" in
      destruct (Json.strip_prefix p s) eqn:E;
      [ apply strip_prefix_length in E; inversion H; subst;
        let n := eval vm_compute in (List.length p) in
        change (List.length p) with n in E; lia
      | clear E ]
  end.
  discriminate.
Qed.

(** The string scanner stops within its text. *)
Lemma scanstring_length (n : nat) :
  forall (s acc v r : str),
    List.length s <= n ->
    Json.scanstring s acc = Some (v, r) ->
    List.length r < List.length s.
Proof.
  induction n as [| n IH]; intros s acc v r L H.
  - destruct s; [discriminate H | simpl in L; lia].
  - destruct s as [| c s]; [discriminate H|].
    simpl in L. cbn [Json.scanstring] in H.
    repeat match type of H with
    | (if ?c then _ else _) = _ => destruct c
    | match ?x with _ => _ end = _ => destruct x
    | Some _ = Some _ => inversion H; subst; clear H
    | None = Some _ => discriminate H
    | Json.scanstring _ _ = Some _ =>
        apply IH in H; [| simpl in *; lia]
    end;
    simpl in *; lia.
Qed.

Lemma exp_sign_length (s r : str) (b : bool) :
  Json.exp_sign s = (b, r) -> List.length r <= List.length s.
Proof.
  unfold Json.exp_sign. intros H.
  destruct s as [| c t]; [inversion H; subst; simpl; lia|].
  destruct (chr_eqb c (ch "-")); [inversion H; subst; simpl; lia|].
  destruct (chr_eqb c (ch "+")); inversion H; subst; simpl; lia.
Qed.

Lemma opt_minus_length (s r : str) (b : bool) :
  Json.opt_minus s = (b, r) -> List.length r <= List.length s.
Proof.
  unfold Json.opt_minus. intros H.
  destruct s as [| c t]; [inversion H; subst; simpl; lia|].
  destruct (chr_eqb c (ch "-")); inversion H; subst; simpl; lia.
Qed.

Lemma int_part_length (s ip r : str) :
  Json.int_part s = Some (ip, r) -> List.length r < List.length s.
Proof.
  unfold Json.int_part. intros H.
  destruct s as [| c t]; [discriminate H|].
  destruct (chr_eqb c (ch "0")); [inversion H; subst; simpl; lia|].
  destruct (Json.is_digit c); [| discriminate H].
  destruct (Json.take_digits t) as [ds r'] eqn:E.
  apply take_digits_length in E. inversion H; subst; simpl; lia.
Qed.

Lemma frac_part_length (s fr r : str) :
  Json.frac_part s = (fr, r) -> List.length r <= List.length s.
Proof.
  unfold Json.frac_part. intros H.
  destruct s as [| p [| d t]]; try (inversion H; subst; simpl; lia).
  destruct (chr_eqb p (ch ".") && Json.is_digit d);
    [| inversion H; subst; simpl; lia].
  destruct (Json.take_digits t) as [ds r'] eqn:E.
  apply take_digits_length in E. inversion H; subst; simpl; lia.
Qed.

Lemma exp_part_length (s r : str) (ex : option (bool * str)) :
  Json.exp_part s = (ex, r) -> List.length r <= List.length s.
Proof.
  unfold Json.exp_part. intros H.
  destruct s as [| e t]; [inversion H; subst; simpl; lia|].
  destruct (chr_eqb e (ch "e") || chr_eqb e (ch "E"));
    [| inversion H; subst; simpl; lia].
  destruct (Json.exp_sign t) as [eneg t'] eqn:Es.
  apply exp_sign_length in Es.
  destruct (Json.take_digits t') as [ds r'] eqn:E.
  apply take_digits_length in E.
  destruct ds; inversion H; subst; simpl; lia.
Qed.

(** The number scanner: it stops within its text, and the one exception
    it raises is the [ValueError] of an integer literal with too many
    digits. *)
Lemma match_number_spec (s : str) :
  match Json.match_number s with
  | Json.Scanned _ r => List.length r < List.length s
  | Json.Stop => True
  | Json.Fail e => e = ValueError
  | Json.NoFuel => False
  end.
Proof.
  unfold Json.match_number.
  destruct (Json.opt_minus s) as [neg s1] eqn:E1.
  apply opt_minus_length in E1.
  destruct (Json.int_part s1) as [[ip s2] |] eqn:E2; [| exact I].
  apply int_part_length in E2.
  destruct (Json.frac_part s2) as [fr s3] eqn:E3.
  apply frac_part_length in E3.
  destruct (Json.exp_part s3) as [ex s4] eqn:E4.
  apply exp_part_length in E4.
  destruct fr; [destruct ex; [lia|] | lia].
  destruct (Nat.ltb _ _); [reflexivity | lia].
Qed.

Lemma well_scanned_mono (s s' : str) (x : Json.scan value) :
  List.length s <= List.length s' -> well_scanned s x -> well_scanned s' x.
Proof.
  destruct x; simpl; intros; try assumption. lia.
Qed.

(** Fuel beyond twice the length of the text is never used up. *)
Lemma scanner_fuel (n : nat) :
  (forall s, 2 * List.length s < n -> well_scanned s (Json.scan_once n s))
  /\ (forall s acc, 2 * List.length s + 1 < n ->
        well_scanned s (Json.array_items n s acc))
  /\ (forall s acc, 2 * List.length s + 1 < n ->
        well_scanned s (Json.object_items n s acc)).
Proof.
  induction n as [| n [IHs [IHa IHo]]].
  - repeat split; intros; lia.
  - repeat split.
    + (* scan_once *)
      intros s L. destruct s as [| c t]; [exact I|].
      cbn [Json.scan_once]. cbn [List.length] in L.
      destruct (chr_eqb c dq).
      { destruct (Json.scanstring t []) as [[v r] |] eqn:E.
        - apply scanstring_length with (n := List.length t) in E; [| lia].
          simpl. lia.
        - simpl. now left. }
      destruct (chr_eqb c (ch "{")).
      { pose proof (skip_ws_length t) as Lt.
        destruct (Json.skip_ws t) as [| x r] eqn:E.
        - apply well_scanned_mono with (s := []); [simpl; lia|].
          apply IHo. simpl. lia.
        - simpl in Lt. destruct (chr_eqb x (ch "}")); [simpl; lia|].
          apply well_scanned_mono with (s := x :: r); [simpl; lia|].
          apply IHo. simpl. lia. }
      destruct (chr_eqb c (ch "[")).
      { pose proof (skip_ws_length t) as Lt.
        destruct (Json.skip_ws t) as [| x r] eqn:E.
        - apply well_scanned_mono with (s := []); [simpl; lia|].
          apply IHa. simpl. lia.
        - simpl in Lt. destruct (chr_eqb x (ch "]")); [simpl; lia|].
          apply well_scanned_mono with (s := x :: r); [simpl; lia|].
          apply IHa. simpl. lia. }
      destruct (Json.match_constant (c :: t)) as [[v r] |] eqn:E.
      { apply match_constant_length in E. exact E. }
      pose proof (match_number_spec (c :: t)) as N.
      destruct (Json.match_number (c :: t)); simpl; try assumption.
      now right.
    + (* array_items *)
      intros s acc L. cbn [Json.array_items].
      assert (Ls : 2 * List.length s < n) by lia.
      pose proof (IHs s Ls) as W.
      destruct (Json.scan_once n s) as [v r | | e |]; simpl in W;
        try assumption; try exact I.
      destruct (Json.skip_ws r) as [| x r'] eqn:E; [simpl; now left|].
      apply skip_ws_cons_length in E.
      destruct (chr_eqb x (ch "]")); [simpl; lia|].
      destruct (chr_eqb x (ch ",")); [| simpl; now left].
      pose proof (skip_ws_length r') as Lr.
      apply well_scanned_mono with (s := Json.skip_ws r'); [lia|].
      apply IHa. lia.
    + (* object_items *)
      intros s acc L. cbn [Json.object_items].
      destruct s as [| q t]; [simpl; now left|]. cbn [List.length] in L.
      destruct (chr_eqb q dq); [| simpl; now left].
      destruct (Json.scanstring t []) as [[key r] |] eqn:E; [| simpl; now left].
      apply scanstring_length with (n := List.length t) in E; [| lia].
      destruct (Json.skip_ws r) as [| c r1] eqn:E1; [simpl; now left|].
      apply skip_ws_cons_length in E1.
      destruct (chr_eqb c (ch ":")); [| simpl; now left].
      pose proof (skip_ws_length r1) as L1.
      assert (Ls : 2 * List.length (Json.skip_ws r1) < n) by lia.
      pose proof (IHs _ Ls) as W.
      destruct (Json.scan_once n (Json.skip_ws r1)) as [v r2 | | e |];
        simpl in W; try assumption; try exact I.
      destruct (Json.skip_ws r2) as [| x r3] eqn:E2; [simpl; now left|].
      apply skip_ws_cons_length in E2.
      destruct (chr_eqb x (ch "}")); [simpl; lia|].
      destruct (chr_eqb x (ch ",")); [| simpl; now left].
      pose proof (skip_ws_length r3) as L3.
      apply well_scanned_mono with (s := Json.skip_ws r3); [simpl; lia|].
      apply IHo. lia.
Qed.

(** [json.loads] returns a value or raises [JSONDecodeError] or
    [ValueError], on every text. *)
Lemma loads_outcome (s : str) :
  (exists v, Json.loads s = Ok v)
  \/ Json.loads s = Raise JSONDecodeError
  \/ Json.loads s = Raise ValueError.
Proof.
  unfold Json.loads.
  destruct (scanner_fuel (Json.fuel_for (Json.skip_ws s))) as [W _].
  specialize (W (Json.skip_ws s)).
  assert (L : 2 * List.length (Json.skip_ws s) < Json.fuel_for (Json.skip_ws s))
    by (unfold Json.fuel_for; lia).
  specialize (W L).
  destruct (Json.scan_once _ _) as [v r | | e |]; simpl in W.
  - destruct (Json.skip_ws r); [left; now exists v | right; now left].
  - right; now left.
  - destruct W as [-> | ->]; [right; now left | right; now right].
  - contradiction.
Qed.

(** ** The recovery parser *)

Lemma str_eqb_eq (a b : str) : str_eqb a b = true <-> a = b.
Proof.
  revert b. induction a as [| x a IH]; intros [| y b]; simpl;
    try (split; [discriminate | discriminate]); [tauto|].
  unfold chr_eqb. rewrite andb_true_iff, N.eqb_eq, IH.
  split; [intros [-> ->]; reflexivity | intros H; inversion H; auto].
Qed.

(** Assigning to a key that is there leaves the keys as they are. *)
Lemma dict_set_keys (d : list (str * value)) (k : str) (v : value) :
  In k (map fst d) -> map fst (dict_set d k v) = map fst d.
Proof.
  induction d as [| [k' v'] d IH]; simpl; [intros []|].
  intros H. destruct (str_eqb k' k) eqn:E; simpl; [reflexivity|].
  f_equal. apply IH. destruct H as [H | H]; [| exact H].
  apply str_eqb_eq in H. congruence.
Qed.

Lemma py_float_outcome (s : str) :
  (exists f, Ops.py_float s = Ok f) \/ Ops.py_float s = Raise ValueError.
Proof.
  unfold Ops.py_float.
  destruct (Json.take_digits s) as [ip r].
  destruct (match r with
            | [] => ([], r)
            | c :: t =>
                if chr_eqb c (ch ".") then Json.take_digits t else ([], r)
            end) as [frac r'].
  destruct r'; [| now right].
  destruct (ip ++ frac); [now right | left; eexists; reflexivity].
Qed.

(** One turn of tier 3 raises nothing and keeps the keys. *)
Lemma salvage_keys (json_str : str) (result : list (str * value))
    (key : str) (pattern : Re.regex) :
  In key (map fst result) ->
  exists result',
    InvoiceAuditor.salvage json_str result (key, pattern) = Ok result'
    /\ map fst result' = map fst result.
Proof.
  intros H. unfold InvoiceAuditor.salvage.
  destruct (Re.search pattern json_str) as [[i m] |]; [| now exists result].
  destruct (Re.group m 1) as [[| c v] |];
    try (eexists; split; [reflexivity | now apply dict_set_keys]).
  destruct (InvoiceAuditor.is_numeric_key key);
    [| eexists; split; [reflexivity | now apply dict_set_keys]].
  destruct (py_float_outcome (c :: v)) as [[f ->] | ->];
    eexists; (split; [reflexivity | now apply dict_set_keys]).
Qed.

Lemma salvage_all_keys (json_str : str) (ps : list (str * Re.regex)) :
  forall result,
    (forall kp, In kp ps -> In (fst kp) (map fst result)) ->
    exists result',
      InvoiceAuditor.salvage_all json_str result ps = Ok result'
      /\ map fst result' = map fst result.
Proof.
  induction ps as [| [key pattern] ps IH]; intros result H;
    cbn [InvoiceAuditor.salvage_all].
  - now exists result.
  - destruct (@salvage_keys json_str result key pattern
                (H (key, pattern) (or_introl eq_refl))) as [r1 [E1 K1]].
    rewrite E1. cbn [bind].
    destruct (IH r1) as [r2 [E2 K2]].
    + intros kp Hk. rewrite K1. apply H. now right.
    + exists r2. split; [exact E2 | congruence].
Qed.

(** Tier 3 always gives a record with the ten keys. *)
Lemma tier3_keys (json_str : str) :
  exists result,
    InvoiceAuditor.salvage_all json_str InvoiceAuditor.empty_result
      InvoiceAuditor.patterns = Ok result
    /\ map fst result = map fst InvoiceAuditor.empty_result.
Proof.
  apply salvage_all_keys.
  intros kp Hk.
  repeat (destruct Hk as [<- | Hk]; [vm_compute; tauto|]).
  destruct Hk.
Qed.

(** C2, as stated, fails: when tier 1 parses the candidate, what it
    parsed is returned as it is; the reply [{}] gives a mapping with no
    key at all. *)
Lemma parse_json_robust_empty_object :
  fst (InvoiceAuditor.parse_json_robust (u "{}")
         (Scenario.fresh Scenario.all_timeouts Scenario.noon))
  = Ok (VDict [])
  /\ dict_has [] (u "invoice_number") = false.
Proof. split; vm_compute; reflexivity. Qed.

(** C2, amended: the parser returns the value of the first tier that
    succeeds. When tier 1 parses the candidate, or tier 2 the repaired
    candidate, the parsed JSON value is returned as it is, whatever keys
    it has; when both fail to parse, tier 3 returns a mapping with
    exactly the ten keys of the record, each with a value or unset. *)
Theorem parse_json_robust_tiers (text : str) (w : world) :
  let candidate := InvoiceAuditor.extract_json_from_text text in
  let w1 := after w [Printed JsonDecodeErrorLine] in
  match Json.loads candidate with
  | Ok v => InvoiceAuditor.parse_json_robust text w = (Ok v, w)
  | Raise JSONDecodeError =>
      match Json.loads (InvoiceAuditor.repair candidate) with
      | Ok v => InvoiceAuditor.parse_json_robust text w = (Ok v, w1)
      | Raise JSONDecodeError =>
          exists result,
            InvoiceAuditor.parse_json_robust text w = (Ok (VDict result), w1)
            /\ map fst result = map fst InvoiceAuditor.empty_result
      | _ => True
      end
  | _ => True
  end.
Proof.
  intros candidate w1.
  unfold InvoiceAuditor.parse_json_robust, InvoiceAuditor.try_json.
  fold candidate.
  unfold try_except at 1. unfold lift at 1.
  destruct (Json.loads candidate) as [v | e |]; [reflexivity | | exact I].
  destruct e; try exact I. cbn [is_JSONDecodeError].
  unfold mbind at 1. unfold print at 1, emit at 1. fold w1.
  unfold try_except at 1. unfold lift at 1.
  destruct (Json.loads (InvoiceAuditor.repair candidate)) as [v | e |];
    [reflexivity | | exact I].
  destruct e; try exact I. cbn [is_JSONDecodeError].
  destruct (tier3_keys (InvoiceAuditor.repair candidate)) as [result [E K]].
  exists result. unfold mbind, lift, ret. rewrite E. now split.
Qed.

(** The parser returns a value on every text but those on which
    [json.loads] raises [ValueError]: a [JSONDecodeError] never escapes,
    and the evaluation never lacks fuel. *)
Lemma parse_json_robust_outcome (text : str) (w : world) :
  exists w',
    (exists v, InvoiceAuditor.parse_json_robust text w = (Ok v, w'))
    \/ InvoiceAuditor.parse_json_robust text w = (Raise ValueError, w').
Proof.
  unfold InvoiceAuditor.parse_json_robust, InvoiceAuditor.try_json.
  set (candidate := InvoiceAuditor.extract_json_from_text text).
  unfold try_except at 1. unfold lift at 1.
  destruct (loads_outcome candidate) as [[v ->] | [-> | ->]].
  - exists w. left. now exists v.
  - cbn [is_JSONDecodeError].
    unfold mbind at 1. unfold print at 1, emit at 1.
    set (w1 := after w [Printed JsonDecodeErrorLine]).
    unfold try_except at 1. unfold lift at 1.
    destruct (loads_outcome (InvoiceAuditor.repair candidate))
      as [[v ->] | [-> | ->]].
    + exists w1. left. now exists v.
    + cbn [is_JSONDecodeError].
      destruct (tier3_keys (InvoiceAuditor.repair candidate)) as [result [E _]].
      exists w1. left. exists (VDict result).
      unfold mbind, lift, ret. now rewrite E.
    + exists w1. now right.
  - exists w. now right.
Qed.

(** C1: the parser raises on some texts. An integer literal of more
    digits than the interpreter converts makes [json.loads] raise
    [ValueError], which is not a [JSONDecodeError]: the handler of
    tier 1 does not catch it and it leaves [parse_json_robust]. *)
Theorem parse_json_robust_raises_on_long_integer (w : world) :
  Json.loads (InvoiceAuditor.extract_json_from_text Scenario.long_integer)
    = Raise ValueError
  /\ is_JSONDecodeError ValueError = false
  /\ InvoiceAuditor.parse_json_robust Scenario.long_integer w
     = (Raise ValueError, w).
Proof.
  assert (L : Json.loads
                (InvoiceAuditor.extract_json_from_text Scenario.long_integer)
              = Raise ValueError) by (vm_compute; reflexivity).
  split; [exact L | split; [reflexivity |]].
  unfold InvoiceAuditor.parse_json_robust, InvoiceAuditor.try_json.
  unfold try_except at 1. unfold lift at 1. now rewrite L.
Qed.

(* ===================================================================== *)
(** * Further properties                                                  *)
(* ===================================================================== *)

(** ** Counting events *)

Lemma count_zero (p : event -> bool) (es : list event) :
  forallb (fun e => negb (p e)) es = true -> Scenario.count p es = 0.
Proof.
  unfold Scenario.count.
  induction es as [| e es IH]; simpl; [reflexivity|].
  intros H. apply andb_true_iff in H. destruct H as [He Hes].
  destruct (p e); [discriminate He | auto].
Qed.

Lemma at_most_quiet {A} p (m : M A) :
  emits (fun e => negb (p e)) m -> at_most p 0 m.
Proof.
  intros H w. destruct (H w) as [es [E F]].
  exists es. split; [exact E|]. rewrite (count_zero p es F). lia.
Qed.

Lemma at_most_le {A} p (a b : nat) (m : M A) :
  a <= b -> at_most p a m -> at_most p b m.
Proof.
  intros L H w. destruct (H w) as [es [E C]]. exists es. split; [exact E | lia].
Qed.

Lemma at_most_bind {A B} p (a b : nat) (m : M A) (f : A -> M B) :
  at_most p a m -> (forall x, at_most p b (f x)) ->
  at_most p (a + b) (mbind m f).
Proof.
  intros Hm Hf w. unfold mbind.
  destruct (Hm w) as [es1 [E1 C1]].
  destruct (m w) as [[x | e |] w1] eqn:Em; simpl in E1.
  - destruct (Hf x w1) as [es2 [E2 C2]].
    exists (es1 ++ es2). rewrite E2, E1, <- app_assoc. split; [reflexivity|].
    rewrite count_app. lia.
  - exists es1. split; [exact E1 | lia].
  - exists es1. split; [exact E1 | lia].
Qed.

Lemma at_most_try_except {A} p (a b : nat) (m : M A) (h : exn -> M A) :
  at_most p a m -> (forall e, at_most p b (h e)) ->
  at_most p (a + b) (try_except m h).
Proof.
  intros Hm Hh w. unfold try_except.
  destruct (Hm w) as [es1 [E1 C1]].
  destruct (m w) as [[x | e |] w1] eqn:Em; simpl in E1.
  - exists es1. split; [exact E1 | lia].
  - destruct (Hh e w1) as [es2 [E2 C2]].
    exists (es1 ++ es2). rewrite E2, E1, <- app_assoc. split; [reflexivity|].
    rewrite count_app. lia.
  - exists es1. split; [exact E1 | lia].
Qed.

Lemma at_most_post p (to : endpoint) : at_most p 1 (post to).
Proof.
  intros w. exists [Requested to]. unfold post.
  assert (C : Scenario.count p [Requested to] <= 1)
    by (unfold Scenario.count; simpl; destruct (p _); simpl; lia).
  destruct (net w (sent w)); simpl; (split; [reflexivity | exact C]).
Qed.

(** *** Computations that emit nothing of a given kind

    [P] holds of every printed line and of every sleep. *)
Section Quiet.

Variable P : event -> bool.
Hypothesis P_print : forall l, P (Printed l) = true.
Hypothesis P_sleep : forall s, P (Slept s) = true.

Ltac quiet_step :=
  match goal with
  | |- emits _ (mbind _ _) => apply emits_bind; [| intros ?]
  | |- emits _ (try_except _ _) => apply emits_try_except; [| intros ?]
  | |- emits _ (ret _) => apply emits_ret
  | |- emits _ (raise _) => apply emits_raise
  | |- emits _ (lift _) => apply emits_lift
  | |- emits _ (print _) => apply emits_emit; apply P_print
  | |- emits _ (sleep _) => apply emits_emit; apply P_sleep
  | |- emits _ now => apply emits_now
  | |- emits _ get_token => apply emits_get_token
  | |- emits _ get_expires_at => apply emits_get_expires_at
  | |- emits _ (set_token _) => apply emits_set_token
  | |- emits _ (set_expires_at _) => apply emits_set_expires_at
  | |- emits _ (if ?c then _ else _) => destruct c
  | |- emits _ (match ?x with _ => _ end) => destruct x
  | |- emits _ (let '(_, _) := ?x in _) => destruct x
  end.

Lemma report_missing_quiet data fields :
  emits P (InvoiceAuditor.report_missing data fields).
Proof.
  induction fields as [| f fs IH]; simpl.
  - apply emits_ret.
  - repeat quiet_step. exact IH.
Qed.

Lemma validate_result_quiet data :
  emits P (InvoiceAuditor.validate_result data).
Proof.
  unfold InvoiceAuditor.validate_result.
  apply emits_bind; [apply report_missing_quiet | intros ?].
  repeat quiet_step.
Qed.

Lemma parse_json_robust_quiet text :
  emits P (InvoiceAuditor.parse_json_robust text).
Proof.
  unfold InvoiceAuditor.parse_json_robust, InvoiceAuditor.try_json.
  repeat quiet_step.
Qed.

Lemma parse_reply_quiet v : emits P (InvoiceAuditor.parse_reply v).
Proof.
  unfold InvoiceAuditor.parse_reply.
  apply emits_bind.
  - destruct v; try apply emits_raise. apply parse_json_robust_quiet.
  - intros r. repeat quiet_step; apply validate_result_quiet.
Qed.

(** What follows the completion call in the [try] block. *)
Lemma after_post_quiet text attempt (resp : Z * option value) :
  emits P
    (let '(status, body) := resp in
     if (status =? 401)%Z then
       print TokenExpired ;;; set_token VNone ;;; ret InvoiceAuditor.Next
     else
       InvoiceAuditor.raise_for_status status ;;;
       result_text <~ lift (InvoiceAuditor.content_of body) ;;
       lift (InvoiceAuditor.check_len result_text) ;;;
       print ReplyReceived ;;;
       try_except (InvoiceAuditor.parse_reply result_text)
         (fun _ =>
            print (ParseFailed (attempt + 1)) ;;;
            if Nat.eqb attempt 2 then
              lift (InvoiceAuditor.check_slice result_text) ;;;
              print RawReply ;;;
              ret (InvoiceAuditor.Return
                     (InvoiceAuditor.diagnostic result_text text))
            else
              sleep 1 ;;; ret InvoiceAuditor.Next)).
Proof.
  destruct resp as [status body].
  unfold InvoiceAuditor.raise_for_status.
  destruct (status =? 401)%Z.
  - repeat quiet_step.
  - apply emits_bind; [repeat quiet_step | intros ?].
    apply emits_bind; [repeat quiet_step | intros ?].
    apply emits_bind; [repeat quiet_step | intros ?].
    apply emits_bind; [repeat quiet_step | intros ?].
    apply emits_try_except; [apply parse_reply_quiet | intros ?].
    repeat quiet_step.
Qed.

Lemma attempt_except_quiet attempt e :
  emits P (InvoiceAuditor.attempt_except attempt e).
Proof.
  unfold InvoiceAuditor.attempt_except. repeat quiet_step.
Qed.

End Quiet.

(** *** Computations that send no request to the completion service *)
Section QuietAuth.

Variable P : event -> bool.
Hypothesis P_print : forall l, P (Printed l) = true.
Hypothesis P_auth : P (Requested AuthUrl) = true.

Lemma fetch_token_quiet : emits P GigaChatAuth._fetch_token.
Proof.
  unfold GigaChatAuth._fetch_token.
  apply emits_bind; [apply emits_now | intros ?].
  apply emits_bind; [apply emits_emit, P_print | intros ?].
  apply emits_bind; [apply emits_post, P_auth | intros [status body]].
  destruct (negb (status =? 200)%Z); [apply emits_raise|].
  apply emits_bind; [apply emits_lift | intros data].
  apply emits_bind; [apply emits_lift | intros tok].
  apply emits_bind; [apply emits_set_token | intros ?].
  apply emits_bind.
  - destruct data; try apply emits_raise.
    destruct (dict_has _ _); [apply emits_lift|].
    apply emits_bind; [apply emits_now | intros ?]. apply emits_ret.
  - intros expires.
    apply emits_bind; [apply emits_set_expires_at | intros ?].
    apply emits_emit, P_print.
Qed.

Lemma token_quiet : emits P GigaChatAuth.token.
Proof.
  unfold GigaChatAuth.token.
  apply emits_bind; [apply emits_get_token | intros tok].
  apply emits_bind; [apply emits_get_expires_at | intros exp].
  apply emits_bind; [| intros ?; apply emits_get_token].
  destruct (truthy tok), exp; try apply fetch_token_quiet.
  apply emits_bind; [apply emits_now | intros t].
  destruct (_ <=? t)%Z; [apply fetch_token_quiet | apply emits_ret].
Qed.

End QuietAuth.

(** ** The requests of [audit] *)

Lemma fetch_token_one_request :
  at_most is_auth_request 1 GigaChatAuth._fetch_token.
Proof.
  unfold GigaChatAuth._fetch_token.
  apply (at_most_bind (a := 0) (b := 1)); [| intros ?].
  { apply at_most_quiet, emits_now. }
  apply (at_most_bind (a := 0) (b := 1)); [| intros ?].
  { apply at_most_quiet, emits_emit. reflexivity. }
  apply (at_most_bind (a := 1) (b := 0)); [apply at_most_post | intros [status body]].
  apply at_most_quiet.
  destruct (negb (status =? 200)%Z); [apply emits_raise|].
  apply emits_bind; [apply emits_lift | intros data].
  apply emits_bind; [apply emits_lift | intros tok].
  apply emits_bind; [apply emits_set_token | intros ?].
  apply emits_bind.
  - destruct data; try apply emits_raise.
    destruct (dict_has _ _); [apply emits_lift|].
    apply emits_bind; [apply emits_now | intros ?]. apply emits_ret.
  - intros expires.
    apply emits_bind; [apply emits_set_expires_at | intros ?].
    apply emits_emit. reflexivity.
Qed.

Lemma token_one_request : at_most is_auth_request 1 GigaChatAuth.token.
Proof.
  unfold GigaChatAuth.token.
  apply (at_most_bind (a := 0) (b := 1));
    [apply at_most_quiet, emits_get_token | intros tok].
  apply (at_most_bind (a := 0) (b := 1));
    [apply at_most_quiet, emits_get_expires_at | intros exp].
  apply (at_most_bind (a := 1) (b := 0));
    [| intros ?; apply at_most_quiet, emits_get_token].
  destruct (truthy tok), exp; try apply fetch_token_one_request.
  apply (at_most_bind (a := 0) (b := 1));
    [apply at_most_quiet, emits_now | intros t].
  destruct (_ <=? t)%Z; [apply fetch_token_one_request|].
  apply at_most_le with (a := 0); [lia | apply at_most_quiet, emits_ret].
Qed.

(** One turn of the loop sends at most one request of each kind. *)
Lemma attempt_body_requests (text : str) (attempt : nat) :
  at_most Scenario.is_api_request 1 (InvoiceAuditor.attempt_body text attempt)
  /\ at_most is_auth_request 1 (InvoiceAuditor.attempt_body text attempt).
Proof.
  unfold InvoiceAuditor.attempt_body, InvoiceAuditor.attempt_try. split.
  - apply (at_most_try_except (a := 1) (b := 0)).
    + apply (at_most_bind (a := 0) (b := 1)); [| intros ?].
      { apply at_most_quiet, token_quiet; reflexivity. }
      apply (at_most_bind (a := 1) (b := 0)); [apply at_most_post | intros resp].
      apply at_most_quiet, after_post_quiet; reflexivity.
    + intros e. apply at_most_quiet, attempt_except_quiet; reflexivity.
  - apply (at_most_try_except (a := 1) (b := 0)).
    + apply (at_most_bind (a := 1) (b := 0)); [apply token_one_request | intros ?].
      apply at_most_quiet.
      apply emits_bind; [apply emits_post; reflexivity | intros resp].
      apply after_post_quiet; reflexivity.
    + intros e. apply at_most_quiet, attempt_except_quiet; reflexivity.
Qed.

Lemma attempts_loop_requests (text : str) (attempts : list nat) :
  at_most Scenario.is_api_request (List.length attempts)
    (InvoiceAuditor.attempts_loop text attempts)
  /\ at_most is_auth_request (List.length attempts)
       (InvoiceAuditor.attempts_loop text attempts).
Proof.
  induction attempts as [| a l [IH1 IH2]]; cbn [InvoiceAuditor.attempts_loop].
  - split; apply at_most_quiet, emits_raise.
  - destruct (attempt_body_requests text a) as [B1 B2].
    split.
    + apply (at_most_bind (a := 1) (b := List.length l)); [exact B1 | intros r].
      destruct r; [| exact IH1].
      apply at_most_le with (a := 0); [lia | apply at_most_quiet, emits_ret].
    + apply (at_most_bind (a := 1) (b := List.length l)); [exact B2 | intros r].
      destruct r; [| exact IH2].
      apply at_most_le with (a := 0); [lia | apply at_most_quiet, emits_ret].
Qed.

(** X1. Whatever the service answers, one call of [audit] sends at most
    three requests to the completion service and at most three to the
    authorization service, and it only adds to the events. *)
Theorem audit_request_bounds (extracted : str) (w : world) :
  exists es,
    events (snd (InvoiceAuditor.audit extracted w)) = events w ++ es
    /\ Scenario.count Scenario.is_api_request es <= 3
    /\ Scenario.count is_auth_request es <= 3.
Proof.
  unfold InvoiceAuditor.audit.
  destruct (attempts_loop_requests
              (TextCleaner.clean_pdf_text extracted) (seq 0 3)) as [H1 H2].
  destruct (H1 w) as [es [E C1]]. destruct (H2 w) as [es' [E' C2]].
  exists es. split; [exact E|]. split; [exact C1|].
  rewrite E in E'. apply app_inv_head in E'. subst es'. exact C2.
Qed.

(** ** What [audit] returns *)

Lemma returns_ret {A} (Q : A -> Prop) (a : A) : Q a -> returns Q (ret a).
Proof. intros H w x w' E. inversion E; subst. exact H. Qed.

Lemma returns_raise {A} (Q : A -> Prop) (e : exn) : returns Q (raise e).
Proof. intros w x w' E. discriminate E. Qed.

Lemma returns_bind {A B} (Q : B -> Prop) (m : M A) (f : A -> M B) :
  (forall a, returns Q (f a)) -> returns Q (mbind m f).
Proof.
  intros Hf w b w' E. unfold mbind in E.
  destruct (m w) as [[a | e |] w1]; try discriminate E.
  exact (Hf a w1 b w' E).
Qed.

Lemma returns_try_except {A} (Q : A -> Prop) (m : M A) (h : exn -> M A) :
  returns Q m -> (forall e, returns Q (h e)) -> returns Q (try_except m h).
Proof.
  intros Hm Hh w a w' E. unfold try_except in E.
  destruct (m w) as [[x | e |] w1] eqn:Em; try discriminate E.
  - inversion E; subst. exact (Hm w a w' Em).
  - exact (Hh e w1 a w' E).
Qed.

(** The validator returns nothing but the record it was given. *)
Lemma validate_result_returns_input (data : list (str * value)) :
  returns (fun v => v = VDict data) (InvoiceAuditor.validate_result data).
Proof.
  unfold InvoiceAuditor.validate_result.
  apply returns_bind; intros _.
  apply returns_bind; intros _.
  now apply returns_ret.
Qed.

Lemma parse_reply_returns (text : str) (result_text : value) :
  returns (turn_result text) (InvoiceAuditor.parse_reply result_text).
Proof.
  unfold InvoiceAuditor.parse_reply.
  apply returns_bind; intros result.
  intros w r w' E. unfold mbind at 1 in E. unfold lift at 1 in E.
  unfold InvoiceAuditor.is_empty_result in E.
  destruct (truthy result) eqn:T; cbn [negb] in E; [| discriminate E].
  destruct result as [| | | | | | d]; try discriminate E.
  destruct (forallb (fun kv => is_none (snd kv)) d) eqn:F; [discriminate E|].
  unfold mbind in E.
  destruct (InvoiceAuditor.validate_result d w) as [[v | e |] w1] eqn:V;
    try discriminate E.
  inversion E; subst; clear E.
  pose proof (@validate_result_returns_input d _ _ _ V) as ->.
  left. exists d. split; [reflexivity|].
  clear - F. induction d as [| kv d IH]; [discriminate F|].
  simpl in *. destruct (is_none (snd kv)); simpl in *; auto.
Qed.

Lemma attempt_body_returns (text : str) (attempt : nat) :
  returns (turn_result text) (InvoiceAuditor.attempt_body text attempt).
Proof.
  unfold InvoiceAuditor.attempt_body.
  apply returns_try_except.
  - unfold InvoiceAuditor.attempt_try.
    apply returns_bind; intros _.
    apply returns_bind; intros [status body].
    destruct (status =? 401)%Z.
    + apply returns_bind; intros _. apply returns_bind; intros _.
      now apply returns_ret.
    + apply returns_bind; intros _. apply returns_bind; intros result_text.
      apply returns_bind; intros _. apply returns_bind; intros _.
      apply returns_try_except; [apply parse_reply_returns | intros _].
      apply returns_bind; intros _.
      destruct (Nat.eqb attempt 2).
      * apply returns_bind; intros _. apply returns_bind; intros _.
        apply returns_ret. right. now exists result_text.
      * apply returns_bind; intros _. now apply returns_ret.
  - intros e. unfold InvoiceAuditor.attempt_except.
    destruct (is_Timeout e).
    + apply returns_bind; intros _. apply returns_bind; intros _.
      now apply returns_ret.
    + apply returns_bind; intros _.
      destruct (Nat.eqb attempt 2); [apply returns_raise|].
      apply returns_bind; intros _. now apply returns_ret.
Qed.

(** X2. Whatever [audit] returns is a mapping of one of two kinds: a
    record in which at least one value is set, or the diagnostic record
    that carries the raw reply and the first thousand characters of the
    cleaned text. It never returns an empty or all-unset record. *)
Theorem audit_returns_record_or_diagnostic (extracted : str) (w w' : world)
    (v : value) :
  InvoiceAuditor.audit extracted w = (Ok v, w') ->
  has_value v
  \/ exists raw,
       v = InvoiceAuditor.diagnostic raw (TextCleaner.clean_pdf_text extracted).
Proof.
  unfold InvoiceAuditor.audit.
  set (text := TextCleaner.clean_pdf_text extracted).
  generalize (seq 0 3). intros attempts. revert w.
  induction attempts as [| a l IH]; intros w E;
    cbn [InvoiceAuditor.attempts_loop] in E; [discriminate E|].
  unfold mbind in E.
  destruct (InvoiceAuditor.attempt_body text a w) as [[r | e |] w1] eqn:B;
    try discriminate E.
  destruct r as [v0 |].
  - inversion E; subst. exact (@attempt_body_returns text a _ _ _ B).
  - exact (IH w1 E).
Qed.

Lemma audit_returns_record_or_diagnostic_witness :
  has_value (VDict [ (u "amount", VInt 5) ])
  \/ exists raw,
       VDict [ (u "amount", VInt 5) ]
       = InvoiceAuditor.diagnostic raw (TextCleaner.clean_pdf_text (u "x")).
Proof.
  refine (@audit_returns_record_or_diagnostic (u "x")
            (Scenario.fresh
               (Case.granted_then_answered (Scenario.dquoted "{'amount': 5}"))
               Scenario.noon)
            (snd (InvoiceAuditor.audit (u "x")
                    (Scenario.fresh
                       (Case.granted_then_answered
                          (Scenario.dquoted "{'amount': 5}"))
                       Scenario.noon)))
            (VDict [ (u "amount", VInt 5) ]) _).
  vm_compute. reflexivity.
Defined.

(** ** The outcomes of the validator *)

Lemma arith_bind {A B} (m : outcome A) (f : A -> outcome B) :
  arith_outcome m -> (forall a, arith_outcome (f a)) ->
  arith_outcome (bind m f).
Proof.
  destruct m; simpl; auto.
Qed.

Lemma int_to_float_arith (z : Z) : arith_outcome (Ops.int_to_float z).
Proof.
  unfold Ops.int_to_float. destruct (Float.is_inf _); simpl; auto.
Qed.

Lemma seq_repeat_arith (sq : value) (n : Z) :
  arith_outcome (Ops.seq_repeat sq n).
Proof.
  unfold Ops.seq_repeat. destruct (_ || _); simpl; auto.
  destruct sq; simpl; auto.
  destruct (_ <? _)%Z; simpl; auto.
Qed.

Lemma py_mul_arith (a b : value) : arith_outcome (Ops.py_mul a b).
Proof.
  unfold Ops.py_mul.
  destruct (Ops.as_int a) as [x |], (Ops.as_int b) as [y |].
  - exact I.
  - destruct b; simpl; auto; try apply seq_repeat_arith.
    apply arith_bind; [apply int_to_float_arith | intros; exact I].
  - destruct a; simpl; auto; try apply seq_repeat_arith.
    apply arith_bind; [apply int_to_float_arith | intros; exact I].
  - destruct a, b; simpl; auto.
Qed.

Lemma py_truediv_int_arith (a : value) (n : positive) :
  arith_outcome (Ops.py_truediv_int a n).
Proof.
  unfold Ops.py_truediv_int.
  destruct (Ops.as_int a) as [x |].
  - destruct (Float.is_inf _); simpl; auto.
  - destruct a; simpl; auto.
Qed.

Lemma py_round2_arith (a : value) : arith_outcome (Ops.py_round2 a).
Proof.
  unfold Ops.py_round2. destruct (Ops.as_int a); [exact I|].
  destruct a; simpl; auto.
Qed.

Lemma py_sub_arith (a b : value) : arith_outcome (Ops.py_sub a b).
Proof.
  unfold Ops.py_sub.
  destruct (Ops.as_int a) as [x |], (Ops.as_int b) as [y |].
  - exact I.
  - destruct b; simpl; auto.
    apply arith_bind; [apply int_to_float_arith | intros; exact I].
  - destruct a; simpl; auto.
    apply arith_bind; [apply int_to_float_arith | intros; exact I].
  - destruct a, b; simpl; auto.
Qed.

Lemma py_abs_arith (a : value) : arith_outcome (Ops.py_abs a).
Proof.
  unfold Ops.py_abs. destruct (Ops.as_int a); [exact I|].
  destruct a; simpl; auto.
Qed.

Lemma py_gt_float_arith (a : value) (c : Float.float) :
  arith_outcome (Ops.py_gt_float a c).
Proof.
  unfold Ops.py_gt_float. destruct (Ops.as_int a); [exact I|].
  destruct a; simpl; auto.
Qed.

(** The presence checks print one line for each field of the list that
    is absent or unset, in the order of the list. *)
Lemma report_missing_exact (data : list (str * value)) (fields : list str)
    (w : world) :
  InvoiceAuditor.report_missing data fields w
  = (Ok tt, after w (map missing_line (filter (is_missing data) fields))).
Proof.
  revert w. induction fields as [| f fs IH]; intros w; simpl.
  - now rewrite after_nil.
  - fold (is_missing data f). destruct (is_missing data f); simpl.
    + unfold mbind, print, emit. rewrite IH, after_after. reflexivity.
    + unfold mbind, ret. apply IH.
Qed.

(** X3. On a record whose amount and rate are neither text nor lists
    (the product of such a value by an integer is a repetition, which
    may exhaust the memory of the machine), the validator either
    returns exactly the record it was given or raises [TypeError] or
    [OverflowError] out of its arithmetic; it prints a line for each
    required field that is absent or unset, in the order of the list,
    then at most one line about a VAT mismatch, and does nothing else to
    the world. *)
Theorem validate_result_outcome (data : list (str * value)) (w : world) :
  is_sequence (dict_get_default data (u "amount") (VInt 0)) = false ->
  is_sequence (dict_get_default data (u "vat_rate") (VInt 0)) = false ->
  exists tail,
    let w' := after w (map missing_line
                         (filter (is_missing data)
                            InvoiceAuditor.required_fields) ++ tail) in
    (tail = [] \/ exists vat expected, tail = [Printed (VatMismatch vat expected)])
    /\ (InvoiceAuditor.validate_result data w = (Ok (VDict data), w')
        \/ (tail = []
            /\ (InvoiceAuditor.validate_result data w = (Raise TypeError, w')
                \/ InvoiceAuditor.validate_result data w
                   = (Raise OverflowError, w')))).
Proof.
  intros _ _.
  set (w1 := after w (map missing_line
               (filter (is_missing data) InvoiceAuditor.required_fields))).
  assert (K : exists tail o,
    InvoiceAuditor.validate_result data w = (o, after w1 tail)
    /\ (tail = [] \/ exists vat expected,
           tail = [Printed (VatMismatch vat expected)])
    /\ (o = Ok (VDict data)
        \/ (tail = [] /\ (o = Raise TypeError \/ o = Raise OverflowError)))).
  { unfold InvoiceAuditor.validate_result.
    rewrite (mbind_ok _ _ _ (report_missing_exact data _ w)). fold w1.
    set (amount := dict_get_default data (u "amount") (VInt 0)).
    set (vat := dict_get_default data (u "vat") (VInt 0)).
    set (vat_rate := dict_get_default data (u "vat_rate") (VInt 0)).
    destruct (truthy amount && truthy vat && truthy vat_rate).
    - unfold mbind at 1. unfold mbind at 1. unfold lift at 1.
      assert (A1 : arith_outcome
                     (p <- Ops.py_mul amount vat_rate ;;
                      q <- Ops.py_truediv_int p 100 ;; Ops.py_round2 q)).
      { apply arith_bind; [apply py_mul_arith | intros p].
        apply arith_bind; [apply py_truediv_int_arith | intros q].
        apply py_round2_arith. }
      destruct (p <- Ops.py_mul amount vat_rate ;;
                q <- Ops.py_truediv_int p 100 ;; Ops.py_round2 q)
        as [expected | e |]; simpl in A1; [| | contradiction].
      + unfold mbind at 1. unfold lift at 1.
        assert (A2 : arith_outcome
                       (d <- Ops.py_sub vat expected ;;
                        a <- Ops.py_abs d ;;
                        Ops.py_gt_float a InvoiceAuditor.cent)).
        { apply arith_bind; [apply py_sub_arith | intros d].
          apply arith_bind; [apply py_abs_arith | intros a].
          apply py_gt_float_arith. }
        destruct (d <- Ops.py_sub vat expected ;;
                  a <- Ops.py_abs d ;; Ops.py_gt_float a InvoiceAuditor.cent)
          as [off | e |]; simpl in A2; [| | contradiction].
        * destruct off.
          -- exists [Printed (VatMismatch vat expected)], (Ok (VDict data)).
             split; [reflexivity | split; [right; eauto | now left]].
          -- exists [], (Ok (VDict data)). rewrite after_nil.
             split; [reflexivity | split; now left].
        * exists [], (Raise e). rewrite after_nil.
          split; [reflexivity | split; [now left | right]].
          split; [reflexivity|]. destruct A2 as [-> | ->]; auto.
      + exists [], (Raise e). rewrite after_nil.
        split; [reflexivity | split; [now left | right]].
        split; [reflexivity|]. destruct A1 as [-> | ->]; auto.
    - exists [], (Ok (VDict data)). rewrite after_nil.
      split; [reflexivity | split; now left]. }
  destruct K as [tail [o [E [T O]]]].
  exists tail. cbv zeta. rewrite <- after_after. fold w1. rewrite E.
  split; [exact T|].
  destruct O as [-> | [Tn [-> | ->]]]; auto.
Qed.

Lemma validate_result_outcome_witness :
  exists tail,
    let data := [ (u "amount", VInt 100); (u "vat", VInt 30);
                  (u "vat_rate", VInt 20) ] in
    let w' := after Scenario.idle
                (map missing_line
                   (filter (is_missing data) InvoiceAuditor.required_fields)
                 ++ tail) in
    (tail = [] \/ exists vat expected, tail = [Printed (VatMismatch vat expected)])
    /\ (InvoiceAuditor.validate_result data Scenario.idle
        = (Ok (VDict data), w')
        \/ (tail = []
            /\ (InvoiceAuditor.validate_result data Scenario.idle
                = (Raise TypeError, w')
                \/ InvoiceAuditor.validate_result data Scenario.idle
                   = (Raise OverflowError, w')))).
Proof.
  apply (validate_result_outcome
           [ (u "amount", VInt 100); (u "vat", VInt 30);
             (u "vat_rate", VInt 20) ] Scenario.idle); reflexivity.
Defined.

(** ** Tier 3 of the recovery *)

Lemma dict_set_forallb (P : str * value -> bool) (d : list (str * value))
    (k : str) (v : value) :
  forallb P d = true ->
  (forall k', str_eqb k' k = true -> P (k', v) = true) ->
  forallb P (dict_set d k v) = true.
Proof.
  intros Hd Hk. induction d as [| [k' v'] d IH]; simpl.
  - rewrite Hk; [reflexivity | now apply str_eqb_eq].
  - simpl in Hd. apply andb_true_iff in Hd. destruct Hd as [H1 H2].
    destruct (str_eqb k' k) eqn:E; simpl.
    + now rewrite (Hk k' E), H2.
    + now rewrite H1, IH.
Qed.

Lemma salvage_values (json_str : str) (result result' : list (str * value))
    (kp : str * Re.regex) :
  forallb tier3_value result = true ->
  InvoiceAuditor.salvage json_str result kp = Ok result' ->
  forallb tier3_value result' = true.
Proof.
  intros H. unfold InvoiceAuditor.salvage. destruct kp as [key pattern].
  destruct (Re.search pattern json_str) as [[i m] |];
    [| intros E; inversion E; subst; exact H].
  assert (N : forall v, (v = VNone) ->
            forallb tier3_value (dict_set result key v) = true).
  { intros v ->. apply dict_set_forallb; [exact H | reflexivity]. }
  destruct (Re.group m 1) as [[| c v] |];
    try (intros E; inversion E; subst; now apply N).
  destruct (InvoiceAuditor.is_numeric_key key) eqn:K.
  - destruct (Ops.py_float (c :: v)) as [f | e |]; try discriminate.
    + intros E; inversion E; subst.
      apply dict_set_forallb; [exact H|].
      intros k' Hk. apply str_eqb_eq in Hk. subst k'. exact K.
    + destruct (is_ValueError e); [| discriminate].
      intros E; inversion E; subst. now apply N.
  - intros E; inversion E; subst.
    apply dict_set_forallb; [exact H|].
    intros k' Hk. apply str_eqb_eq in Hk. subst k'.
    unfold tier3_value. simpl. now rewrite K.
Qed.

Lemma salvage_all_values (json_str : str) (ps : list (str * Re.regex)) :
  forall result result',
    forallb tier3_value result = true ->
    InvoiceAuditor.salvage_all json_str result ps = Ok result' ->
    forallb tier3_value result' = true.
Proof.
  induction ps as [| kp ps IH]; intros result result' H E;
    cbn [InvoiceAuditor.salvage_all] in E.
  - inversion E; subst; exact H.
  - destruct (InvoiceAuditor.salvage json_str result kp) as [r1 | |] eqn:S;
      try discriminate E.
    cbn [bind] in E. apply (IH r1 result'); [| exact E].
    exact (@salvage_values json_str result r1 kp H S).
Qed.

(** X4. When neither tier 1 nor tier 2 can parse the candidate, the
    record of tier 3 holds, under each of its ten keys, either nothing,
    or a float if the key is amount, vat or vat_rate, or a non-empty
    string otherwise: a number that does not convert, or an empty
    quoted value, leaves the field unset. *)
Theorem tier3_record_values (text : str) (w : world) :
  let candidate := InvoiceAuditor.extract_json_from_text text in
  Json.loads candidate = Raise JSONDecodeError ->
  Json.loads (InvoiceAuditor.repair candidate) = Raise JSONDecodeError ->
  exists result,
    fst (InvoiceAuditor.parse_json_robust text w) = Ok (VDict result)
    /\ map fst result = map fst InvoiceAuditor.empty_result
    /\ forallb tier3_value result = true.
Proof.
  intros candidate H1 H2.
  destruct (tier3_keys (InvoiceAuditor.repair candidate)) as [result [E K]].
  exists result. split; [| split; [exact K|]].
  - unfold InvoiceAuditor.parse_json_robust, InvoiceAuditor.try_json.
    fold candidate.
    unfold try_except at 1. unfold lift at 1. rewrite H1.
    cbn [is_JSONDecodeError].
    unfold mbind at 1. unfold print at 1, emit at 1.
    unfold try_except at 1. unfold lift at 1. rewrite H2.
    cbn [is_JSONDecodeError].
    unfold mbind, lift, ret. rewrite E. reflexivity.
  - apply (@salvage_all_values (InvoiceAuditor.repair candidate)
             InvoiceAuditor.patterns InvoiceAuditor.empty_result result);
      [vm_compute; reflexivity | exact E].
Qed.

Lemma tier3_record_values_witness :
  exists result,
    fst (InvoiceAuditor.parse_json_robust
           (Scenario.dquoted "'amount': 1.2.3, 'vat': 7, 'date': ''")
           Scenario.idle) = Ok (VDict result)
    /\ map fst result = map fst InvoiceAuditor.empty_result
    /\ forallb tier3_value result = true.
Proof.
  apply (tier3_record_values
           (Scenario.dquoted "'amount': 1.2.3, 'vat': 7, 'date': ''")
           Scenario.idle);
    vm_compute; reflexivity.
Defined.

Lemma dict_get_forallb (P : str * value -> bool) (d : list (str * value))
    (k : str) (v : value) :
  forallb P d = true -> dict_get d k = Some v -> P (k, v) = true.
Proof.
  induction d as [| [k' v'] d IH]; simpl; [discriminate|].
  intros H G. apply andb_true_iff in H. destruct H as [H1 H2].
  destruct (str_eqb k' k) eqn:E; [| auto].
  apply str_eqb_eq in E. inversion G; subst. exact H1.
Qed.

(** Under a numeric key a record of tier 3 has nothing or a float. *)
Lemma tier3_numeric_field (d : list (str * value)) (k : str) :
  forallb tier3_value d = true ->
  InvoiceAuditor.is_numeric_key k = true ->
  truthy (dict_get_default d k (VInt 0)) = false
  \/ is_number (dict_get_default d k (VInt 0)) = true.
Proof.
  intros H K. unfold dict_get_default.
  destruct (dict_get d k) as [v |] eqn:G; [| now left].
  pose proof (dict_get_forallb tier3_value d k H G) as T.
  unfold tier3_value in T. simpl in T. rewrite K in T.
  destruct v as [| | | f | [| c s] | |]; try discriminate T;
    [now left | now right].
Qed.

(** X5. The record that tier 3 salvages always passes the validator:
    its three numeric fields are floats or unset, so the arithmetic
    check cannot raise, and the record comes back as it is. *)
Theorem tier3_record_passes_validation (json_str : str) (w : world) :
  exists d es,
    InvoiceAuditor.salvage_all json_str InvoiceAuditor.empty_result
      InvoiceAuditor.patterns = Ok d
    /\ InvoiceAuditor.validate_result d w = (Ok (VDict d), after w es)
    /\ forallb is_validator_line es = true.
Proof.
  destruct (tier3_keys json_str) as [d [E K]].
  assert (T : forallb tier3_value d = true).
  { apply (@salvage_all_values json_str InvoiceAuditor.patterns
             InvoiceAuditor.empty_result d);
      [vm_compute; reflexivity | exact E]. }
  exists d.
  destruct (report_missing_spec d InvoiceAuditor.required_fields w)
    as [es [R Hes]].
  assert (Fes : forallb is_validator_line es = true).
  { apply forallb_forall. intros e He.
    destruct (Hes e He) as [f [-> _]]. reflexivity. }
  set (amount := dict_get_default d (u "amount") (VInt 0)).
  set (vat := dict_get_default d (u "vat") (VInt 0)).
  set (vat_rate := dict_get_default d (u "vat_rate") (VInt 0)).
  destruct (truthy amount && truthy vat && truthy vat_rate) eqn:Tr.
  - apply andb_true_iff in Tr. destruct Tr as [Tr Tr3].
    apply andb_true_iff in Tr. destruct Tr as [Tr1 Tr2].
    assert (Na : is_number amount = true).
    { destruct (tier3_numeric_field d (u "amount") T eq_refl) as [F | N];
        [fold amount in F; congruence | exact N]. }
    assert (Nv : is_number vat = true).
    { destruct (tier3_numeric_field d (u "vat") T eq_refl) as [F | N];
        [fold vat in F; congruence | exact N]. }
    assert (Nr : is_number vat_rate = true).
    { destruct (tier3_numeric_field d (u "vat_rate") T eq_refl) as [F | N];
        [fold vat_rate in F; congruence | exact N]. }
    destruct (vat_check_number _ _ _ Na Nv Nr) as [expected [off [X O]]].
    unfold InvoiceAuditor.validate_result.
    rewrite (mbind_ok _ _ _ R).
    fold amount vat vat_rate. rewrite Tr1, Tr2, Tr3. cbn [andb].
    unfold mbind at 1. unfold mbind at 1. unfold lift at 1. rewrite X.
    unfold mbind at 1. unfold lift at 1. rewrite O.
    destruct off.
    + exists (es ++ [Printed (VatMismatch vat expected)]).
      unfold print, emit, ret. rewrite after_after.
      repeat split; [exact E |]. rewrite forallb_app, Fes. reflexivity.
    + exists es. repeat split; assumption.
  - exists es. rewrite (validate_result_skips _ _ Tr), R.
    repeat split; assumption.
Qed.

Lemma dict_get_set_other (d : list (str * value)) (k k' : str) (v : value) :
  k <> k' -> dict_get (dict_set d k v) k' = dict_get d k'.
Proof.
  intros N. induction d as [| [k0 v0] d IH]; simpl.
  - destruct (str_eqb k k') eqn:E; [apply str_eqb_eq in E; contradiction|].
    reflexivity.
  - destruct (str_eqb k0 k) eqn:E; simpl.
    + apply str_eqb_eq in E. subst k0.
      destruct (str_eqb k k') eqn:E'; [apply str_eqb_eq in E'; contradiction|].
      reflexivity.
    + destruct (str_eqb k0 k'); [reflexivity | exact IH].
Qed.

Lemma salvage_other_key (json_str : str) (result result' : list (str * value))
    (kp : str * Re.regex) (key : str) :
  (fst kp = key -> Re.search (snd kp) json_str = None) ->
  InvoiceAuditor.salvage json_str result kp = Ok result' ->
  dict_get result' key = dict_get result key.
Proof.
  destruct kp as [k pattern]. simpl. intros H.
  unfold InvoiceAuditor.salvage.
  destruct (Re.search pattern json_str) as [[i m] |] eqn:S;
    [| intros E; inversion E; subst; reflexivity].
  assert (N : k <> key) by (intros ->; specialize (H eq_refl); discriminate H).
  destruct (Re.group m 1) as [[| c v] |];
    try (intros E; inversion E; subst; now apply dict_get_set_other).
  destruct (InvoiceAuditor.is_numeric_key k);
    [| intros E; inversion E; subst; now apply dict_get_set_other].
  destruct (Ops.py_float (c :: v)) as [f | e |]; try discriminate.
  - intros E; inversion E; subst; now apply dict_get_set_other.
  - destruct (is_ValueError e); [| discriminate].
    intros E; inversion E; subst; now apply dict_get_set_other.
Qed.

Lemma salvage_all_other_keys (json_str : str) (key : str)
    (ps : list (str * Re.regex)) :
  forall result result',
    (forall kp, In kp ps -> fst kp = key ->
                Re.search (snd kp) json_str = None) ->
    InvoiceAuditor.salvage_all json_str result ps = Ok result' ->
    dict_get result' key = dict_get result key.
Proof.
  induction ps as [| kp ps IH]; intros result result' H E;
    cbn [InvoiceAuditor.salvage_all] in E.
  - inversion E; subst; reflexivity.
  - destruct (InvoiceAuditor.salvage json_str result kp) as [r1 | |] eqn:S;
      try discriminate E.
    cbn [bind] in E.
    rewrite (IH r1 result' (fun kp' Hin => H kp' (or_intror Hin)) E).
    apply (@salvage_other_key json_str result r1 kp key);
      [apply H; now left | exact S].
Qed.

(** X6. The fields of tier 3 are salvaged independently: a key whose
    pattern occurs nowhere in the repaired candidate comes out unset,
    whatever the other nine patterns find. *)
Theorem tier3_unmatched_field_unset (text : str) (w : world) (key : str) :
  let candidate := InvoiceAuditor.extract_json_from_text text in
  Json.loads candidate = Raise JSONDecodeError ->
  Json.loads (InvoiceAuditor.repair candidate) = Raise JSONDecodeError ->
  In key (map fst InvoiceAuditor.empty_result) ->
  (forall pattern, In (key, pattern) InvoiceAuditor.patterns ->
     Re.search pattern (InvoiceAuditor.repair candidate) = None) ->
  exists result,
    fst (InvoiceAuditor.parse_json_robust text w) = Ok (VDict result)
    /\ dict_get result key = Some VNone.
Proof.
  intros candidate H1 H2 Hk Hs.
  destruct (tier3_keys (InvoiceAuditor.repair candidate)) as [result [E K]].
  exists result. split.
  - unfold InvoiceAuditor.parse_json_robust, InvoiceAuditor.try_json.
    fold candidate.
    unfold try_except at 1. unfold lift at 1. rewrite H1.
    cbn [is_JSONDecodeError].
    unfold mbind at 1. unfold print at 1, emit at 1.
    unfold try_except at 1. unfold lift at 1. rewrite H2.
    cbn [is_JSONDecodeError].
    unfold mbind, lift, ret. rewrite E. reflexivity.
  - rewrite (@salvage_all_other_keys (InvoiceAuditor.repair candidate) key
               InvoiceAuditor.patterns InvoiceAuditor.empty_result result).
    + repeat (destruct Hk as [<- | Hk]; [vm_compute; reflexivity|]).
      destruct Hk.
    + intros [k p] Hin Hf. simpl in Hf. subst k. simpl. now apply Hs.
    + exact E.
Qed.

Lemma tier3_unmatched_field_unset_witness :
  exists result,
    fst (InvoiceAuditor.parse_json_robust
           (Scenario.dquoted "'amount': 500 and 'date': '2024-01-01'")
           Scenario.idle) = Ok (VDict result)
    /\ dict_get result (u "vat") = Some VNone.
Proof.
  apply (@tier3_unmatched_field_unset
           (Scenario.dquoted "'amount': 500 and 'date': '2024-01-01'")
           Scenario.idle (u "vat")).
  - vm_compute; reflexivity.
  - vm_compute; reflexivity.
  - vm_compute. tauto.
  - intros pattern Hin. vm_compute in Hin.
    repeat (destruct Hin as [Hin | Hin];
            [ try discriminate Hin;
              inversion Hin; subst; clear Hin; vm_compute; reflexivity
            | ]).
    destruct Hin.
Defined.

(** X7. The parser never lets a [JSONDecodeError] out, and its regex
    tier raises nothing: whatever the parser raises was raised by
    [json.loads], on the candidate with nothing printed, or on the
    repaired candidate after the first call has raised a
    [JSONDecodeError] and its line has been printed; and it is not a
    [JSONDecodeError]. *)
Theorem parse_json_robust_contains_decode_errors (text : str) (w w' : world)
    (e : exn) :
  let candidate := InvoiceAuditor.extract_json_from_text text in
  InvoiceAuditor.parse_json_robust text w = (Raise e, w') ->
  is_JSONDecodeError e = false
  /\ ((Json.loads candidate = Raise e /\ w' = w)
      \/ (exists e1,
            Json.loads candidate = Raise e1
            /\ is_JSONDecodeError e1 = true
            /\ Json.loads (InvoiceAuditor.repair candidate) = Raise e
            /\ w' = after w [Printed JsonDecodeErrorLine])).
Proof.
  intros candidate.
  unfold InvoiceAuditor.parse_json_robust, InvoiceAuditor.try_json.
  fold candidate.
  unfold try_except at 1. unfold lift at 1.
  destruct (Json.loads candidate) as [v | e1 |] eqn:L1; try discriminate.
  destruct (is_JSONDecodeError e1) eqn:D1.
  - unfold mbind at 1. unfold print at 1, emit at 1.
    unfold try_except at 1. unfold lift at 1.
    destruct (Json.loads (InvoiceAuditor.repair candidate))
      as [v | e2 |] eqn:L2; try discriminate.
    destruct (is_JSONDecodeError e2) eqn:D2.
    + destruct (tier3_keys (InvoiceAuditor.repair candidate))
        as [result [E _]].
      unfold mbind, lift, ret. rewrite E. discriminate.
    + unfold raise. intros H. inversion H; subst.
      split; [exact D2 | right]. exists e1. repeat split; assumption.
  - unfold raise. intros H. inversion H; subst.
    split; [exact D1 | left]. split; reflexivity.
Qed.

Lemma parse_json_robust_contains_decode_errors_witness :
  let candidate :=
    InvoiceAuditor.extract_json_from_text Scenario.long_integer in
  is_JSONDecodeError ValueError = false
  /\ ((Json.loads candidate = Raise ValueError
       /\ Scenario.idle = Scenario.idle)
      \/ (exists e1,
            Json.loads candidate = Raise e1
            /\ is_JSONDecodeError e1 = true
            /\ Json.loads (InvoiceAuditor.repair candidate)
               = Raise ValueError
            /\ Scenario.idle
               = after Scenario.idle [Printed JsonDecodeErrorLine])).
Proof.
  refine (@parse_json_robust_contains_decode_errors
            Scenario.long_integer Scenario.idle Scenario.idle ValueError _).
  vm_compute. reflexivity.
Defined.

(** ** The credential exchange *)

(** Every call of [_fetch_token] reads the clock, prints its first line
    and sends one request to the authorization service. *)
Lemma fetch_token_begins (w : world) :
  exists o w' es,
    GigaChatAuth._fetch_token w = (o, w')
    /\ events w' = events w ++ Printed RefreshingToken :: Requested AuthUrl :: es
    /\ sent w' = S (sent w).
Proof.
  assert (Done : forall (o : outcome unit) (w' : world),
    events w' = (events w ++ [Printed RefreshingToken]) ++ [Requested AuthUrl] ->
    sent w' = S (sent w) ->
    exists o0 w0 es,
      (o, w') = (o0, w0)
      /\ events w0
         = events w ++ Printed RefreshingToken :: Requested AuthUrl :: es
      /\ sent w0 = S (sent w)).
  { intros o w' E Sn. exists o, w', []. rewrite E, <- app_assoc.
    split; [reflexivity | split; [reflexivity | exact Sn]]. }
  unfold GigaChatAuth._fetch_token.
  unfold mbind at 1. unfold now at 1. cbv beta iota.
  unfold mbind at 1. unfold print at 1, emit at 1. cbv beta iota.
  unfold mbind at 1. unfold post at 1. cbn [net sent after events].
  destruct (net w (sent w)) as [e0 | status body];
    [apply Done; reflexivity|].
  destruct (negb (status =? 200)%Z); [apply Done; reflexivity|].
  unfold mbind at 1. unfold lift at 1.
  destruct (GigaChatAuth.json_of body) as [data | e |];
    try (apply Done; reflexivity).
  unfold mbind at 1. unfold lift at 1.
  destruct (GigaChatAuth.getitem data (u "access_token")) as [tok | e |];
    try (apply Done; reflexivity).
  unfold mbind at 1. unfold set_token at 1. cbv beta iota.
  unfold mbind at 1.
  destruct data as [| | | | | | d]; try (apply Done; reflexivity).
  destruct (dict_has d (u "expires_at")).
  - unfold lift at 1.
    destruct (v <- GigaChatAuth.getitem (VDict d) (u "expires_at") ;;
              GigaChatAuth.fromtimestamp_ms v) as [e | e |];
      try (apply Done; reflexivity).
    unfold mbind, set_expires_at, print, emit, after. cbn.
    do 3 eexists. split; [reflexivity|]. cbn. rewrite <- !app_assoc.
    split; reflexivity.
  - unfold mbind, now, ret, set_expires_at, print, emit, after. cbn.
    do 3 eexists. split; [reflexivity|]. cbn. rewrite <- !app_assoc.
    split; reflexivity.
Qed.

(** X8. With no token stored, each use of the accessor begins with one
    request to the authorization service, whatever expiry is stored: so
    the turn of the loop that follows a 401, which drops the token,
    starts with a credential exchange. *)
Theorem token_unset_fetches (w : world) :
  truthy (token w) = false ->
  exists es,
    events (snd (GigaChatAuth.token w))
    = events w ++ Printed RefreshingToken :: Requested AuthUrl :: es
    /\ sent (snd (GigaChatAuth.token w)) = S (sent w).
Proof.
  intros T.
  assert (K : exists o w',
            GigaChatAuth.token w = (o, w')
            /\ (exists es, events w' = events w
                   ++ Printed RefreshingToken :: Requested AuthUrl :: es)
            /\ sent w' = S (sent w)).
  { unfold GigaChatAuth.token.
    unfold mbind at 1. unfold get_token at 1. cbv beta iota.
    unfold mbind at 1. unfold get_expires_at at 1. cbv beta iota.
    rewrite T.
    destruct (fetch_token_begins w) as [o [w1 [es [F [E Sn]]]]].
    assert (G : exists o' w',
              mbind GigaChatAuth._fetch_token (fun _ => get_token) w = (o', w')
              /\ (exists es, events w' = events w
                     ++ Printed RefreshingToken :: Requested AuthUrl :: es)
              /\ sent w' = S (sent w)).
    { unfold mbind. rewrite F.
      destruct o as [[] | e |]; do 2 eexists;
        (split; [reflexivity | split; [exists es; exact E | exact Sn]]). }
    destruct (token_expires_at w); exact G. }
  destruct K as [o [w' [E [[es Ev] Sn]]]]. rewrite E. cbn [snd].
  exists es. split; assumption.
Qed.

Lemma token_unset_fetches_witness :
  exists es,
    events (snd (GigaChatAuth.token
                   (Scenario.fresh Scenario.stale_grant Scenario.noon)))
    = events (Scenario.fresh Scenario.stale_grant Scenario.noon)
      ++ Printed RefreshingToken :: Requested AuthUrl :: es
    /\ sent (snd (GigaChatAuth.token
                    (Scenario.fresh Scenario.stale_grant Scenario.noon)))
       = S (sent (Scenario.fresh Scenario.stale_grant Scenario.noon)).
Proof.
  apply (token_unset_fetches
           (Scenario.fresh Scenario.stale_grant Scenario.noon)).
  reflexivity.
Defined.

(** What a failed [_fetch_token] leaves behind. *)
Lemma fetch_token_failure (w w' : world) (e : exn) :
  GigaChatAuth._fetch_token w = (Raise e, w') ->
  token_expires_at w' = token_expires_at w
  /\ (token w' = token w
      \/ exists d tok v,
           net w (sent w) = Reply 200 (Some (VDict d))
           /\ dict_get d (u "access_token") = Some tok
           /\ dict_get d (u "expires_at") = Some v
           /\ GigaChatAuth.fromtimestamp_ms v = Raise e
           /\ token w' = tok).
Proof.
  unfold GigaChatAuth._fetch_token.
  unfold mbind at 1. unfold now at 1. cbv beta iota.
  unfold mbind at 1. unfold print at 1, emit at 1. cbv beta iota.
  unfold mbind at 1. unfold post at 1. cbn [net sent after events].
  destruct (net w (sent w)) as [e0 | status body] eqn:En.
  { intros H. inversion H; subst. split; [reflexivity | left; reflexivity]. }
  destruct (status =? 200)%Z eqn:Es; cbn [negb].
  2:{ unfold raise. intros H. inversion H; subst.
      split; [reflexivity | left; reflexivity]. }
  apply Z.eqb_eq in Es. subst status.
  unfold mbind at 1. unfold lift at 1.
  destruct body as [data |]; cbn [GigaChatAuth.json_of].
  2:{ intros H. inversion H; subst. split; [reflexivity | left; reflexivity]. }
  unfold mbind at 1. unfold lift at 1.
  destruct data as [| | | | | | d]; cbn [GigaChatAuth.getitem];
    try (intros H; inversion H; subst;
         split; [reflexivity | left; reflexivity]).
  destruct (dict_get d (u "access_token")) as [tok |] eqn:Et.
  2:{ intros H. inversion H; subst. split; [reflexivity | left; reflexivity]. }
  unfold mbind at 1. unfold set_token at 1. cbv beta iota.
  unfold mbind at 1. unfold dict_has.
  destruct (dict_get d (u "expires_at")) as [v |] eqn:Ee.
  - unfold lift at 1. unfold bind at 1.
    destruct (GigaChatAuth.fromtimestamp_ms v) as [ms | e1 |] eqn:Ef.
    + unfold mbind, set_expires_at, print, emit, after. cbn. discriminate.
    + intros H. inversion H; subst. split; [reflexivity|].
      right. exists d, tok, v. repeat split; assumption.
    + discriminate.
  - unfold mbind, now, ret, set_expires_at, print, emit, after. cbn.
    discriminate.
Qed.

(** X9. When reading the token property raises, the stored expiry is
    what it was, and so is the stored token, with one exception: a reply
    that carries a token and an expiry that does not convert has its
    token stored already when the conversion raises, beside the expiry
    of the token it replaces. *)
Theorem token_failure_state (w w' : world) (e : exn) :
  GigaChatAuth.token w = (Raise e, w') ->
  token_expires_at w' = token_expires_at w
  /\ (token w' = token w
      \/ exists d tok v,
           net w (sent w) = Reply 200 (Some (VDict d))
           /\ dict_get d (u "access_token") = Some tok
           /\ dict_get d (u "expires_at") = Some v
           /\ GigaChatAuth.fromtimestamp_ms v = Raise e
           /\ token w' = tok).
Proof.
  assert (Fetch : forall w0,
    net w0 = net w -> sent w0 = sent w ->
    token w0 = token w -> token_expires_at w0 = token_expires_at w ->
    mbind GigaChatAuth._fetch_token (fun _ => get_token) w0 = (Raise e, w') ->
    token_expires_at w' = token_expires_at w
    /\ (token w' = token w
        \/ exists d tok v,
             net w (sent w) = Reply 200 (Some (VDict d))
             /\ dict_get d (u "access_token") = Some tok
             /\ dict_get d (u "expires_at") = Some v
             /\ GigaChatAuth.fromtimestamp_ms v = Raise e
             /\ token w' = tok)).
  { intros w0 Hn Hs Ht He H. unfold mbind in H.
    destruct (GigaChatAuth._fetch_token w0) as [[[] | e0 |] w1] eqn:F;
      try discriminate H.
    inversion H; subst; clear H.
    destruct (fetch_token_failure _ F) as [E T].
    rewrite Hn, Hs, Ht, He in *. split; assumption. }
  revert Fetch.
  generalize (token_expires_at w' = token_expires_at w
    /\ (token w' = token w
        \/ exists d tok v,
             net w (sent w) = Reply 200 (Some (VDict d))
             /\ dict_get d (u "access_token") = Some tok
             /\ dict_get d (u "expires_at") = Some v
             /\ GigaChatAuth.fromtimestamp_ms v = Raise e
             /\ token w' = tok)).
  intros G Fetch.
  unfold GigaChatAuth.token.
  unfold mbind at 1. unfold get_token at 1. cbv beta iota.
  unfold mbind at 1. unfold get_expires_at at 1. cbv beta iota.
  destruct (truthy (token w)); [| apply Fetch; reflexivity].
  destruct (token_expires_at w) as [expires_at |] eqn:Ex;
    [| apply Fetch; try reflexivity; exact Ex].
  unfold mbind at 1. unfold mbind at 1. unfold now at 1. cbv beta iota.
  destruct (_ <=? _)%Z.
  - apply Fetch; try reflexivity. exact Ex.
  - unfold ret, get_token. discriminate.
Qed.

Lemma token_failure_state_witness :
  let w := Grant.holding Grant.with_text_expiry Scenario.noon "old" 0 in
  let w' := snd (GigaChatAuth.token w) in
  token_expires_at w' = token_expires_at w
  /\ (token w' = token w
      \/ exists d tok v,
           net w (sent w) = Reply 200 (Some (VDict d))
           /\ dict_get d (u "access_token") = Some tok
           /\ dict_get d (u "expires_at") = Some v
           /\ GigaChatAuth.fromtimestamp_ms v = Raise TypeError
           /\ token w' = tok).
Proof.
  refine (@token_failure_state
            (Grant.holding Grant.with_text_expiry Scenario.noon "old" 0)
            _ TypeError _).
  vm_compute. reflexivity.
Defined.

(** ** How [audit] ends *)

Lemma finishes_ret {A} (a : A) : finishes (ret a).
Proof. intros w. discriminate. Qed.

Lemma finishes_raise {A} (e : exn) : finishes (@raise A e).
Proof. intros w. discriminate. Qed.

Lemma finishes_lift {A} (o : outcome A) :
  o <> Unfinished -> finishes (lift o).
Proof. intros H w. exact H. Qed.

Lemma finishes_emit (e : event) : finishes (emit e).
Proof. intros w. discriminate. Qed.

Lemma finishes_now : finishes now.
Proof. intros w. discriminate. Qed.

Lemma finishes_post (to : endpoint) : finishes (post to).
Proof. intros w. unfold post. destruct (net w (sent w)); discriminate. Qed.

Lemma finishes_get_token : finishes get_token.
Proof. intros w. discriminate. Qed.

Lemma finishes_get_expires_at : finishes get_expires_at.
Proof. intros w. discriminate. Qed.

Lemma finishes_set_token v : finishes (set_token v).
Proof. intros w. discriminate. Qed.

Lemma finishes_set_expires_at t : finishes (set_expires_at t).
Proof. intros w. discriminate. Qed.

Lemma finishes_bind {A B} (m : M A) (f : A -> M B) :
  finishes m -> (forall a, finishes (f a)) -> finishes (mbind m f).
Proof.
  intros Hm Hf w. unfold mbind. specialize (Hm w).
  destruct (m w) as [[a | e |] w1]; simpl in *;
    [apply Hf | discriminate | contradiction].
Qed.

Lemma finishes_try_except {A} (m : M A) (h : exn -> M A) :
  finishes m -> (forall e, finishes (h e)) -> finishes (try_except m h).
Proof.
  intros Hm Hh w. unfold try_except. specialize (Hm w).
  destruct (m w) as [[a | e |] w1]; simpl in *;
    [discriminate | apply Hh | contradiction].
Qed.

Lemma settled_bind {A B} (m : outcome A) (f : A -> outcome B) :
  m <> Unfinished -> (forall a, f a <> Unfinished) -> bind m f <> Unfinished.
Proof.
  intros Hm Hf. destruct m; simpl; [apply Hf | discriminate | contradiction].
Qed.

Lemma arith_settled {A} (o : outcome A) : arith_outcome o -> o <> Unfinished.
Proof. destruct o; simpl; [discriminate | discriminate | contradiction]. Qed.

Ltac finishes_step :=
  match goal with
  | |- finishes (mbind _ _) => apply finishes_bind; [| intros ?]
  | |- finishes (try_except _ _) => apply finishes_try_except; [| intros ?]
  | |- finishes (ret _) => apply finishes_ret
  | |- finishes (raise _) => apply finishes_raise
  | |- finishes (print _) => apply finishes_emit
  | |- finishes (sleep _) => apply finishes_emit
  | |- finishes now => apply finishes_now
  | |- finishes (post _) => apply finishes_post
  | |- finishes get_token => apply finishes_get_token
  | |- finishes get_expires_at => apply finishes_get_expires_at
  | |- finishes (set_token _) => apply finishes_set_token
  | |- finishes (set_expires_at _) => apply finishes_set_expires_at
  | |- finishes (if ?c then _ else _) => destruct c
  | |- finishes (let '(_, _) := ?x in _) => destruct x
  end.

Lemma json_of_settled body : GigaChatAuth.json_of body <> Unfinished.
Proof. destruct body; discriminate. Qed.

Lemma getitem_settled data key :
  GigaChatAuth.getitem data key <> Unfinished.
Proof.
  destruct data; simpl; try discriminate.
  destruct (dict_get _ _); discriminate.
Qed.

Lemma fromtimestamp_ms_settled v :
  GigaChatAuth.fromtimestamp_ms v <> Unfinished.
Proof.
  unfold GigaChatAuth.fromtimestamp_ms. apply settled_bind.
  - destruct (Ops.as_int v); [discriminate|].
    destruct v; try discriminate.
    unfold GigaChatAuth.float_to_Z. destruct f; discriminate.
  - intros ms. destruct (_ && _); discriminate.
Qed.

Lemma fetch_token_finishes : finishes GigaChatAuth._fetch_token.
Proof.
  unfold GigaChatAuth._fetch_token.
  apply finishes_bind; [apply finishes_now | intros _].
  apply finishes_bind; [apply finishes_emit | intros _].
  apply finishes_bind; [apply finishes_post | intros [status body]].
  destruct (negb _); [apply finishes_raise|].
  apply finishes_bind; [apply finishes_lift, json_of_settled | intros data].
  apply finishes_bind; [apply finishes_lift, getitem_settled | intros tok].
  apply finishes_bind; [apply finishes_set_token | intros _].
  apply finishes_bind; [| intros expires; repeat finishes_step].
  destruct data as [| | | | | | d]; try apply finishes_raise.
  destruct (dict_has d _).
  - apply finishes_lift, settled_bind;
      [apply getitem_settled | intros; apply fromtimestamp_ms_settled].
  - repeat finishes_step.
Qed.

Lemma token_finishes : finishes GigaChatAuth.token.
Proof.
  unfold GigaChatAuth.token.
  apply finishes_bind; [apply finishes_get_token | intros tok].
  apply finishes_bind; [apply finishes_get_expires_at | intros exp].
  apply finishes_bind; [| intros _; apply finishes_get_token].
  destruct (truthy tok); [| apply fetch_token_finishes].
  destruct exp; [| apply fetch_token_finishes].
  apply finishes_bind; [apply finishes_now | intros t].
  destruct (_ <=? _)%Z; [apply fetch_token_finishes | apply finishes_ret].
Qed.

Lemma report_missing_finishes data fields :
  finishes (InvoiceAuditor.report_missing data fields).
Proof.
  intros w. rewrite report_missing_exact. discriminate.
Qed.

Lemma validate_result_finishes data :
  finishes (InvoiceAuditor.validate_result data).
Proof.
  unfold InvoiceAuditor.validate_result.
  apply finishes_bind; [apply report_missing_finishes | intros _].
  apply finishes_bind; [| intros _; apply finishes_ret].
  destruct (_ && _); [| apply finishes_ret].
  apply finishes_bind; [| intros expected].
  { apply finishes_lift, arith_settled.
    apply arith_bind; [apply py_mul_arith | intros p].
    apply arith_bind; [apply py_truediv_int_arith | intros q].
    apply py_round2_arith. }
  apply finishes_bind; [| intros off].
  { apply finishes_lift, arith_settled.
    apply arith_bind; [apply py_sub_arith | intros d].
    apply arith_bind; [apply py_abs_arith | intros x].
    apply py_gt_float_arith. }
  destruct off; [apply finishes_emit | apply finishes_ret].
Qed.

Lemma parse_json_robust_finishes text :
  finishes (InvoiceAuditor.parse_json_robust text).
Proof.
  intros w. destruct (parse_json_robust_outcome text w) as [w' [[v E] | E]];
    rewrite E; discriminate.
Qed.

Lemma parse_reply_finishes v : finishes (InvoiceAuditor.parse_reply v).
Proof.
  unfold InvoiceAuditor.parse_reply.
  apply finishes_bind; [| intros result].
  { destruct v; try apply finishes_raise. apply parse_json_robust_finishes. }
  apply finishes_bind; [| intros empty].
  { apply finishes_lift. unfold InvoiceAuditor.is_empty_result.
    destruct (negb (truthy result)); [discriminate|].
    destruct result; discriminate. }
  destruct empty; [apply finishes_raise|].
  destruct result; try apply finishes_raise.
  apply finishes_bind; [apply validate_result_finishes | intros r].
  apply finishes_ret.
Qed.

Lemma attempt_try_finishes text attempt :
  finishes (InvoiceAuditor.attempt_try text attempt).
Proof.
  unfold InvoiceAuditor.attempt_try, InvoiceAuditor.raise_for_status.
  apply finishes_bind; [apply token_finishes | intros _].
  apply finishes_bind; [apply finishes_post | intros [status body]].
  destruct (status =? 401)%Z; [repeat finishes_step|].
  apply finishes_bind; [repeat finishes_step | intros _].
  apply finishes_bind; [| intros result_text].
  { apply finishes_lift. unfold InvoiceAuditor.content_of.
    apply settled_bind; [apply json_of_settled | intros data].
    apply settled_bind; [apply getitem_settled | intros choices].
    apply settled_bind;
      [destruct choices as [| | | | [|] | [|] |]; discriminate | intros choice].
    apply settled_bind; [apply getitem_settled | intros message].
    apply getitem_settled. }
  apply finishes_bind;
    [apply finishes_lift; destruct result_text; discriminate | intros _].
  apply finishes_bind; [apply finishes_emit | intros _].
  apply finishes_try_except; [apply parse_reply_finishes | intros e].
  apply finishes_bind; [apply finishes_emit | intros _].
  destruct (Nat.eqb attempt 2); [| repeat finishes_step].
  apply finishes_bind;
    [apply finishes_lift; destruct result_text; discriminate | intros _].
  repeat finishes_step.
Qed.

Lemma escapes_after (e : exn) (es1 es2 : list event) :
  escapes e es2 -> escapes e (es1 ++ es2).
Proof.
  intros [T [N | [es' E]]]; split; auto.
  right. exists (es1 ++ es'). rewrite E. apply app_assoc.
Qed.

Lemma attempt_body_ends text attempt :
  ends (InvoiceAuditor.attempt_body text attempt).
Proof.
  intros w. unfold InvoiceAuditor.attempt_body, try_except.
  destruct (attempt_try_emits text attempt w) as [es1 [E1 _]].
  pose proof (attempt_try_finishes text attempt w) as F.
  destruct (InvoiceAuditor.attempt_try text attempt w) as [[r | e |] w1];
    simpl in E1, F.
  - exists es1. split; [exact E1 | exact I].
  - unfold InvoiceAuditor.attempt_except.
    destruct (is_Timeout e) eqn:T.
    + exists (es1 ++ [Printed (TimeoutLine (attempt + 1)); Slept 2]).
      unfold mbind, print, sleep, emit, ret, after. simpl.
      rewrite E1, <- !app_assoc. split; [reflexivity | exact I].
    + destruct (Nat.eqb attempt 2).
      * exists (es1 ++ [Printed ErrorLine]).
        unfold mbind, print, emit, raise, after. simpl.
        rewrite E1, <- app_assoc. split; [reflexivity|].
        split; [exact T | right; now exists es1].
      * exists (es1 ++ [Printed ErrorLine; Slept 1]).
        unfold mbind, print, sleep, emit, ret, after. simpl.
        rewrite E1, <- !app_assoc. split; [reflexivity | exact I].
  - contradiction.
Qed.

Lemma attempts_loop_ends text attempts :
  ends (InvoiceAuditor.attempts_loop text attempts).
Proof.
  induction attempts as [| attempt attempts IH]; intros w; simpl.
  - exists []. rewrite app_nil_r. split; [reflexivity|].
    split; [reflexivity | now left].
  - unfold mbind.
    destruct (attempt_body_ends text attempt w) as [es1 [E1 O1]].
    destruct (InvoiceAuditor.attempt_body text attempt w) as [[r | e |] w1];
      simpl in E1, O1.
    + destruct r as [v |].
      * exists es1. split; [exact E1 | exact I].
      * destruct (IH w1) as [es2 [E2 O2]].
        exists (es1 ++ es2). rewrite E2, E1, <- app_assoc.
        split; [reflexivity|].
        destruct (fst (InvoiceAuditor.attempts_loop text attempts w1));
          [exact I | now apply escapes_after | exact O2].
    + exists es1. split; [exact E1 | exact O1].
    + contradiction.
Qed.

(** X10. A call of [audit] always comes to an end, and no timeout
    escapes from it. It returns; or [extract_text] raises, and then the
    call ends with that error before anything is sent, slept or printed
    by the loop; or it raises the error of the end of the loop; or it
    raises an error that is not a timeout and that the last handler has
    reported in the line printed last. *)
Theorem audit_ends (g : Globals.globals) (doc : PDFProcessor.document)
    (w : world) :
  let w' := snd (snd (Pipeline.audit g doc w)) in
  exists es,
    events w' = events w ++ es
    /\ match fst (snd (Pipeline.audit g doc w)) with
       | Pipeline.Returned _ => True
       | Pipeline.ExtractionFailed e =>
           snd (PDFProcessor.extract_text g doc) = PDFProcessor.Raised _ e
           /\ w' = w
           /\ ~ In Pipeline.CleaningText (fst (Pipeline.audit g doc w))
       | Pipeline.Raised e =>
           is_Timeout e = false
           /\ (e = NoAnswerAfter3Attempts
               \/ exists es', es = es' ++ [Printed ErrorLine])
       | Pipeline.Unfinished => False
       end.
Proof.
  unfold Pipeline.audit.
  destruct (PDFProcessor.extract_text g doc) as [out [text | e]].
  - unfold InvoiceAuditor.audit.
    destruct (attempts_loop_ends (TextCleaner.clean_pdf_text text)
                (seq 0 3) w) as [es [E O]].
    destruct (InvoiceAuditor.attempts_loop
                (TextCleaner.clean_pdf_text text) (seq 0 3) w)
      as [[v | e |] w1]; cbn [fst snd] in *; exists es;
      (split; [exact E | exact O]).
  - cbn [fst snd]. exists []. rewrite app_nil_r.
    split; [reflexivity|]. split; [reflexivity|]. split; [reflexivity|].
    intros I. apply in_map_iff in I. destruct I as [l [D _]].
    discriminate D.
Qed.

(** ** Runs of white space *)

Section Spacing.
Import Re.


Lemma lit_char (c : char) (B : Type) (st : state) (k' : state -> option B) :
  run (Lit c) st k'
  = match rest st with
    | x :: s' =>
        if chr_eqb x c then k' (mkState (x :: before st) s' (caps st)) else None
    | [] => None
    end.
Proof. destruct st as [bef s cs]. destruct s; reflexivity. Qed.

Lemma cls_char (items : list item) (B : Type) (st : state)
    (k' : state -> option B) :
  run (Cls items) st k'
  = match rest st with
    | x :: s' =>
        if in_class items x then k' (mkState (x :: before st) s' (caps st))
        else None
    | [] => None
    end.
Proof. destruct st as [bef s cs]. destruct s; reflexivity. Qed.

Lemma lead_le (p : char -> bool) (s : str) : lead p s <= List.length s.
Proof.
  induction s as [| x s IH]; simpl; [lia|]. destruct (p x); simpl; lia.
Qed.

Lemma lead_skipn (p : char -> bool) (s : str) :
  lead p (skipn (lead p s) s) = 0.
Proof.
  induction s as [| x s IH]; simpl; [reflexivity|].
  destruct (p x) eqn:E; simpl; [exact IH | now rewrite E].
Qed.

Lemma lead_ext (p q : char -> bool) (s : str) :
  (forall x, p x = q x) -> lead p s = lead q s.
Proof.
  intros H. induction s as [| x s IH]; simpl; [reflexivity|].
  rewrite H, IH. reflexivity.
Qed.

Section CharRun.

Variable r1 : regex.
Variable p : char -> bool.
Hypothesis r1_char :
  forall (B : Type) (st : state) (k' : state -> option B),
    run r1 st k'
    = match rest st with
      | x :: s' =>
          if p x then k' (mkState (x :: before st) s' (caps st)) else None
      | [] => None
      end.

(** A greedy repetition of a one-character pattern, followed by
    something that cannot fail, takes the whole run. *)
Lemma star_char (A : Type) (k : state -> option A) (st : state) :
  (forall st', k st' <> None) ->
  exists bef',
    run (Star r1) st k
    = k (mkState bef' (skipn (lead p (rest st)) (rest st)) (caps st)).
Proof.
  intros Hk. cbn [run].
  remember (List.length (rest st)) as n eqn:En.
  assert (L : List.length (rest st) <= n) by lia. clear En.
  revert st L. induction n as [| n IH]; intros st L.
  - destruct st as [bef s cs]. simpl in *.
    destruct s; [| simpl in L; lia]. exists bef. reflexivity.
  - rewrite r1_char. destruct st as [bef s cs]. cbn [rest before caps] in *.
    destruct s as [| x s']; [exists bef; reflexivity|].
    cbn [lead skipn]. destruct (p x).
    + cbn [rest List.length].
      assert (T : Nat.ltb (List.length s') (S (List.length s')) = true)
        by (apply Nat.ltb_lt; lia).
      rewrite T.
      destruct (IH (mkState (x :: bef) s' cs)) as [bef' E];
        [simpl in *; lia|].
      cbn [rest before caps] in E. rewrite E. exists bef'.
      cbn [skipn].
      destruct (k _) eqn:K; [reflexivity | exfalso; eapply Hk; eauto].
    + exists bef. reflexivity.
Qed.

End CharRun.

Lemma match_at_spaces (bef s : str) :
  match_at (Seq (Lit (ch " ")) (Plus (Lit (ch " ")))) bef s false
  = if 2 <=? lead is_space s then Some (mkMatch (lead is_space s) [])
    else None.
Proof.
  unfold match_at, Plus.
  match goal with
  | |- run (Seq ?a (Seq ?b ?c)) ?st ?k = _ =>
      change (run (Seq a (Seq b c)) st k)
        with (run a st (fun st' => run b st' (fun st'' => run c st'' k)));
      set (final := k)
  end.
  rewrite lit_char. cbn [rest before caps].
  destruct s as [| x s1]; [reflexivity|].
  unfold is_space. cbn [lead].
  destruct (chr_eqb x (ch " ")); [| reflexivity].
  rewrite lit_char. cbn [rest before caps].
  destruct s1 as [| y s2]; [reflexivity|].
  cbn [lead]. destruct (chr_eqb y (ch " ")); [| reflexivity].
  destruct (@star_char (Lit (ch " ")) (fun c => chr_eqb c (ch " "))
              (lit_char (ch " ")) _ final
              (mkState (y :: x :: bef) s2 [])) as [bef' E].
  { intros st'. unfold final. simpl. discriminate. }
  rewrite E. unfold final. cbn [rest caps andb].
  rewrite length_skipn.
  pose proof (lead_le (fun c => chr_eqb c (ch " ")) s2) as L.
  replace (List.length (x :: y :: s2)
           - (List.length s2 - lead (fun c => chr_eqb c (ch " ")) s2))
    with (S (S (lead (fun c => chr_eqb c (ch " ")) s2)))
    by (cbn [List.length]; lia).
  reflexivity.
Qed.

Lemma match_at_ws (bef s : str) :
  match_at ws_plus bef s false
  = if 1 <=? lead (in_class [Space]) s
    then Some (mkMatch (lead (in_class [Space]) s) [])
    else None.
Proof.
  unfold match_at, ws_plus, Plus, ws.
  match goal with
  | |- run (Seq ?a ?c) ?st ?k = _ =>
      change (run (Seq a c) st k)
        with (run a st (fun st' => run c st' k));
      set (final := k)
  end.
  rewrite cls_char. cbn [rest before caps].
  destruct s as [| x s1]; [reflexivity|].
  cbn [lead]. destruct (in_class [Space] x); [| reflexivity].
  destruct (@star_char (Cls [Space]) (in_class [Space])
              (cls_char [Space]) _ final
              (mkState (x :: bef) s1 [])) as [bef' E].
  { intros st'. unfold final. simpl. discriminate. }
  rewrite E. unfold final. cbn [rest caps andb].
  rewrite length_skipn.
  pose proof (lead_le (in_class [Space]) s1) as L.
  replace (List.length (x :: s1)
           - (List.length s1 - lead (in_class [Space]) s1))
    with (S (lead (in_class [Space]) s1))
    by (cbn [List.length]; lia).
  reflexivity.
Qed.

(** *** Replacing the runs by one character *)
Section Squeeze.

Variable r : regex.
Variable p : char -> bool.
Variable c : char.
Variable least : nat.
Variable tpl : list titem.
Hypothesis r_match :
  forall bef s,
    match_at r bef s false
    = if least <=? lead p s then Some (mkMatch (lead p s) []) else None.
Hypothesis least_bounds : 1 <= least <= 2.
Hypothesis short_run : forall x, least = 2 -> p x = true -> x = c.
Hypothesis tpl_c : forall m, expand tpl m = [c].

Lemma sub_from_skip (s : str) :
  forall (k : nat) (bef : str),
    k <= List.length s ->
    exists bef', sub_from r tpl bef s k = sub_from r tpl bef' (skipn k s) 0.
Proof.
  induction s as [| x s IH]; intros [| k] bef L; simpl in L.
  - exists bef. reflexivity.
  - lia.
  - exists bef. reflexivity.
  - cbn [sub_from skipn]. apply IH. lia.
Qed.

Lemma sub_from_single (n : nat) :
  forall (s bef : str),
    List.length s <= n ->
    single p c (sub_from r tpl bef s 0)
    /\ (lead p s = 0 -> lead p (sub_from r tpl bef s 0) = 0).
Proof.
  assert (Empty : forall bef,
            single p c (sub_from r tpl bef [] 0)
            /\ (lead p [] = 0 -> lead p (sub_from r tpl bef [] 0) = 0)).
  { intros bef. cbn [sub_from]. rewrite r_match.
    destruct (Nat.leb_spec least (lead p [])) as [H | H];
      [simpl in H; lia | simpl; auto]. }
  induction n as [| n IH]; intros s bef L.
  - destruct s; [apply Empty | simpl in L; lia].
  - destruct s as [| x s']; [apply Empty|].
    cbn [sub_from]. rewrite r_match.
    destruct (Nat.leb_spec least (lead p (x :: s'))) as [H | H].
    + cbn [span].
      destruct (lead p (x :: s')) as [| n0] eqn:El; [lia|].
      rewrite tpl_c.
      destruct (@sub_from_skip s' n0 (x :: bef)) as [bef' E].
      { pose proof (lead_le p (x :: s')) as B. rewrite El in B.
        simpl in B. lia. }
      rewrite E.
      assert (K : skipn n0 s' = skipn (lead p (x :: s')) (x :: s'))
        by (rewrite El; reflexivity).
      destruct (IH (skipn n0 s') bef') as [S1 S2].
      { rewrite length_skipn. simpl in L. lia. }
      assert (Z0 : lead p (skipn n0 s') = 0)
        by (rewrite K; apply lead_skipn).
      split; [| discriminate].
      simpl. split; [| exact S1].
      intros _. split; [reflexivity | apply S2; exact Z0].
    + destruct (IH s' (x :: bef)) as [S1 S2]; [simpl in L; lia|].
      split.
      * simpl. split; [| exact S1].
        intros Px. simpl in H. rewrite Px in H.
        assert (Z0 : lead p s' = 0) by lia.
        split; [apply short_run; [lia | exact Px] | apply S2; exact Z0].
      * simpl. destruct (p x); [discriminate | reflexivity].
Qed.

Lemma sub_single (s : str) : single p c (sub r tpl s).
Proof.
  unfold sub. apply (sub_from_single (n := List.length s)). lia.
Qed.

End Squeeze.

Lemma single_app (p : char -> bool) (c : char) (a : str) (x : char) (b : str) :
  single p c (a ++ x :: b) -> p x = true -> x = c /\ lead p b = 0.
Proof.
  induction a as [| y a IH]; simpl; intros [H1 H2] Px; auto.
Qed.

Lemma single_suffix (p : char -> bool) (c : char) (a b : str) :
  single p c (a ++ b) -> single p c b.
Proof.
  induction a as [| y a IH]; simpl; [auto | intros [_ H]; auto].
Qed.

Lemma single_prefix (p : char -> bool) (c : char) (a b : str) :
  single p c (a ++ b) -> single p c a.
Proof.
  induction a as [| y a IH]; simpl; [auto|].
  intros [H1 H2]. split; [| apply IH; exact H2].
  intros Py. destruct (H1 Py) as [E Z]. split; [exact E|].
  destruct a as [| z a]; simpl in *; [reflexivity|].
  destruct (p z); [discriminate | reflexivity].
Qed.

(** *** [strip] *)

Lemma lstrip_suffix (s : str) : exists a, s = a ++ lstrip s.
Proof.
  induction s as [| x s [a E]]; simpl; [now exists []|].
  destruct (isspace x); [| now exists []].
  exists (x :: a). simpl. now rewrite <- E.
Qed.

Lemma lstrip_head (s : str) (x : char) (t : str) :
  lstrip s = x :: t -> isspace x = false.
Proof.
  induction s as [| y s IH]; simpl; [discriminate|].
  destruct (isspace y) eqn:E; [exact IH|].
  intros H. inversion H; subst. exact E.
Qed.

Lemma lstrip_keeps_last (s : str) (y : char) :
  isspace y = false -> exists a, lstrip (s ++ [y]) = a ++ [y].
Proof.
  intros Hy. induction s as [| x s [a E]]; simpl.
  - rewrite Hy. now exists [].
  - destruct (isspace x); [now exists a|].
    now exists (x :: s).
Qed.

Lemma strip_within (s : str) : exists a b, s = a ++ strip s ++ b.
Proof.
  unfold strip, rstrip.
  destruct (lstrip_suffix s) as [a Ea].
  destruct (lstrip_suffix (rev (lstrip s))) as [b Eb].
  exists a, (rev b). rewrite Ea at 1. f_equal.
  rewrite <- rev_app_distr, <- Eb, rev_involutive. reflexivity.
Qed.

Lemma strip_last (s t : str) (x : char) :
  strip s = t ++ [x] -> isspace x = false.
Proof.
  unfold strip, rstrip. intros H.
  apply (f_equal (@rev char)) in H.
  rewrite rev_involutive, rev_app_distr in H. simpl in H.
  exact (lstrip_head _ H).
Qed.

Lemma strip_head (s : str) (x : char) (t : str) :
  strip s = x :: t -> isspace x = false.
Proof.
  unfold strip, rstrip.
  destruct (lstrip s) as [| y t'] eqn:E; [simpl; discriminate|].
  pose proof (lstrip_head _ E) as Hy.
  simpl rev.
  destruct (@lstrip_keeps_last (rev t') y Hy) as [a Ea].
  rewrite Ea, rev_app_distr. simpl.
  intros H. inversion H; subst. exact Hy.
Qed.

Lemma single_strip (p : char -> bool) (c : char) (s : str) :
  single p c s -> single p c (strip s).
Proof.
  intros H. destruct (strip_within s) as [a [b E]].
  rewrite E in H. apply single_suffix in H. now apply single_prefix in H.
Qed.

(** X11. The cleaned text neither starts nor ends with white space, and
    nowhere in it do two spaces follow each other. *)
Theorem clean_pdf_text_spacing (text : str) :
  let t := TextCleaner.clean_pdf_text text in
  (forall x rest, t = x :: rest -> isspace x = false)
  /\ (forall front x, t = front ++ [x] -> isspace x = false)
  /\ (forall front rest, t <> front ++ ch " " :: ch " " :: rest).
Proof.
  unfold TextCleaner.clean_pdf_text. cbv zeta.
  match goal with
  | |- context [strip (sub ?r ?tpl ?x)] => generalize x; intros inner
  end.
  split; [intros x rest; apply strip_head|].
  split; [intros front x; apply strip_last|].
  intros front rest E.
  assert (S1 : single is_space (ch " ")
                 (strip (sub (Seq (Lit (ch " ")) (Plus (Lit (ch " "))))
                           [TLit (u " ")] inner))).
  { apply single_strip.
    apply (@sub_single _ is_space (ch " ") 2 _ match_at_spaces).
    - lia.
    - intros x _ Hx. apply N.eqb_eq in Hx. exact Hx.
    - intros m. reflexivity. }
  rewrite E in S1.
  destruct (single_app _ _ _ _ _ S1) as [_ Z]; [reflexivity|].
  simpl in Z. discriminate Z.
Qed.

(** X12. When the text has an opening brace before its last closing
    brace, the candidate holds no white space but single spaces: every
    white-space character in it is a space, and the character after it
    is not white space. *)
Theorem extract_json_with_braces_spacing (text : str) :
  let t := InvoiceAuditor.unfenced text in
  (0 <= find t (ch "{") < rfind t (ch "}"))%Z ->
  let candidate := InvoiceAuditor.extract_json_from_text text in
  (forall front x rest,
     candidate = front ++ x :: rest -> isspace x = true -> x = ch " ")
  /\ (forall front x y rest,
        candidate = front ++ x :: y :: rest ->
        isspace x = true -> isspace y = false).
Proof.
  intros t [H1 H2]. unfold InvoiceAuditor.extract_json_from_text. fold t.
  apply Z.leb_le in H1. apply Z.ltb_lt in H2. rewrite H1, H2. cbn [andb].
  unfold InvoiceAuditor.collapse. cbv zeta.
  match goal with
  | |- context [sub ws_plus ?tpl ?x] => generalize x; intros inner
  end.
  assert (C : forall x, in_class [Space] x = isspace x)
    by (intros x; unfold in_class; simpl; apply orb_false_r).
  assert (S1 : single (in_class [Space]) (ch " ")
                 (sub ws_plus [TLit (u " ")] inner)).
  { apply (@sub_single _ (in_class [Space]) (ch " ") 1 _ match_at_ws).
    - lia.
    - intros x F. discriminate F.
    - intros m. reflexivity. }
  split.
  - intros front x rest E Hx. rewrite E in S1.
    apply (single_app _ _ _ _ _ S1). now rewrite C.
  - intros front x y rest E Hx. rewrite E in S1.
    destruct (single_app _ _ _ _ _ S1) as [_ Z]; [now rewrite C|].
    cbn [lead] in Z. rewrite C in Z.
    destruct (isspace y); [discriminate | reflexivity].
Qed.

Lemma extract_json_with_braces_spacing_witness :
  let candidate :=
    InvoiceAuditor.extract_json_from_text
      (u "so: {" ++ [nl; nl] ++ u " 'a' :   1 } .") in
  (forall front x rest,
     candidate = front ++ x :: rest -> isspace x = true -> x = ch " ")
  /\ (forall front x y rest,
        candidate = front ++ x :: y :: rest ->
        isspace x = true -> isspace y = false).
Proof.
  apply (extract_json_with_braces_spacing
           (u "so: {" ++ [nl; nl] ++ u " 'a' :   1 } .")).
  split; [vm_compute; discriminate | vm_compute; reflexivity].
Defined.

End Spacing.

(** ** Reading a document *)

Lemma lstrip_blank (s : str) : blank s = true -> lstrip s = [].
Proof.
  induction s as [| x s IH]; simpl; [reflexivity|].
  destruct (isspace x); simpl; [exact IH | discriminate].
Qed.

Lemma lstrip_not_blank (s : str) :
  blank s = false -> exists y t, lstrip s = y :: t /\ isspace y = false.
Proof.
  induction s as [| x s IH]; simpl; [discriminate|].
  destruct (isspace x) eqn:E; simpl; [exact IH|].
  intros _. now exists x, s.
Qed.

Lemma strip_blank (s : str) : Globals.empty (strip s) = blank s.
Proof.
  destruct (blank s) eqn:B.
  - unfold strip, rstrip. rewrite (lstrip_blank s B). reflexivity.
  - destruct (lstrip_not_blank s B) as [y [t [E Hy]]].
    unfold strip, rstrip. rewrite E. simpl rev.
    destruct (@lstrip_keeps_last (rev t) y Hy) as [a Ea].
    rewrite Ea, rev_app_distr. reflexivity.
Qed.

Lemma blank_app (a b : str) : blank (a ++ b) = blank a && blank b.
Proof. apply forallb_app. Qed.

Lemma blank_joined (texts : list str) :
  blank (joined texts) = forallb blank texts.
Proof.
  induction texts as [| t ts IH]; simpl; [reflexivity|].
  rewrite !blank_app, IH. simpl. rewrite andb_true_r. reflexivity.
Qed.

Lemma page_has_text (t : str) :
  negb (Globals.empty t) && negb (Globals.empty (strip t)) = has_text t.
Proof.
  rewrite strip_blank. unfold has_text.
  destruct t; reflexivity.
Qed.

Lemma joined_app (a b : list str) : joined (a ++ b) = joined a ++ joined b.
Proof. apply flat_map_app. Qed.

(** The loop over the embedded text gathers the pages that have text,
    and prints lines of its own only. *)
Lemma read_embedded_gathers (ps : PDFProcessor.pages str) :
  forall (i : nat) (text : str),
    snd (PDFProcessor.read_embedded ps i text)
    = text ++ joined (filter has_text (before_break ps))
    /\ ~ In PDFProcessor.UsingOcr (fst (PDFProcessor.read_embedded ps i text)).
Proof.
  induction ps as [| | page_text more IH]; intros i text.
  - simpl. rewrite app_nil_r. split; [reflexivity | tauto].
  - simpl. rewrite app_nil_r. split; [reflexivity|].
    intros [H | []]. discriminate H.
  - cbn [PDFProcessor.read_embedded before_break filter].
    rewrite page_has_text. destruct (has_text page_text).
    + destruct (IH (S i) (text ++ page_text ++ [nl])) as [E N].
      destruct (PDFProcessor.read_embedded more (S i) _) as [out text'].
      simpl in *. rewrite E, <- !app_assoc. split; [reflexivity|].
      intros [H | H]; [discriminate H | exact (N H)].
    + destruct (IH (S i) text) as [E N].
      destruct (PDFProcessor.read_embedded more (S i) text) as [out text'].
      simpl in *. split; [exact E|].
      intros [H | H]; [discriminate H | exact (N H)].
Qed.

Lemma forallb_blank_filter (texts : list str) :
  forallb blank (filter has_text texts) = negb (existsb has_text texts).
Proof.
  induction texts as [| t ts IH]; [reflexivity|].
  cbn [filter existsb]. destruct (has_text t) eqn:B.
  - cbn [forallb orb negb]. unfold has_text in B.
    destruct (blank t); [discriminate B | reflexivity].
  - cbn [orb]. exact IH.
Qed.

(** X13. When some page read before any failure of the reader has
    embedded text, [extract_text] returns the embedded text of the pages
    that have some, a line feed after each, and no OCR is attempted,
    whatever renderer is there. *)
Theorem extract_text_prefers_embedded (g : Globals.globals)
    (doc : PDFProcessor.document) :
  PDFProcessor.present doc = true ->
  existsb has_text (before_break (PDFProcessor.embedded doc)) = true ->
  exists out,
    PDFProcessor.extract_text g doc
    = (out, PDFProcessor.Returned
              (joined (filter has_text
                         (before_break (PDFProcessor.embedded doc)))))
    /\ ~ In PDFProcessor.UsingOcr out.
Proof.
  intros P H. unfold PDFProcessor.extract_text. rewrite P. cbn [negb].
  destruct (read_embedded_gathers (PDFProcessor.embedded doc) 0 [])
    as [E N].
  destruct (PDFProcessor.read_embedded (PDFProcessor.embedded doc) 0 [])
    as [out text].
  cbn [fst snd app] in E, N. subst text.
  set (text := joined (filter has_text
                         (before_break (PDFProcessor.embedded doc)))).
  assert (B : Globals.empty (strip text) = false).
  { rewrite strip_blank. unfold text.
    rewrite blank_joined, forallb_blank_filter, H. reflexivity. }
  rewrite B. unfold PDFProcessor.finish. rewrite B.
  eexists. split; [reflexivity|].
  intros I. apply in_app_or in I. destruct I as [I | [I | []]].
  - destruct I as [I | [I | I]]; [discriminate I | discriminate I | exact (N I)].
  - discriminate I.
Qed.

Lemma extract_text_prefers_embedded_witness :
  exists out,
    PDFProcessor.extract_text (Globals.loaded false)
      (Paper.born_digital (u "Total 5"))
    = (out, PDFProcessor.Returned
              (joined (filter has_text
                         (before_break
                            (PDFProcessor.embedded
                               (Paper.born_digital (u "Total 5")))))))
    /\ ~ In PDFProcessor.UsingOcr out.
Proof.
  apply (extract_text_prefers_embedded (Globals.loaded false)
           (Paper.born_digital (u "Total 5")));
    vm_compute; reflexivity.
Defined.

Lemma closed_app (a b : str) : closed a -> closed b -> closed (a ++ b).
Proof.
  intros Ha [-> | [t ->]]; [now rewrite app_nil_r|].
  right. exists (a ++ t). now rewrite app_assoc.
Qed.

Lemma closed_joined (texts : list str) : closed (joined texts).
Proof.
  induction texts as [| t ts IH]; [now left|].
  change (joined (t :: ts)) with ((t ++ [nl]) ++ joined ts).
  apply closed_app; [right; now exists t | exact IH].
Qed.

Lemma ocr_mupdf_gathers (ps : PDFProcessor.pages (option str)) :
  forall (i : nat) (text : str),
    snd (PDFProcessor.ocr_mupdf ps i text)
    = text ++ joined (recognised (before_break ps)).
Proof.
  induction ps as [| | page more IH]; intros i text;
    try (simpl; now rewrite app_nil_r).
  destruct page as [page_text |]; [| simpl; now rewrite app_nil_r].
  cbn [PDFProcessor.ocr_mupdf before_break recognised].
  specialize (IH (S i) (text ++ page_text ++ [nl])).
  destruct (PDFProcessor.ocr_mupdf more (S i) _) as [out text'].
  simpl in *. rewrite IH, <- !app_assoc. reflexivity.
Qed.

Lemma ocr_rendered_gathers (images : list (option str)) :
  forall (i : nat) (text : str),
    match snd (PDFProcessor.ocr_rendered images i text) with
    | PDFProcessor.Returned t => t = text ++ joined (recognised images)
    | PDFProcessor.Raised _ e => e = PDFProcessor.LibraryError
    end.
Proof.
  induction images as [| page more IH]; intros i text.
  - simpl. now rewrite app_nil_r.
  - destruct page as [page_text |]; [| reflexivity].
    cbn [PDFProcessor.ocr_rendered recognised].
    specialize (IH (S i) (text ++ page_text ++ [nl])).
    destruct (PDFProcessor.ocr_rendered more (S i) _) as [out r].
    simpl in *. destruct r as [t | e]; [| exact IH].
    rewrite IH, <- !app_assoc. reflexivity.
Qed.

Lemma finish_returned (out out' : list PDFProcessor.line) (text t : str) :
  PDFProcessor.finish out text = (out', PDFProcessor.Returned t) ->
  t = text /\ blank t = false
  /\ out' = out ++ [PDFProcessor.Extracted (List.length t)].
Proof.
  unfold PDFProcessor.finish. rewrite strip_blank.
  destruct (blank text) eqn:B; [discriminate|].
  intros H. inversion H; subst. auto.
Qed.

Lemma finish_raised (out out' : list PDFProcessor.line) (text : str)
    (e : PDFProcessor.failure) :
  PDFProcessor.finish out text = (out', PDFProcessor.Raised _ e) ->
  e = PDFProcessor.ValueError.
Proof.
  unfold PDFProcessor.finish.
  destruct (Globals.empty (strip text)); [| discriminate].
  intros H. now inversion H.
Qed.

(** X14. The text that [extract_text] returns is never blank, it ends
    with a line feed, and the last line printed gives its length. *)
Theorem extract_text_returns_lines (g : Globals.globals)
    (doc : PDFProcessor.document) (out : list PDFProcessor.line) (t : str) :
  PDFProcessor.extract_text g doc = (out, PDFProcessor.Returned t) ->
  blank t = false
  /\ (exists t', t = t' ++ [nl])
  /\ (exists out', out = out' ++ [PDFProcessor.Extracted (List.length t)]).
Proof.
  assert (Shape : forall o text, closed text ->
            PDFProcessor.finish o text = (out, PDFProcessor.Returned t) ->
            blank t = false
            /\ (exists t', t = t' ++ [nl])
            /\ (exists out',
                  out = out' ++ [PDFProcessor.Extracted (List.length t)])).
  { intros o text C F. destruct (finish_returned _ _ F) as [-> [B ->]].
    split; [exact B|]. split; [| now exists o].
    destruct C as [-> | C]; [discriminate B | exact C]. }
  unfold PDFProcessor.extract_text.
  destruct (negb (PDFProcessor.present doc)); [discriminate|].
  destruct (read_embedded_gathers (PDFProcessor.embedded doc) 0 [])
    as [E _].
  destruct (PDFProcessor.read_embedded (PDFProcessor.embedded doc) 0 [])
    as [o text].
  cbn [snd app] in E.
  assert (C : closed text) by (rewrite E; apply closed_joined).
  destruct (Globals.empty (strip text)); [| apply Shape; exact C].
  destruct (Globals.HAVE_PYMUPDF g).
  - pose proof (ocr_mupdf_gathers (PDFProcessor.mupdf doc) 0 text) as G.
    destruct (PDFProcessor.ocr_mupdf (PDFProcessor.mupdf doc) 0 text)
      as [o' text'].
    cbn [snd] in G. apply Shape. rewrite G.
    apply closed_app; [exact C | apply closed_joined].
  - destruct (Globals.convert_from_path g); [| discriminate].
    destruct (PDFProcessor.rendered doc) as [images |]; [| discriminate].
    pose proof (ocr_rendered_gathers images 0 text) as G.
    destruct (PDFProcessor.ocr_rendered images 0 text) as [o' r].
    cbn [snd] in G. destruct r as [text' | e]; [| discriminate].
    apply Shape. rewrite G.
    apply closed_app; [exact C | apply closed_joined].
Qed.

Lemma extract_text_returns_lines_witness :
  blank (u "Total 5" ++ [nl]) = false
  /\ (exists t', u "Total 5" ++ [nl] = t' ++ [nl])
  /\ (exists out',
        [PDFProcessor.Processing; PDFProcessor.ReadingEmbedded;
         PDFProcessor.EmbeddedNotFound 1; PDFProcessor.UsingOcr;
         PDFProcessor.MuPdfPage 1; PDFProcessor.Extracted 8]
        = out' ++ [PDFProcessor.Extracted
                     (List.length (u "Total 5" ++ [nl]))]).
Proof.
  refine (@extract_text_returns_lines (Globals.loaded true)
            (Paper.scan (u "Total 5")) _ _ _).
  vm_compute. reflexivity.
Defined.

(** X15. The ways [extract_text] fails: [FileNotFoundError] exactly
    when the file is not there, and then nothing is printed; with
    PyMuPDF loaded nothing but [ValueError], as the errors of rendering
    and recognition are caught; without it, the errors of pdf2image and
    of Tesseract go through, and [TypeError] is raised when
    [convert_from_path] was never imported. *)
Theorem extract_text_failures (g : Globals.globals)
    (doc : PDFProcessor.document) (out : list PDFProcessor.line)
    (e : PDFProcessor.failure) :
  PDFProcessor.extract_text g doc = (out, PDFProcessor.Raised _ e) ->
  match e with
  | PDFProcessor.FileNotFoundError =>
      PDFProcessor.present doc = false /\ out = []
  | PDFProcessor.ValueError =>
      PDFProcessor.present doc = true
      /\ (Globals.HAVE_PYMUPDF g = true \/ Globals.convert_from_path g = true)
  | PDFProcessor.LibraryError =>
      PDFProcessor.present doc = true
      /\ Globals.HAVE_PYMUPDF g = false
      /\ Globals.convert_from_path g = true
  | PDFProcessor.TypeError =>
      PDFProcessor.present doc = true
      /\ Globals.HAVE_PYMUPDF g = false
      /\ Globals.convert_from_path g = false
  end.
Proof.
  unfold PDFProcessor.extract_text.
  destruct (PDFProcessor.present doc); cbn [negb].
  2:{ intros H. inversion H; subst. split; reflexivity. }
  destruct (read_embedded_gathers (PDFProcessor.embedded doc) 0 [])
    as [E _].
  destruct (PDFProcessor.read_embedded (PDFProcessor.embedded doc) 0 [])
    as [o text].
  cbn [snd app] in E.
  assert (B : Globals.empty (strip text) = false ->
              PDFProcessor.finish
                (PDFProcessor.Processing :: PDFProcessor.ReadingEmbedded :: o)
                text
              = (out, PDFProcessor.Raised _ e) -> False).
  { intros B. unfold PDFProcessor.finish. rewrite B. discriminate. }
  destruct (Globals.empty (strip text)); [| intros F; now destruct B].
  clear B.
  destruct (Globals.HAVE_PYMUPDF g).
  - destruct (PDFProcessor.ocr_mupdf (PDFProcessor.mupdf doc) 0 text)
      as [o' text'].
    intros F. rewrite (finish_raised _ _ F). split; [reflexivity | now left].
  - destruct (Globals.convert_from_path g).
    + destruct (PDFProcessor.rendered doc) as [images |].
      * pose proof (ocr_rendered_gathers images 0 text) as G.
        destruct (PDFProcessor.ocr_rendered images 0 text) as [o' r].
        cbn [snd] in G. destruct r as [text' | e'].
        -- intros F. rewrite (finish_raised _ _ F).
           split; [reflexivity | now right].
        -- intros H. inversion H; subst. repeat split.
      * intros H. inversion H; subst. repeat split.
    + intros H. inversion H; subst. repeat split.
Qed.

Lemma extract_text_failures_witness :
  PDFProcessor.present (Paper.scan (u "Total 5")) = true
  /\ Globals.HAVE_PYMUPDF (Globals.loaded false) = false
  /\ Globals.convert_from_path (Globals.loaded false) = false.
Proof.
  refine (@extract_text_failures (Globals.loaded false)
            (Paper.scan (u "Total 5")) _ PDFProcessor.TypeError _).
  vm_compute. reflexivity.
Defined.

Lemma filter_none {A} (f : A -> bool) (l : list A) :
  existsb f l = false -> filter f l = [].
Proof.
  induction l as [| x l IH]; [reflexivity|].
  cbn [existsb filter]. intros H.
  apply orb_false_iff in H. destruct H as [H1 H2].
  rewrite H1. exact (IH H2).
Qed.

(** X16. With PyMuPDF loaded and no embedded text, a page whose
    rendering or recognition fails ends the OCR without an error: the
    call returns the text of the pages before it, a line feed after
    each, if that is not blank, and raises [ValueError] if it is. *)
Theorem extract_text_mupdf_partial (g : Globals.globals)
    (doc : PDFProcessor.document) :
  PDFProcessor.present doc = true ->
  Globals.HAVE_PYMUPDF g = true ->
  existsb has_text (before_break (PDFProcessor.embedded doc)) = false ->
  let text := joined (recognised (before_break (PDFProcessor.mupdf doc))) in
  snd (PDFProcessor.extract_text g doc)
  = if blank text then PDFProcessor.Raised _ PDFProcessor.ValueError
    else PDFProcessor.Returned text.
Proof.
  intros P M H text. unfold PDFProcessor.extract_text.
  rewrite P, M. cbn [negb].
  destruct (read_embedded_gathers (PDFProcessor.embedded doc) 0 [])
    as [E _].
  destruct (PDFProcessor.read_embedded (PDFProcessor.embedded doc) 0 [])
    as [o t0].
  cbn [snd app] in E.
  rewrite (filter_none _ _ H) in E. change (joined []) with (@nil char) in E.
  subst t0. change (Globals.empty (strip [])) with true. cbv iota.
  pose proof (ocr_mupdf_gathers (PDFProcessor.mupdf doc) 0 []) as G.
  destruct (PDFProcessor.ocr_mupdf (PDFProcessor.mupdf doc) 0 [])
    as [o' text'].
  cbn [snd app] in G. subst text'. fold text.
  unfold PDFProcessor.finish. rewrite strip_blank.
  destruct (blank text); reflexivity.
Qed.

Lemma extract_text_mupdf_partial_witness :
  let doc :=
    PDFProcessor.mkDocument true (PDFProcessor.Done _)
      (PDFProcessor.Page (Some (u "page 1"))
         (PDFProcessor.Page None
            (PDFProcessor.Page (Some (u "page 3")) (PDFProcessor.Done _))))
      None in
  let text := joined (recognised (before_break (PDFProcessor.mupdf doc))) in
  snd (PDFProcessor.extract_text (Globals.loaded true) doc)
  = if blank text then PDFProcessor.Raised _ PDFProcessor.ValueError
    else PDFProcessor.Returned text.
Proof.
  apply (@extract_text_mupdf_partial (Globals.loaded true)
           (PDFProcessor.mkDocument true (PDFProcessor.Done _)
              (PDFProcessor.Page (Some (u "page 1"))
                 (PDFProcessor.Page None
                    (PDFProcessor.Page (Some (u "page 3"))
                       (PDFProcessor.Done _))))
              None)); reflexivity.
Defined.

(** ** The checks at start-up *)

Lemma find_existsb {A} (f : A -> bool) (l : list A) :
  existsb f l = match List.find f l with Some _ => true | None => false end.
Proof.
  induction l as [| x l IH]; [reflexivity|].
  simpl. destruct (f x); [reflexivity | exact IH].
Qed.

Lemma key_unset_spec (sys : Dependencies.system) :
  negb (Dependencies.key_unset sys)
  = match Dependencies.GIGACHAT_AUTH_KEY sys with
    | Some (_ :: _) => true
    | _ => false
    end.
Proof.
  unfold Dependencies.key_unset.
  destruct (Dependencies.GIGACHAT_AUTH_KEY sys) as [[| c key] |]; reflexivity.
Qed.

(** What the checks from the languages on return, and that they leave
    the names of the module alone. *)
Lemma check_languages_spec (sys : Dependencies.system) (g : Globals.globals)
    (out : list Dependencies.line) :
  snd (Dependencies.check_languages sys g out)
  = (match Dependencies.get_languages sys with
     | Some langs => existsb (str_eqb (u "rus")) langs
     | None => false
     end
     && match Dependencies.GIGACHAT_AUTH_KEY sys with
        | Some (_ :: _) => true
        | _ => false
        end, g).
Proof.
  unfold Dependencies.check_languages, Dependencies.check_key.
  rewrite <- key_unset_spec.
  destruct (Dependencies.get_languages sys) as [langs |]; [| reflexivity].
  unfold Dependencies.has_russian.
  destruct (existsb (str_eqb (u "rus")) langs); [| reflexivity].
  cbn [negb andb]. destruct (Dependencies.key_unset sys); reflexivity.
Qed.

Lemma check_pdf2image_spec (sys : Dependencies.system) (g : Globals.globals)
    (out : list Dependencies.line) :
  exists g',
    snd (Dependencies.check_pdf2image sys g out)
    = ((Globals.convert_from_path g || Dependencies.pdf2image sys
        || Globals.HAVE_PYMUPDF g)
       && match Dependencies.get_languages sys with
          | Some langs => existsb (str_eqb (u "rus")) langs
          | None => false
          end
       && match Dependencies.GIGACHAT_AUTH_KEY sys with
          | Some (_ :: _) => true
          | _ => false
          end, g')
    /\ Globals.HAVE_PYMUPDF g' = Globals.HAVE_PYMUPDF g
    /\ Globals.convert_from_path g'
       = Globals.convert_from_path g || Dependencies.pdf2image sys
    /\ Globals.tesseract_cmd g' = Globals.tesseract_cmd g
    /\ Globals.PATH_added g' = Globals.PATH_added g.
Proof.
  unfold Dependencies.check_pdf2image.
  destruct (Globals.convert_from_path g) eqn:C; cbn [negb orb].
  - rewrite check_languages_spec. exists g. cbn [andb].
    rewrite C. repeat split; (reflexivity || assumption).
  - destruct (Dependencies.pdf2image sys); cbn [orb].
    + rewrite check_languages_spec. eexists. cbn [andb].
      split; [reflexivity|]. repeat split; (reflexivity || assumption).
    + destruct (Globals.HAVE_PYMUPDF g) eqn:M.
      * rewrite check_languages_spec. exists g. cbn [andb].
        rewrite C. repeat split; (reflexivity || assumption).
      * exists g. cbn [andb snd]. rewrite C. repeat split; (reflexivity || assumption).
Qed.

Lemma check_poppler_spec (sys : Dependencies.system) (g : Globals.globals)
    (out : list Dependencies.line) :
  exists g',
    snd (Dependencies.check_poppler sys g out)
    = ((Globals.convert_from_path g || Dependencies.pdf2image sys
        || Globals.HAVE_PYMUPDF g)
       && match Dependencies.get_languages sys with
          | Some langs => existsb (str_eqb (u "rus")) langs
          | None => false
          end
       && match Dependencies.GIGACHAT_AUTH_KEY sys with
          | Some (_ :: _) => true
          | _ => false
          end, g')
    /\ Globals.HAVE_PYMUPDF g' = Globals.HAVE_PYMUPDF g
    /\ Globals.convert_from_path g'
       = Globals.convert_from_path g || Dependencies.pdf2image sys
    /\ Globals.tesseract_cmd g' = Globals.tesseract_cmd g.
Proof.
  unfold Dependencies.check_poppler.
  destruct (Dependencies.win32 sys);
    [destruct (Dependencies.first_existing sys Dependencies.poppler_paths)|];
    match goal with
    | |- context [Dependencies.check_pdf2image sys ?g0 ?o] =>
        destruct (check_pdf2image_spec sys g0 o) as [g' [E [M [C [T _]]]]]
    end;
    exists g'; rewrite E; repeat split; assumption.
Qed.

(** X17. [check_dependencies] returns [True] exactly when Tesseract is
    at one of the configured paths or on the search path, a renderer is
    at hand ([convert_from_path] set already, pdf2image importable, or
    PyMuPDF loaded), Tesseract lists Russian among its languages, and
    the key is set and not empty. *)
Theorem check_dependencies_true_iff (sys : Dependencies.system)
    (g : Globals.globals) :
  fst (snd (Dependencies.check_dependencies sys g)) = ready sys g.
Proof.
  unfold Dependencies.check_dependencies, ready.
  unfold Dependencies.first_existing at 1. rewrite find_existsb.
  destruct (List.find (Dependencies.path_exists sys)
              Dependencies.TESSERACT_PATHS) as [path |].
  - match goal with
    | |- context [Dependencies.check_poppler sys ?g0 ?o] =>
        destruct (check_poppler_spec sys g0 o) as [g' [E _]]
    end.
    rewrite E. reflexivity.
  - destruct (Dependencies.which_tesseract sys); [| reflexivity].
    match goal with
    | |- context [Dependencies.check_poppler sys ?g0 ?o] =>
        destruct (check_poppler_spec sys g0 o) as [g' [E _]]
    end.
    rewrite E. reflexivity.
Qed.

Lemma extract_text_has_renderer (g : Globals.globals)
    (doc : PDFProcessor.document) :
  Globals.HAVE_PYMUPDF g || Globals.convert_from_path g = true ->
  snd (PDFProcessor.extract_text g doc)
  <> PDFProcessor.Raised _ PDFProcessor.TypeError.
Proof.
  intros R. unfold PDFProcessor.extract_text.
  destruct (negb (PDFProcessor.present doc)); [discriminate|].
  destruct (PDFProcessor.read_embedded (PDFProcessor.embedded doc) 0 [])
    as [o text].
  assert (F : forall o', snd (PDFProcessor.finish o' text)
                         <> PDFProcessor.Raised _ PDFProcessor.TypeError).
  { intros o'. unfold PDFProcessor.finish.
    destruct (Globals.empty (strip text)); discriminate. }
  destruct (Globals.empty (strip text)); [| apply F].
  destruct (Globals.HAVE_PYMUPDF g).
  - destruct (PDFProcessor.ocr_mupdf (PDFProcessor.mupdf doc) 0 text)
      as [o' text'].
    unfold PDFProcessor.finish.
    destruct (Globals.empty (strip text')); discriminate.
  - destruct (Globals.convert_from_path g); [| discriminate R].
    destruct (PDFProcessor.rendered doc) as [images |]; [| discriminate].
    pose proof (ocr_rendered_gathers images 0 text) as G.
    destruct (PDFProcessor.ocr_rendered images 0 text) as [o' r].
    cbn [snd] in G. destruct r as [text' | e].
    + unfold PDFProcessor.finish.
      destruct (Globals.empty (strip text')); discriminate.
    + subst e. discriminate.
Qed.

(** X18. What a successful check secures for the calls that follow it:
    with the names of the module as the check leaves them,
    [extract_text] never calls a [convert_from_path] that is [None],
    on any document; and with the key of the same environment the
    constructor of the broker does not raise, and starts with no token
    and no expiry. *)
Theorem checked_then_usable (sys : Dependencies.system)
    (g g' : Globals.globals) (out : list Dependencies.line) :
  Dependencies.check_dependencies sys g = (out, (true, g')) ->
  (forall doc,
     snd (PDFProcessor.extract_text g' doc)
     <> PDFProcessor.Raised _ PDFProcessor.TypeError)
  /\ (forall net clock, exists w,
        Construction.GigaChatAuth__init__
          (Dependencies.GIGACHAT_AUTH_KEY sys) net clock = Ok w
        /\ token w = VNone /\ token_expires_at w = None).
Proof.
  intros H.
  assert (K : exists g0 o,
            Dependencies.check_poppler sys g0 o = (out, (true, g'))
            /\ Globals.HAVE_PYMUPDF g0 = Globals.HAVE_PYMUPDF g
            /\ Globals.convert_from_path g0 = Globals.convert_from_path g).
  { revert H. unfold Dependencies.check_dependencies.
    destruct (Dependencies.first_existing sys Dependencies.TESSERACT_PATHS).
    - intros H. do 2 eexists. split; [exact H | split; reflexivity].
    - destruct (Dependencies.which_tesseract sys); [| discriminate].
      intros H. do 2 eexists. split; [exact H | split; reflexivity]. }
  destruct K as [g0 [o [E [M0 C0]]]].
  destruct (check_poppler_spec sys g0 o) as [g1 [E1 [M1 [C1 _]]]].
  rewrite E in E1. cbn [snd] in E1. inversion E1 as [[R G]]. subst g1.
  symmetry in R. apply andb_true_iff in R. destruct R as [R Key].
  apply andb_true_iff in R. destruct R as [R _].
  split.
  - intros doc. apply extract_text_has_renderer.
    rewrite M1, C1.
    destruct (Globals.convert_from_path g0), (Dependencies.pdf2image sys),
      (Globals.HAVE_PYMUPDF g0); try reflexivity; discriminate R.
  - intros net clock. unfold Construction.GigaChatAuth__init__.
    destruct (Dependencies.GIGACHAT_AUTH_KEY sys) as [[| c key] |];
      try discriminate Key.
    eexists. split; [reflexivity | split; reflexivity].
Qed.

Lemma checked_then_usable_witness :
  (forall doc,
     snd (PDFProcessor.extract_text
            (Globals.mkGlobals false true (u "/usr/bin/tesseract") []) doc)
     <> PDFProcessor.Raised _ PDFProcessor.TypeError)
  /\ (forall net clock, exists w,
        Construction.GigaChatAuth__init__
          (Dependencies.GIGACHAT_AUTH_KEY Machine.linux) net clock = Ok w
        /\ token w = VNone /\ token_expires_at w = None).
Proof.
  refine (@checked_then_usable Machine.linux (Globals.loaded false) _ _ _).
  vm_compute. reflexivity.
Defined.

(** ** What the matcher finds *)

Section Matching.
Import Re.

(** The matcher finds only words of the pattern. *)
Lemma run_shape (r : regex) :
  forall (A : Type) (k : state -> option A) (st : state) (a : A),
    run r st k = Some a ->
    exists st' w,
      k st' = Some a /\ rest st = w ++ rest st' /\ shape r w.
Proof.
  induction r as [c | items | items | r1 IH1 r2 IH2 | r1 IH1 r2 IH2
                 | r1 IH1 | r1 IH1 | n r1 IH1 | items | items |];
    intros A k st a H.
  - (* Lit *)
    cbn [run] in H. unfold step in H.
    destruct (rest st) as [| x s'] eqn:R; [discriminate|].
    destruct (chr_eqb x c) eqn:E; [| discriminate].
    apply N.eqb_eq in E. subst x.
    eexists; exists [c]. split; [exact H | split; reflexivity].
  - (* Cls *)
    cbn [run] in H. unfold step in H.
    destruct (rest st) as [| x s'] eqn:R; [discriminate|].
    destruct (in_class items x) eqn:E; [| discriminate].
    eexists; exists [x]. split; [exact H | split; [reflexivity|]].
    now exists x.
  - (* NCls *)
    cbn [run] in H. unfold step in H.
    destruct (rest st) as [| x s'] eqn:R; [discriminate|].
    destruct (in_class items x) eqn:E; [discriminate|].
    eexists; exists [x]. split; [exact H | split; [reflexivity|]].
    now exists x.
  - (* Seq *)
    cbn [run] in H.
    destruct (IH1 _ _ _ _ H) as [st1 [w1 [H1 [R1 S1]]]].
    destruct (IH2 _ _ _ _ H1) as [st2 [w2 [H2 [R2 S2]]]].
    exists st2, (w1 ++ w2). split; [exact H2|].
    split; [rewrite R1, R2; apply app_assoc|].
    now exists w1, w2.
  - (* Alt *)
    cbn [run] in H.
    destruct (run r1 st k) as [a1 |] eqn:E1.
    + inversion H; subst a1.
      destruct (IH1 _ _ _ _ E1) as [st1 [w1 [H1 [R1 S1]]]].
      exists st1, w1. split; [exact H1 | split; [exact R1 | now left]].
    + destruct (IH2 _ _ _ _ H) as [st2 [w2 [H2 [R2 S2]]]].
      exists st2, w2. split; [exact H2 | split; [exact R2 | now right]].
  - (* Star *)
    cbn [run] in H. revert H.
    generalize (List.length (rest st)) as fuel. intros fuel. revert st.
    induction fuel as [| fuel IHf]; intros st H.
    + exists st, []. split; [exact H | split; [reflexivity|]].
      now exists [].
    + match type of H with
      | match ?m with _ => _ end = _ => destruct m as [a1 |] eqn:E1
      end.
      * inversion H; subst a1.
        destruct (IH1 _ _ _ _ E1) as [st1 [w1 [H1 [R1 S1]]]].
        destruct (Nat.ltb _ _); [| discriminate H1].
        destruct (IHf st1 H1) as [st2 [w2 [H2 [R2 [ws [C F]]]]]].
        exists st2, (w1 ++ w2). split; [exact H2|].
        split; [rewrite R1, R2; apply app_assoc|].
        exists (w1 :: ws). split; [now rewrite C | now constructor].
      * exists st, []. split; [exact H | split; [reflexivity|]].
        now exists [].
  - (* Opt *)
    cbn [run] in H.
    destruct (run r1 st k) as [a1 |] eqn:E1.
    + inversion H; subst a1.
      destruct (IH1 _ _ _ _ E1) as [st1 [w1 [H1 [R1 S1]]]].
      exists st1, w1. split; [exact H1 | split; [exact R1 | now right]].
    + exists st, []. split; [exact H | split; [reflexivity | now left]].
  - (* Group *)
    cbn [run] in H.
    destruct (IH1 _ _ _ _ H) as [st1 [w1 [H1 [R1 S1]]]].
    eexists; exists w1. split; [exact H1 | split; [exact R1 | exact S1]].
  - (* NotBehind *)
    cbn [run] in H.
    exists st, []. split; [| split; reflexivity].
    destruct (before st) as [| x ?]; [exact H|].
    destruct (in_class items x); [discriminate | exact H].
  - (* NotAhead *)
    cbn [run] in H.
    exists st, []. split; [| split; reflexivity].
    destruct (rest st) as [| x ?]; [exact H|].
    destruct (in_class items x); [discriminate | exact H].
  - (* Eps *)
    exists st, []. split; [exact H | split; reflexivity].
Qed.

(** A match spans a word of the pattern at the start of the text. *)
Lemma match_at_shape (r : regex) (bef s : str) (adv : bool) (m : mtch) :
  match_at r bef s adv = Some m ->
  exists w s', s = w ++ s' /\ span m = List.length w /\ shape r w.
Proof.
  unfold match_at. intros H.
  destruct (run_shape _ _ _ H) as [st' [w [K [R S]]]].
  cbn [rest] in R.
  exists w, (rest st'). split; [exact R|]. split; [| exact S].
  destruct (adv && _); [discriminate|].
  inversion K; subst m. cbn [span].
  rewrite R, length_app. lia.
Qed.


(** *** Substitution and the two ends of a text *)

Section Ends.

Variable r : regex.
Variable tpl : list titem.
Hypothesis nonempty : forall w, shape r w -> w <> [].

Lemma match_at_span (bef s : str) (adv : bool) (m : mtch) :
  match_at r bef s adv = Some m -> 1 <= span m <= List.length s.
Proof.
  intros H. destruct (match_at_shape _ _ _ _ H) as [w [s' [E [L S]]]].
  pose proof (nonempty S) as N.
  rewrite L, E, length_app. destruct w; [contradiction | simpl; lia].
Qed.

Lemma match_at_empty (bef : str) (adv : bool) :
  match_at r bef [] adv = None.
Proof.
  destruct (match_at r bef [] adv) as [m |] eqn:H; [| reflexivity].
  apply match_at_span in H. simpl in H. lia.
Qed.

Lemma sub_from_all_skipped (s : str) :
  forall bef, sub_from r tpl bef s (List.length s) = [].
Proof.
  induction s as [| x s IH]; intros bef.
  - cbn [sub_from]. now rewrite match_at_empty.
  - cbn [sub_from List.length]. apply IH.
Qed.

(** The last character stays when no match that reaches the end of the
    text is replaced by something that ends otherwise. *)
Lemma sub_from_last (c : char) :
  (forall bef s0 m,
     match_at r bef (s0 ++ [c]) false = Some m ->
     span m = List.length (s0 ++ [c]) ->
     exists e, expand tpl m = e ++ [c]) ->
  forall (s0 bef : str) (skip : nat),
    skip <= List.length s0 ->
    exists o, sub_from r tpl bef (s0 ++ [c]) skip = o ++ [c].
Proof.
  intros H2. induction s0 as [| x s0 IH]; intros bef skip L.
  - simpl in L. assert (skip = 0) by lia. subst skip.
    cbn [app sub_from].
    destruct (match_at r bef [c] false) as [m |] eqn:M.
    + pose proof (match_at_span _ _ _ M) as B. simpl in B.
      destruct (span m) as [| n] eqn:Sp; [lia|].
      assert (n = 0) by lia. subst n.
      destruct (H2 bef [] m M) as [e E]; [rewrite Sp; reflexivity|].
      rewrite E. exists e.
      cbn [sub_from]. rewrite match_at_empty. now rewrite app_nil_r.
    + exists []. cbn [sub_from]. now rewrite match_at_empty.
  - cbn [app]. destruct skip as [| n].
    + cbn [sub_from].
      destruct (match_at r bef (x :: s0 ++ [c]) false) as [m |] eqn:M.
      * pose proof (match_at_span _ _ _ M) as B. cbn [List.length] in B.
        rewrite length_app in B. cbn [List.length] in B.
        destruct (span m) as [| n] eqn:Sp; [lia|].
        destruct (Nat.eq_dec n (List.length (s0 ++ [c]))) as [-> | Ne].
        -- destruct (H2 bef (x :: s0) m M) as [e E];
             [rewrite Sp; reflexivity|].
           rewrite E, sub_from_all_skipped. exists e. now rewrite app_nil_r.
        -- destruct (IH (x :: bef) n) as [o E].
           { rewrite length_app in Ne. cbn [List.length] in Ne. lia. }
           rewrite E. exists (expand tpl m ++ o). now rewrite app_assoc.
      * destruct (IH (x :: bef) 0) as [o E]; [lia|].
        rewrite E. now exists (x :: o).
    + cbn [sub_from]. apply IH. simpl in L. lia.
Qed.

Lemma sub_last_kept (c : char) (q : char -> bool) :
  (forall w, shape r w -> last_is q w) ->
  q c = false ->
  forall s0, exists o, sub r tpl (s0 ++ [c]) = o ++ [c].
Proof.
  intros Hq Hc s0. unfold sub. apply sub_from_last; [| lia].
  intros bef s1 m M Sp. exfalso.
  destruct (match_at_shape _ _ _ _ M) as [w [s' [E [L S]]]].
  assert (s' = []).
  { apply (f_equal (@List.length char)) in E.
    rewrite (length_app w s') in E. rewrite <- Sp, L in E.
    destruct s'; [reflexivity | simpl in E; lia]. }
  subst s'. rewrite app_nil_r in E.
  destruct (Hq w S) as [w0 [x [Ew Qx]]].
  rewrite Ew in E. apply app_inj_tail in E. destruct E as [_ E].
  subst x. rewrite Hc in Qx. discriminate Qx.
Qed.

Lemma sub_last_restored (c : char) :
  (forall m, exists e, expand tpl m = e ++ [c]) ->
  forall s0, exists o, sub r tpl (s0 ++ [c]) = o ++ [c].
Proof.
  intros H s0. unfold sub. apply sub_from_last; [| lia].
  intros bef s1 m _ _. apply H.
Qed.

End Ends.

(** The first character stays when a match at the start of the text is
    replaced by something that starts with it. *)
Lemma sub_head (r : regex) (tpl : list titem) (c : char) :
  (forall s' m,
     match_at r [] (c :: s') false = Some m ->
     exists e, expand tpl m = c :: e) ->
  forall s', exists o, sub r tpl (c :: s') = c :: o.
Proof.
  intros H s'. unfold sub. cbn [sub_from].
  destruct (match_at r [] (c :: s') false) as [m |] eqn:M;
    [| eexists; reflexivity].
  destruct (H s' m M) as [e E]. rewrite E.
  destruct (span m); eexists; reflexivity.
Qed.

Lemma both_ends (a b : char) (o x y : str) :
  a <> b -> o = a :: x -> o = y ++ [b] -> exists middle, o = a :: middle ++ [b].
Proof.
  intros N E1 E2. subst o. destruct y as [| z y]; simpl in E2.
  - inversion E2. contradiction.
  - inversion E2; subst. now exists y.
Qed.

(** *** The words of the patterns *)

Lemma shape_lit_last (q : char -> bool) (c : char) (w : str) :
  q c = true -> shape (Lit c) w -> last_is q w.
Proof. intros Q ->. now exists [], c. Qed.

Lemma shape_seq_last (q : char -> bool) (r1 r2 : regex) (w : str) :
  (forall w2, shape r2 w2 -> last_is q w2) ->
  shape (Seq r1 r2) w -> last_is q w.
Proof.
  intros H [w1 [w2 [-> [_ S2]]]].
  destruct (H w2 S2) as [w0 [x [-> Q]]].
  exists (w1 ++ w0), x. now rewrite app_assoc.
Qed.

Lemma shape_seq_last_opt (q : char -> bool) (r1 r2 : regex) (w : str) :
  (forall w1, shape r1 w1 -> last_is q w1) ->
  (forall w2, shape r2 w2 -> w2 = [] \/ last_is q w2) ->
  shape (Seq r1 r2) w -> last_is q w.
Proof.
  intros H1 H2 [w1 [w2 [-> [S1 S2]]]].
  destruct (H2 w2 S2) as [-> | [w0 [x [-> Q]]]].
  - rewrite app_nil_r. now apply H1.
  - exists (w1 ++ w0), x. now rewrite app_assoc.
Qed.

Lemma shape_ws_last (w : str) : shape ws w -> last_is isspace w.
Proof.
  intros [x [-> Q]]. exists [], x. split; [reflexivity|].
  unfold in_class in Q. simpl in Q. now rewrite orb_false_r in Q.
Qed.

Lemma shape_ws_star_last (w : str) :
  shape ws_star w -> w = [] \/ last_is isspace w.
Proof.
  intros [wl [-> F]]. induction F as [| w1 wl S1 F IH]; [now left|].
  right. destruct (shape_ws_last S1) as [w0 [x [-> Q]]].
  cbn [List.concat]. destruct IH as [-> | [w0' [y [-> Qy]]]].
  - rewrite app_nil_r. now exists w0, x.
  - exists ((w0 ++ [x]) ++ w0'), y. now rewrite app_assoc.
Qed.

(** A separator and the line break after it, with the white space
    around the line break. *)
Lemma shape_line_break_last (c : char) (w : str) :
  shape (Seq (Lit c) (Seq ws_star (Seq (Lit nl) ws_star))) w ->
  last_is isspace w.
Proof.
  apply shape_seq_last. intros w2. apply shape_seq_last. intros w3.
  apply shape_seq_last_opt.
  - intros w1. now apply shape_lit_last.
  - apply shape_ws_star_last.
Qed.

Lemma shape_broken_value_last (w : str) :
  shape InvoiceAuditor.broken_value w -> last_is (fun x => chr_eqb x dq) w.
Proof.
  unfold InvoiceAuditor.broken_value.
  repeat (apply shape_seq_last; intros ?).
  now apply shape_lit_last.
Qed.

Lemma shape_ws_plus_last (w : str) : shape ws_plus w -> last_is isspace w.
Proof.
  apply shape_seq_last_opt; [apply shape_ws_last | apply shape_ws_star_last].
Qed.

Lemma shape_before_brace_nonempty (w : str) :
  shape (Seq ws_star (Seq (Lit nl) (Seq ws_star (Lit (ch "}"))))) w ->
  w <> [].
Proof.
  intros [w1 [w2 [-> [_ [w3 [w4 [-> [-> _]]]]]]]] E.
  apply app_eq_nil in E. destruct E as [_ E]. discriminate E.
Qed.

Lemma last_is_nonempty (q : char -> bool) (w : str) : last_is q w -> w <> [].
Proof. intros [w0 [x [-> _]]] E. now apply app_eq_nil in E. Qed.

(** *** [find], [rfind] and slices *)

Lemma find_from_spec (c : char) (s : str) :
  forall i : Z,
    find_from c s i = (-1)%Z
    \/ exists pre post,
         s = pre ++ c :: post
         /\ find_from c s i = (i + Z.of_nat (List.length pre))%Z.
Proof.
  induction s as [| x s IH]; intros i; [now left|].
  cbn [find_from]. destruct (chr_eqb x c) eqn:E.
  - apply N.eqb_eq in E. subst x. right. exists [], s.
    split; [reflexivity | simpl; lia].
  - destruct (IH (i + 1)%Z) as [H | [pre [post [-> H]]]]; [now left|].
    right. exists (x :: pre), post. split; [reflexivity|].
    rewrite H. cbn [List.length]. lia.
Qed.

Lemma rfind_from_spec (c : char) (s : str) :
  forall i last : Z,
    rfind_from c s i last = last
    \/ exists pre post,
         s = pre ++ c :: post
         /\ rfind_from c s i last = (i + Z.of_nat (List.length pre))%Z.
Proof.
  induction s as [| x s IH]; intros i last; [now left|].
  cbn [rfind_from].
  destruct (IH (i + 1)%Z (if chr_eqb x c then i else last))
    as [H | [pre [post [-> H]]]].
  - rewrite H. destruct (chr_eqb x c) eqn:E; [| now left].
    apply N.eqb_eq in E. subst x. right. exists [], s.
    split; [reflexivity | simpl; lia].
  - right. exists (x :: pre), post. split; [reflexivity|].
    rewrite H. cbn [List.length]. lia.
Qed.

(** The slice from an occurrence of [a] to a later occurrence of [b],
    both included. *)
Lemma slice_between (s : str) (a b : char) (pre1 post1 pre2 post2 : str) :
  s = pre1 ++ a :: post1 ->
  s = pre2 ++ b :: post2 ->
  List.length pre1 < List.length pre2 ->
  exists middle,
    slice s (Z.of_nat (List.length pre1)) (Z.of_nat (List.length pre2) + 1)
    = a :: middle ++ [b].
Proof.
  intros E1 E2 L. unfold slice.
  rewrite Nat2Z.id.
  replace (Z.to_nat (Z.of_nat (List.length pre2) + 1
                     - Z.of_nat (List.length pre1)))
    with (S (List.length pre2 - List.length pre1)) by lia.
  assert (P : exists middle, pre2 = pre1 ++ a :: middle).
  { rewrite E1 in E2. clear E1 s. revert pre2 E2 L.
    induction pre1 as [| x pre1 IH]; intros pre2 E2 L.
    - destruct pre2 as [| y pre2]; [simpl in L; lia|].
      simpl in E2. inversion E2; subst. now exists pre2.
    - destruct pre2 as [| y pre2]; [simpl in L; lia|].
      simpl in E2. inversion E2; subst.
      destruct (IH pre2) as [middle ->]; [assumption | simpl in L; lia|].
      now exists middle. }
  destruct P as [middle ->].
  exists middle. rewrite E2, <- app_assoc.
  rewrite skipn_app, skipn_all, Nat.sub_diag. cbn [skipn app].
  rewrite length_app. cbn [List.length].
  replace (List.length pre1 + S (List.length middle) - List.length pre1)
    with (S (List.length middle)) by lia.
  rewrite firstn_cons. f_equal.
  replace (S (List.length middle)) with (List.length middle + 1) by lia.
  rewrite firstn_app_2. reflexivity.
Qed.

(** X19. When the text has an opening brace before its last closing
    brace, the candidate starts with an opening brace and ends with a
    closing brace: none of the repairs made between the braces takes
    the braces away. *)
Theorem extract_json_with_braces_delimited (text : str) :
  let t := InvoiceAuditor.unfenced text in
  (0 <= find t (ch "{") < rfind t (ch "}"))%Z ->
  exists middle,
    InvoiceAuditor.extract_json_from_text text
    = ch "{" :: middle ++ [ch "}"].
Proof.
  intros t [H1 H2]. unfold InvoiceAuditor.extract_json_from_text. fold t.
  pose proof H1 as B1. pose proof H2 as B2.
  apply Z.leb_le in B1. apply Z.ltb_lt in B2. rewrite B1, B2. cbn [andb].
  clear B1 B2.
  assert (S0 : exists middle,
            slice t (find t (ch "{")) (rfind t (ch "}") + 1)
            = ch "{" :: middle ++ [ch "}"]).
  { unfold find, rfind in *.
    destruct (find_from_spec (ch "{") t 0) as [F | [pre1 [post1 [E1 F]]]];
      [lia|].
    destruct (rfind_from_spec (ch "}") t 0 (-1))
      as [R | [pre2 [post2 [E2 R]]]]; [lia|].
    rewrite F, R in *. rewrite !Z.add_0_l in *.
    eapply slice_between; [exact E1 | exact E2 | lia]. }
  destruct S0 as [m0 ->].
  assert (N : ch "{" <> ch "}") by (vm_compute; discriminate).
  assert (Q : isspace (ch "}") = false) by reflexivity.
  unfold InvoiceAuditor.collapse. cbv zeta.
  (* the quoted values broken by a line feed *)
  match goal with
  | |- context [sub InvoiceAuditor.broken_value ?tpl ?inp] =>
      assert (S1 : exists m1, sub InvoiceAuditor.broken_value tpl inp
                              = ch "{" :: m1 ++ [ch "}"]);
      [ destruct (@sub_head InvoiceAuditor.broken_value tpl (ch "{")
                    ltac:(intros s' m M; vm_compute in M; discriminate M)
                    (m0 ++ [ch "}"])) as [o1 E1];
        destruct (@sub_last_kept InvoiceAuditor.broken_value tpl
                    (fun w S => last_is_nonempty (shape_broken_value_last S))
                    (ch "}") (fun y => chr_eqb y dq)
                    shape_broken_value_last eq_refl (ch "{" :: m0))
          as [o2 E2];
        exact (@both_ends _ _ _ _ _ N E1 E2) |]
  end.
  destruct S1 as [m1 ->].
  (* a comma and a line break *)
  match goal with
  | |- context [sub ?r ?tpl (ch "{" :: m1 ++ [ch "}"])] =>
      assert (S2 : exists m2, sub r tpl (ch "{" :: m1 ++ [ch "}"])
                              = ch "{" :: m2 ++ [ch "}"]);
      [ destruct (@sub_head r tpl (ch "{")
                    ltac:(intros s' m M; vm_compute in M; discriminate M)
                    (m1 ++ [ch "}"])) as [o1 E1];
        destruct (@sub_last_kept r tpl
                    (fun w S => last_is_nonempty (shape_line_break_last S))
                    (ch "}") isspace
                    (@shape_line_break_last (ch ",")) Q (ch "{" :: m1))
          as [o2 E2];
        exact (@both_ends _ _ _ _ _ N E1 E2) |]
  end.
  destruct S2 as [m2 ->].
  (* an opening brace and a line break *)
  match goal with
  | |- context [sub ?r ?tpl (ch "{" :: m2 ++ [ch "}"])] =>
      assert (S3 : exists m3, sub r tpl (ch "{" :: m2 ++ [ch "}"])
                              = ch "{" :: m3 ++ [ch "}"]);
      [ destruct (@sub_head r tpl (ch "{")
                    ltac:(intros s' m _; eexists; reflexivity)
                    (m2 ++ [ch "}"])) as [o1 E1];
        destruct (@sub_last_kept r tpl
                    (fun w S => last_is_nonempty (shape_line_break_last S))
                    (ch "}") isspace
                    (@shape_line_break_last (ch "{")) Q (ch "{" :: m2))
          as [o2 E2];
        exact (@both_ends _ _ _ _ _ N E1 E2) |]
  end.
  destruct S3 as [m3 ->].
  (* a line break and a closing brace *)
  match goal with
  | |- context [sub ?r ?tpl (ch "{" :: m3 ++ [ch "}"])] =>
      assert (S4 : exists m4, sub r tpl (ch "{" :: m3 ++ [ch "}"])
                              = ch "{" :: m4 ++ [ch "}"]);
      [ destruct (@sub_head r tpl (ch "{")
                    ltac:(intros s' m M; vm_compute in M; discriminate M)
                    (m3 ++ [ch "}"])) as [o1 E1];
        destruct (@sub_last_restored r tpl shape_before_brace_nonempty
                    (ch "}") (fun m => ex_intro _ (u " ") eq_refl)
                    (ch "{" :: m3))
          as [o2 E2];
        exact (@both_ends _ _ _ _ _ N E1 E2) |]
  end.
  destruct S4 as [m4 ->].
  (* runs of white space *)
  destruct (@sub_head ws_plus [TLit (u " ")] (ch "{")
              ltac:(intros s' m M; vm_compute in M; discriminate M)
              (m4 ++ [ch "}"])) as [o1 E1].
  destruct (@sub_last_kept ws_plus [TLit (u " ")]
              (fun w S => last_is_nonempty (shape_ws_plus_last S))
              (ch "}") isspace shape_ws_plus_last Q (ch "{" :: m4))
    as [o2 E2].
  exact (@both_ends _ _ _ _ _ N E1 E2).
Qed.

Lemma extract_json_with_braces_delimited_witness :
  exists middle,
    InvoiceAuditor.extract_json_from_text
      (u "so: {" ++ [nl; nl] ++ u " 'a' :   1 } .")
    = ch "{" :: middle ++ [ch "}"].
Proof.
  apply (extract_json_with_braces_delimited
           (u "so: {" ++ [nl; nl] ++ u " 'a' :   1 } .")).
  split; [vm_compute; discriminate | vm_compute; reflexivity].
Defined.

End Matching.

(** ** The time [audit] sleeps *)

Lemma slept_app (es es' : list event) :
  slept (es ++ es') = (slept es + slept es')%Z.
Proof.
  induction es as [| e es IH]; [reflexivity|].
  destruct e; simpl; rewrite IH; lia.
Qed.

Lemma slept_none (es : list event) :
  forallb no_sleep es = true -> slept es = 0%Z.
Proof.
  induction es as [| e es IH]; [reflexivity|].
  simpl. intros H. apply andb_true_iff in H. destruct H as [He Hes].
  destruct e; try discriminate He; auto.
Qed.

Lemma calm_quiet {A} (n : Z) (m : M A) :
  (0 <= n)%Z -> emits no_sleep m -> calm n m.
Proof.
  intros N H w. destruct (H w) as [es [E F]]. exists es.
  rewrite (slept_none es F). split; [exact E | split; [lia | reflexivity]].
Qed.

Lemma calm_after_quiet {A B} (n : Z) (m : M A) (f : A -> M B) :
  emits no_sleep m -> (forall a, calm n (f a)) -> (0 <= n)%Z ->
  calm n (mbind m f).
Proof.
  intros Hm Hf N w. unfold mbind.
  destruct (Hm w) as [es1 [E1 F1]]. pose proof (slept_none es1 F1) as Z1.
  destruct (m w) as [[a | e |] w1]; simpl in E1.
  - destruct (Hf a w1) as [es2 [E2 [B2 R2]]].
    exists (es1 ++ es2). rewrite E2, E1, <- app_assoc, slept_app, Z1.
    split; [reflexivity | split; [lia|]].
    intros e He. rewrite (R2 e He). reflexivity.
  - exists es1. rewrite Z1. split; [exact E1 | split; [lia | reflexivity]].
  - exists es1. rewrite Z1. split; [exact E1 | split; [lia | reflexivity]].
Qed.

Lemma calm_handled {A} (n : Z) (m : M A) (h : exn -> M A) :
  emits no_sleep m -> (forall e, calm n (h e)) -> (0 <= n)%Z ->
  calm n (try_except m h).
Proof.
  intros Hm Hh N w. unfold try_except.
  destruct (Hm w) as [es1 [E1 F1]]. pose proof (slept_none es1 F1) as Z1.
  destruct (m w) as [[a | e |] w1]; simpl in E1.
  - exists es1. rewrite Z1. split; [exact E1 | split; [lia | reflexivity]].
  - destruct (Hh e w1) as [es2 [E2 [B2 R2]]].
    exists (es1 ++ es2). rewrite E2, E1, <- app_assoc, slept_app, Z1.
    split; [reflexivity | split; [lia|]].
    intros e' He. rewrite (R2 e' He). reflexivity.
  - exists es1. rewrite Z1. split; [exact E1 | split; [lia | reflexivity]].
Qed.

(** The handler of a reply that does not parse sleeps one second at
    most, and raises nothing once it has slept. *)
Lemma parse_failed_calm (text : str) (attempt : nat) (result_text : value) :
  calm 1
    (print (ParseFailed (attempt + 1)) ;;;
     if Nat.eqb attempt 2 then
       lift (InvoiceAuditor.check_slice result_text) ;;;
       print RawReply ;;;
       ret (InvoiceAuditor.Return (InvoiceAuditor.diagnostic result_text text))
     else sleep 1 ;;; ret InvoiceAuditor.Next).
Proof.
  intros w. destruct (Nat.eqb attempt 2).
  - destruct (InvoiceAuditor.check_slice result_text) as [[] | e |] eqn:C.
    + exists [Printed (ParseFailed (attempt + 1)); Printed RawReply].
      unfold mbind, print, emit, lift, ret, after. simpl.
      rewrite <- app_assoc.
      split; [reflexivity | split; [lia | discriminate]].
    + exists [Printed (ParseFailed (attempt + 1))].
      unfold mbind, print, emit, lift, ret, after. simpl.
      split; [reflexivity | split; [lia | reflexivity]].
    + exists [Printed (ParseFailed (attempt + 1))].
      unfold mbind, print, emit, lift, ret, after. simpl.
      split; [reflexivity | split; [lia | reflexivity]].
  - exists [Printed (ParseFailed (attempt + 1)); Slept 1].
    unfold mbind, print, sleep, emit, ret, after. simpl.
    rewrite <- app_assoc.
    split; [reflexivity | split; [lia | discriminate]].
Qed.

Lemma attempt_try_calm (text : str) (attempt : nat) :
  calm 1 (InvoiceAuditor.attempt_try text attempt).
Proof.
  assert (P : forall l, no_sleep (Printed l) = true) by reflexivity.
  unfold InvoiceAuditor.attempt_try, InvoiceAuditor.raise_for_status.
  apply calm_after_quiet; [apply token_quiet; auto | intros _ | lia].
  apply calm_after_quiet;
    [apply emits_post; reflexivity | intros [status body] | lia].
  destruct (status =? 401)%Z.
  - apply calm_quiet; [lia|].
    repeat (apply emits_bind; [| intros ?]);
      try apply emits_ret; try apply emits_set_token;
      apply emits_emit; reflexivity.
  - apply calm_after_quiet; [| intros _ | lia].
    { destruct (_ && _); [apply emits_raise | apply emits_ret]. }
    apply calm_after_quiet; [apply emits_lift | intros result_text | lia].
    apply calm_after_quiet; [apply emits_lift | intros _ | lia].
    apply calm_after_quiet; [apply emits_emit; reflexivity | intros _ | lia].
    apply calm_handled; [apply parse_reply_quiet; auto | intros _ | lia].
    apply parse_failed_calm.
Qed.

Lemma attempt_body_pauses (text : str) (attempt : nat) :
  pauses 2 (InvoiceAuditor.attempt_body text attempt).
Proof.
  intros w. unfold InvoiceAuditor.attempt_body, try_except.
  destruct (attempt_try_calm text attempt w) as [es1 [E1 [B1 R1]]].
  destruct (InvoiceAuditor.attempt_try text attempt w) as [[r | e |] w1];
    simpl in E1, R1.
  - exists es1. split; [exact E1 | lia].
  - pose proof (R1 e eq_refl) as Z1.
    unfold InvoiceAuditor.attempt_except.
    destruct (is_Timeout e).
    + exists (es1 ++ [Printed (TimeoutLine (attempt + 1)); Slept 2]).
      unfold mbind, print, sleep, emit, ret, after. simpl.
      rewrite E1, <- !app_assoc, slept_app, Z1.
      split; [reflexivity | simpl; lia].
    + destruct (Nat.eqb attempt 2).
      * exists (es1 ++ [Printed ErrorLine]).
        unfold mbind, print, emit, raise, after. simpl.
        rewrite E1, <- !app_assoc, slept_app, Z1.
        split; [reflexivity | simpl; lia].
      * exists (es1 ++ [Printed ErrorLine; Slept 1]).
        unfold mbind, print, sleep, emit, ret, after. simpl.
        rewrite E1, <- !app_assoc, slept_app, Z1.
        split; [reflexivity | simpl; lia].
  - exists es1. split; [exact E1 | lia].
Qed.

Lemma attempts_loop_pauses (text : str) (attempts : list nat) :
  pauses (2 * Z.of_nat (List.length attempts))
    (InvoiceAuditor.attempts_loop text attempts).
Proof.
  induction attempts as [| attempt attempts IH]; intros w.
  - exists []. rewrite app_nil_r. split; [reflexivity | simpl; lia].
  - cbn [InvoiceAuditor.attempts_loop]. unfold mbind.
    destruct (attempt_body_pauses text attempt w) as [es1 [E1 B1]].
    destruct (InvoiceAuditor.attempt_body text attempt w) as [[r | e |] w1];
      simpl in E1.
    + destruct r as [v |].
      * exists es1. split; [exact E1|]. cbn [List.length]. lia.
      * destruct (IH w1) as [es2 [E2 B2]].
        exists (es1 ++ es2). rewrite E2, E1, <- app_assoc, slept_app.
        split; [reflexivity|]. cbn [List.length]. lia.
    + exists es1. split; [exact E1|]. cbn [List.length]. lia.
    + exists es1. split; [exact E1|]. cbn [List.length]. lia.
Qed.

(** X20. Whatever the services answer, one call of [audit] sleeps six
    seconds at most in all. *)
Theorem audit_sleeps_six_seconds_at_most (extracted : str) (w : world) :
  exists es,
    events (snd (InvoiceAuditor.audit extracted w)) = events w ++ es
    /\ (0 <= slept es <= 6)%Z.
Proof.
  unfold InvoiceAuditor.audit.
  exact (attempts_loop_pauses (TextCleaner.clean_pdf_text extracted)
           (seq 0 3) w).
Qed.
